(** * HomeTheater: catalog scanner, metadata worker and streaming routes

    A shallow embedding of [app.py] (the Flask server: title parsing, the
    directory scanner, the HTTP routes, the metadata worker, the JSON cache)
    and of the functions of [backend.py] that do the same work for the
    desktop front end, followed by the properties of the specification.

    Python values are modelled as follows.
    - [str] is a [string]; its characters are the code points U+0000..U+00FF,
      and the character classes of [re] ([\d], [\s], [\w], [\b], IGNORECASE)
      are the ones Python uses for these code points.
    - A [dict] that the program mutates while several names refer to it
      (a movie, a series' meta) lives in a heap and is referred to by its
      location; a [dict] used as a table is an insertion-ordered association
      list with unique keys.
    - The operating system, the network and the decoder process are an
      explicit environment record.  Paths follow POSIX conventions. *)

From Stdlib Require Import ZArith Ascii String List Bool Lia DecimalString DecimalZ.
From Stdlib Require Import Strings.Byte.
From stdpp Require Import base list strings.
From Equations Require Import Equations.
From Equations.Prop Require Import Logic.
Import ListNotations.


(** ** Characters *)

Module Char.

Definition code (c : ascii) : N := N_of_ascii c.

Definition in_range (lo hi : N) (c : ascii) : bool :=
  ((lo <=? code c) && (code c <=? hi))%N.

(** [\d] *)
Definition is_digit (c : ascii) : bool := in_range 48 57 c.

(** [\s] and [str.isspace] *)
Definition is_space (c : ascii) : bool :=
  in_range 9 13 c || in_range 28 32 c || (code c =? 133)%N || (code c =? 160)%N.

Definition is_ascii_alpha (c : ascii) : bool :=
  in_range 65 90 c || in_range 97 122 c.

(** [\w]: alphanumeric code points and the underscore *)
Definition is_word (c : ascii) : bool :=
  is_digit c || is_ascii_alpha c || (code c =? 95)%N
  || existsb (N.eqb (code c)) [170; 178; 179; 181; 185; 186; 188; 189; 190]%N
  || in_range 192 214 c || in_range 216 246 c || in_range 248 255 c.

(** [str.lower], one character *)
Definition lower (c : ascii) : ascii :=
  if in_range 65 90 c || (in_range 192 222 c && negb (code c =? 215)%N)
  then ascii_of_N (code c + 32) else c.

Definition eqb (a b : ascii) : bool := Ascii.eqb a b.

(** a literal character of a pattern compiled with [re.IGNORECASE] *)
Definition eqb_nocase (a b : ascii) : bool := Ascii.eqb (lower a) (lower b).

(** a character class written by enumeration, [[...]] *)
Definition one_of (cls : string) (c : ascii) : bool :=
  existsb (Ascii.eqb c) (list_ascii_of_string cls).

End Char.

(** ** The fragment of [re] the program uses

    Sequences, alternatives, capture groups and the word boundary, with the
    greedy repetitions [*] and [+] applied to single-character classes (every
    repetition in the program's patterns is of that form).  Matching is by
    backtracking, leftmost alternative and longest repetition first, as in
    Python. *)

Module Re.

Inductive regex :=
| Chr (p : ascii -> bool)
| Seq (r1 r2 : regex)
| Alt (r1 r2 : regex)
| Star (p : ascii -> bool)
| Plus (p : ascii -> bool)
| Group (r : regex)
| Bound.

(** [\b] between the previous character and the next one *)
Definition at_boundary (prev : option ascii) (s : list ascii) : bool :=
  let w (o : option ascii) :=
    match o with Some c => Char.is_word c | None => false end in
  negb (Bool.eqb (w prev) (w (head s))).

Section Matcher.
Context {R : Type}.

(** a continuation receives the previous character, the rest of the
    subject and the groups captured so far *)
Definition cont := option ascii -> list ascii -> list (list ascii) -> option R.

Fixpoint many (p : ascii -> bool) (prev : option ascii) (s : list ascii)
    (k : option ascii -> list ascii -> option R) : option R :=
  match s with
  | c :: s' =>
      if p c then
        match many p (Some c) s' k with
        | Some r => Some r
        | None => k prev s
        end
      else k prev s
  | [] => k prev s
  end.

Fixpoint run (r : regex) (prev : option ascii) (s : list ascii)
    (caps : list (list ascii)) (k : cont) : option R :=
  match r with
  | Chr p =>
      match s with
      | c :: s' => if p c then k (Some c) s' caps else None
      | [] => None
      end
  | Seq r1 r2 =>
      run r1 prev s caps (fun prev' s' caps' => run r2 prev' s' caps' k)
  | Alt r1 r2 =>
      match run r1 prev s caps k with
      | Some x => Some x
      | None => run r2 prev s caps k
      end
  | Star p => many p prev s (fun prev' s' => k prev' s' caps)
  | Plus p =>
      match s with
      | c :: s' =>
          if p c then many p (Some c) s' (fun prev' s' => k prev' s' caps)
          else None
      | [] => None
      end
  | Group r1 =>
      run r1 prev s caps (fun prev' s' caps' =>
        k prev' s' (caps' ++ [take (length s - length s') s]))
  | Bound => if at_boundary prev s then k prev s caps else None
  end.
End Matcher.

(** A match: where it starts, how long it is, its groups ([groups !! 0] is
    group 1). *)
Record rmatch := { m_start : nat; m_len : nat; m_groups : list (list ascii) }.

Definition match_at (r : regex) (prev : option ascii) (s : list ascii)
    : option (nat * list (list ascii)) :=
  run r prev s [] (fun _ s' caps => Some (length s - length s', caps)).

(** [re.search]: the first position at which the pattern matches *)
Fixpoint search_from (r : regex) (prev : option ascii) (i : nat)
    (s : list ascii) : option rmatch :=
  match match_at r prev s with
  | Some (n, caps) => Some {| m_start := i; m_len := n; m_groups := caps |}
  | None =>
      match s with
      | [] => None
      | c :: s' => search_from r (Some c) (S i) s'
      end
  end.

Definition search (r : regex) (s : list ascii) : option rmatch :=
  search_from r None 0 s.

Definition group (n : nat) (m : rmatch) : list ascii :=
  default [] (m_groups m !! (n - 1)).

(** [re.sub] with a replacement computed from the groups.  The matches are
    found left to right and do not overlap; [skip] counts the characters of
    the current match still to be dropped.  The program's patterns never
    match the empty string. *)
Fixpoint sub_from (r : regex) (repl : list (list ascii) -> list ascii)
    (prev : option ascii) (skip : nat) (s : list ascii) : list ascii :=
  match s with
  | [] => []
  | c :: s' =>
      match skip with
      | S n => sub_from r repl (Some c) n s'
      | O =>
          match match_at r prev s with
          | Some (S n, caps) => repl caps ++ sub_from r repl (Some c) n s'
          | Some (O, caps) => repl caps ++ c :: sub_from r repl (Some c) 0 s'
          | None => c :: sub_from r repl (Some c) 0 s'
          end
      end
  end.

Definition sub (r : regex) (repl : list (list ascii) -> list ascii)
    (s : list ascii) : list ascii :=
  sub_from r repl None 0 s.

(** pattern builders *)
Definition chr (c : ascii) : regex := Chr (Char.eqb c).
Definition chr_nocase (c : ascii) : regex := Chr (Char.eqb_nocase c).

Fixpoint seq_of (rs : list regex) (last : regex) : regex :=
  match rs with
  | [] => last
  | r :: rs' => Seq r (seq_of rs' last)
  end.

(** a literal word followed by [last] *)
Definition lit (w : string) (last : regex) : regex :=
  seq_of (map chr (list_ascii_of_string w)) last.
Definition lit_nocase (w : string) (last : regex) : regex :=
  seq_of (map chr_nocase (list_ascii_of_string w)) last.

Definition digit : regex := Chr Char.is_digit.

End Re.

(** ** [str] methods and [os.path] (POSIX) *)

Module Py.

Definition chars (s : string) : list ascii := list_ascii_of_string s.
Definition text (l : list ascii) : string := string_of_list_ascii l.

(** truth value of a string, and of [d.get(key)] *)
Definition truthy (s : string) : bool := negb (String.eqb s "").
Definition truthy_opt (o : option string) : bool :=
  match o with Some s => truthy s | None => false end.

(** [s[:n]] and [s[n:]] *)
Definition str_take (n : nat) (s : string) : string := text (take n (chars s)).
Definition str_drop (n : nat) (s : string) : string := text (drop n (chars s)).

Definition lower (s : string) : string := text (map Char.lower (chars s)).

Fixpoint is_prefix (p s : list ascii) : bool :=
  match p, s with
  | [], _ => true
  | a :: p', b :: s' => Ascii.eqb a b && is_prefix p' s'
  | _ :: _, [] => false
  end.

Definition startswith (s p : string) : bool := is_prefix (chars p) (chars s).
Definition endswith (s p : string) : bool :=
  is_prefix (rev (chars p)) (rev (chars s)).
(** [s.endswith(t)] for a tuple [t] *)
Definition endswith_any (s : string) (ps : list string) : bool :=
  existsb (endswith s) ps.

(** [c in s] for a one-character [c] *)
Definition contains (c : ascii) (s : string) : bool :=
  existsb (Ascii.eqb c) (chars s).

(** [s.replace(c, '')] for a one-character [c] *)
Definition remove_char (c : ascii) (s : string) : string :=
  text (List.filter (fun x => negb (Ascii.eqb c x)) (chars s)).

Fixpoint lstrip (s : list ascii) : list ascii :=
  match s with
  | c :: s' => if Char.is_space c then lstrip s' else s
  | [] => []
  end.

Definition strip (s : string) : string :=
  text (rev (lstrip (rev (lstrip (chars s))))).

(** [s.rfind(c)]: the last index of [c], or -1 *)
Fixpoint rfind_from (c : ascii) (i : Z) (found : Z) (s : list ascii) : Z :=
  match s with
  | [] => found
  | x :: s' => rfind_from c (i + 1) (if Ascii.eqb x c then i else found) s'
  end.
Definition rfind (c : ascii) (s : list ascii) : Z := rfind_from c 0 (-1) s.

(** [posixpath.basename]: [p[p.rfind('/') + 1:]] *)
Definition basename (p : string) : string :=
  str_drop (Z.to_nat (rfind "/" (chars p) + 1)) p.

(** [posixpath.splitext] ([genericpath._splitext]): the extension starts at
    the last dot, unless only dots precede it in the last component. *)
Definition splitext (p : string) : string * string :=
  let l := chars p in
  let sepIndex := rfind "/" l in
  let dotIndex := rfind "." l in
  if (sepIndex <? dotIndex)%Z &&
     existsb (fun x => negb (Ascii.eqb x "."))
       (take (Z.to_nat (dotIndex - (sepIndex + 1)))
          (drop (Z.to_nat (sepIndex + 1)) l))
  then (str_take (Z.to_nat dotIndex) p, str_drop (Z.to_nat dotIndex) p)
  else (p, "").

(** [posixpath.join(a, b)] *)
Definition join (a b : string) : string :=
  if startswith b "/" then b
  else if negb (truthy a) || endswith a "/" then a +:+ b
  else a +:+ "/" +:+ b.

(** the number a string of decimal digits stands for *)
Definition decimal (s : list ascii) : Z :=
  fold_left (fun acc c => (acc * 10 + (Z.of_N (Char.code c) - 48))%Z) s 0%Z.

(** [int(s)] for a string of decimal digits.  It raises [ValueError] when
    [s] has more digits than the interpreter allows ([limit] is
    [sys.get_int_max_str_digits()], 0 for no limit). *)
Definition int_of (limit : nat) (s : list ascii) : option Z :=
  if (0 <? limit)%nat && (limit <? length s)%nat then None else Some (decimal s).

(** [str(n)] *)
Definition str_of_Z (n : Z) : string := NilZero.string_of_int (Z.to_int n).

Definition nl : string := String (ascii_of_nat 10) "".

(** [f.read(n)] on the unread part of a file: at most [n] bytes *)
Fixpoint read {A} (n : Z) (data : list A) : list A :=
  match data with
  | [] => []
  | x :: data' => if (0 <? n)%Z then x :: read (n - 1) data' else []
  end.

(** string-level entry points of [re] *)
Definition re_search (r : Re.regex) (s : string) : option Re.rmatch :=
  Re.search r (chars s).
Definition re_group (n : nat) (m : Re.rmatch) : string := text (Re.group n m).
Definition re_sub (r : Re.regex) (repl : string) (s : string) : string :=
  text (Re.sub r (fun _ => chars repl) (chars s)).
(** a match object, or [None], used as a condition *)
Definition found (m : option Re.rmatch) : bool :=
  match m with Some _ => true | None => false end.
(** [re.split(r, s)[0]] *)
Definition re_split_head (r : Re.regex) (s : string) : string :=
  match re_search r s with
  | Some m => str_take (Re.m_start m) s
  | None => s
  end.

End Py.

(** ** Title parsing *)

Import Re Py.

(** [[\(\[\.\s](19\d{2}|20\d{2})[\)\]\.\s]] *)
Definition year_re : regex :=
  Seq (Chr (fun c => Char.one_of "([." c || Char.is_space c))
  (Seq (Group (Alt (lit "19" (Seq digit digit)) (lit "20" (Seq digit digit))))
       (Chr (fun c => Char.one_of ")]." c || Char.is_space c))).

(** [[\.\-_]] *)
Definition separator_re : regex := Chr (Char.one_of ".-_").

(** [\b] + j + [\b] with [re.IGNORECASE] *)
Definition junk_re (j : string) : regex := Seq Bound (lit_nocase j Bound).

(** [\s+] *)
Definition spaces_re : regex := Plus Char.is_space.



(** the part of both [get_smart_title]s that cleans the name *)
Definition clean_name (junk : list string) (path : string) : string * string :=
  let filename := basename path in
  let name := fst (splitext filename) in
  let '(year, name) :=
    match re_search year_re name with
    | Some y_match => (re_group 1 y_match, str_take (m_start y_match) name)
    | None => ("", name)
    end in
  let name := re_sub separator_re " " name in
  let name := fold_left (fun name j => re_sub (junk_re j) "" name) junk name in
  let name := strip (re_sub spaces_re " " name) in
  (name, year).

(** ** Insertion-ordered dictionaries *)

Module Dict.
Section Dict.
Context {K V : Type} `{EqDecision K}.

Fixpoint get (k : K) (d : list (K * V)) : option V :=
  match d with
  | [] => None
  | (k', v) :: d' => if decide (k = k') then Some v else get k d'
  end.

(** [d[k] = v]: an existing key keeps its position *)
Fixpoint set (k : K) (v : V) (d : list (K * V)) : list (K * V) :=
  match d with
  | [] => [(k, v)]
  | (k', v') :: d' =>
      if decide (k = k') then (k, v) :: d' else (k', v') :: set k v d'
  end.

(** [d.update(new)], and [{k: v for ...}] which is [update [] _] *)
Definition update (d new : list (K * V)) : list (K * V) :=
  fold_left (fun d kv => set kv.1 kv.2 d) new d.

(** [k in d] *)
Definition mem (k : K) (d : list (K * V)) : bool :=
  match get k d with Some _ => true | None => false end.

Definition keys (d : list (K * V)) : list K := map fst d.
Definition values (d : list (K * V)) : list V := map snd d.
End Dict.
End Dict.

(** ** Data model *)

(** a location in a heap *)
Abbreviation loc := nat (only parsing).

(** The keys a movie and a series' meta have in common.  [None] stands for
    a missing key ([d.get(key)] is then [None]). *)
Record info := {
  title : string;
  candidates : option (list string);
  year : option string;
  poster : option string;
  rating : option string;
  plot : option string;
  genre : option string }.

Record movie := { m_id : Z; m_path : string; m_info : info }.

(** a series' meta: its ['id'] is the series name *)
Record meta := { sm_id : string; sm_info : info }.

Record episode := {
  e_id : Z; e_title : string; e_season : Z; e_episode : Z;
  e_path : string; e_filename : string }.

(** The season table of a series is keyed by [int] when [scan_videos]
    builds it and by [str] once it went through JSON. *)
Inductive seasons :=
| ByInt (d : list (Z * list episode))
| ByStr (d : list (string * list episode)).

Definition season_lists (s : seasons) : list (list episode) :=
  match s with
  | ByInt d => Dict.values d
  | ByStr d => Dict.values d
  end.

(** an entry of [series_data]; [s_meta] refers to the shared meta *)
Record series := {
  s_poster : option string; s_rating : option string; s_plot : option string;
  s_year : option string; s_genre : option string;
  s_seasons : seasons; s_meta : option loc }.

(** what the metadata queue holds: a reference to a movie or to a meta *)
Inductive item_ref := MovieRef (l : loc) | MetaRef (l : loc).

Record config := {
  movie_dir : string; series_dir : string;
  omdb_api_key : string; opensubtitles_api_key : string }.

(** The module's globals.  Movies and metas are objects in a heap. *)
Record state := {
  movie_heap : list movie;
  meta_heap : list meta;
  movies_data : list loc;
  series_data : list (string * series);
  metadata_queue : list item_ref;
  is_scanning : bool;
  mid : Z;
  sid : Z;
  cfg : config }.

Definition dummy_info : info :=
  {| title := ""; candidates := None; year := None; poster := None;
     rating := None; plot := None; genre := None |}.
Definition dummy_movie : movie :=
  {| m_id := 0; m_path := ""; m_info := dummy_info |}.
Definition dummy_meta : meta := {| sm_id := ""; sm_info := dummy_info |}.

(** Dereferencing.  Every location the program holds was allocated, so the
    defaults are never read in a well-formed state ([wf_state] below). *)
Definition movie_at (h : list movie) (l : loc) : movie := default dummy_movie (h !! l).
Definition meta_at (h : list meta) (l : loc) : meta := default dummy_meta (h !! l).

Definition alloc {A} (h : list A) (v : A) : loc * list A := (length h, h ++ [v]).

(** ** JSON documents *)

#[warnings="-register-all"]
Inductive json :=
| JNull
| JStr (s : string)
| JInt (n : Z)
| JBool (b : bool)
| JList (l : list json)
| JDict (d : list (string * json)).

(** ** The world outside the process *)

Inductive encoding := Utf8 | Cp1254 | Iso8859_9 | Latin1.

(** the answer of the metadata provider, as a dictionary *)
Record omdb := {
  Response : option string; imdbRating : option string; Plot : option string;
  Genre : option string; Year : option string; Poster : option string }.

(** the outcome of [http.get(u, timeout=10).json()] *)
Inductive provider_outcome :=
| Timeout                 (** the request raises *)
| Malformed               (** the body is not a JSON dictionary *)
| Answer (res : omdb).

Record world := {
  base_dir : string;
  (** files and directories *)
  fs_exists : string -> bool;
  fs_walk : string -> list (string * list string);
  fs_realpath : string -> string;
  fs_getsize : string -> option Z;
  fs_open : string -> option (list byte);
  fs_read_text : string -> encoding -> bool -> option string;
  (** whether writing the file at this path succeeds *)
  fs_writable : string -> bool;
  (** the program's own files *)
  cache_file : option json;
  poster_files : list (string * list byte);
  (** the network and the decoder *)
  http_json : string -> provider_outcome;
  http_content : string -> option (list byte);
  popen : list string -> option (list byte);
  (** the URLs requested so far *)
  requests : list string;
  (** the interpreter's limit on the digits of [int(s)], 0 for none *)
  int_max_str_digits : nat }.

(** The program's own poster files lie over the rest of the file system. *)
Definition path_exists (w : world) (p : string) : bool :=
  match Dict.get p (poster_files w) with
  | Some _ => true
  | None => fs_exists w p
  end.
Definition read_file (w : world) (p : string) : option (list byte) :=
  match Dict.get p (poster_files w) with
  | Some b => Some b
  | None => fs_open w p
  end.

Definition CACHE_FILE (w : world) : string := join (base_dir w) "data_cache.json".
Definition POSTERS_DIR (w : world) : string :=
  join (join (base_dir w) "static") "posters".

(** * [app.py] *)

Module App.

Definition junk : list string :=
  ["1080p"; "720p"; "480p"; "BluRay"; "WEB-DL"; "DVDRip";
   "x264"; "x265"; "AAC"; "DTS"; "HDR"; "BrRip"; "WEBRip"].

Definition get_smart_title (path : string) : list string * string :=
  let '(name, year) := clean_name junk path in
  let candidates := [name] in
  let candidates :=
    if contains ":" name then candidates ++ [remove_char ":" name]
    else candidates in
  (candidates, year).


(** *** The cache file

    [json.dump] writes the movies and the series as they are reachable from
    the two globals: a shared object is written where it is referred to, a
    missing key is not written, and the [int] keys of a season table become
    strings.  The file is modelled by the document it holds. *)

Definition opt_field (k : string) (o : option string) : list (string * json) :=
  match o with Some s => [(k, JStr s)] | None => [] end.

Definition info_json (i : info) : list (string * json) :=
  [("title", JStr (title i))]
  ++ match candidates i with
     | Some c => [("candidates", JList (map JStr c))]
     | None => []
     end
  ++ opt_field "year" (year i) ++ opt_field "poster" (poster i)
  ++ opt_field "rating" (rating i) ++ opt_field "plot" (plot i)
  ++ opt_field "genre" (genre i).

Definition movie_json (m : movie) : json :=
  JDict ([("id", JInt (m_id m)); ("path", JStr (m_path m))] ++ info_json (m_info m)).

Definition meta_json (m : meta) : json :=
  JDict ([("id", JStr (sm_id m))] ++ info_json (sm_info m)).

Definition episode_json (e : episode) : json :=
  JDict [("id", JInt (e_id e)); ("title", JStr (e_title e));
         ("season", JInt (e_season e)); ("episode", JInt (e_episode e));
         ("path", JStr (e_path e)); ("filename", JStr (e_filename e))].

Definition seasons_json (s : seasons) : json :=
  JDict match s with
        | ByInt d => map (fun kv => (str_of_Z kv.1, JList (map episode_json kv.2))) d
        | ByStr d => map (fun kv => (kv.1, JList (map episode_json kv.2))) d
        end.

Definition series_json (h : list meta) (s : series) : json :=
  JDict (opt_field "poster" (s_poster s) ++ opt_field "rating" (s_rating s)
         ++ opt_field "plot" (s_plot s) ++ opt_field "year" (s_year s)
         ++ opt_field "genre" (s_genre s)
         ++ [("seasons", seasons_json (s_seasons s))]
         ++ match s_meta s with
            | Some l => [("meta", meta_json (meta_at h l))]
            | None => []
            end).

(** [{"movies": movies_data, "series": series_data}] *)
Definition snapshot_json (st : state) : json :=
  JDict [("movies", JList (map (fun l => movie_json (movie_at (movie_heap st) l))
                              (movies_data st)));
         ("series", JDict (map (fun kv => (kv.1, series_json (meta_heap st) kv.2))
                              (series_data st)))].

Definition set_cache_file (w : world) (c : option json) : world :=
  {| base_dir := base_dir w; fs_exists := fs_exists w; fs_walk := fs_walk w;
     fs_realpath := fs_realpath w; fs_getsize := fs_getsize w;
     fs_open := fs_open w; fs_read_text := fs_read_text w;
     fs_writable := fs_writable w; cache_file := c;
     poster_files := poster_files w; http_json := http_json w;
     http_content := http_content w; popen := popen w;
     requests := requests w; int_max_str_digits := int_max_str_digits w |}.

(** [save_cache]: an error while writing is swallowed *)
Definition save_cache (w : world) (st : state) : world :=
  if fs_writable w (CACHE_FILE w)
  then set_cache_file w (Some (snapshot_json st))
  else w.

(** [load_cache]: the document, or the empty catalog when the file is
    missing or cannot be parsed ([cache_file w = None]) *)
Definition load_cache (w : world) : json :=
  match cache_file w with
  | Some data => data
  | None => JDict [("movies", JList []); ("series", JDict [])]
  end.

(** *** The scanner *)

Definition exts : list string :=
  [".mp4"; ".mkv"; ".avi"; ".mov"; ".wmv"; ".flv"; ".webm"; ".m4v"].

(** [[Ss]\d+[Ee]\d+] compiled with [re.IGNORECASE] (the movie walk) *)
Definition episode_re_nocase : regex :=
  Seq (Chr (fun c => Char.eqb_nocase "S" c || Char.eqb_nocase "s" c))
  (Seq (Plus Char.is_digit)
  (Seq (Chr (fun c => Char.eqb_nocase "E" c || Char.eqb_nocase "e" c))
       (Plus Char.is_digit))).

(** [[Ss]\d+[Ee]\d+] *)
Definition episode_re : regex :=
  Seq (Chr (Char.one_of "Ss"))
  (Seq (Plus Char.is_digit) (Seq (Chr (Char.one_of "Ee")) (Plus Char.is_digit))).

(** [[Ss](\d+)], [Season\s*(\d+)], [[Ee](\d+)], [Episode\s*(\d+)] *)
Definition s_re : regex := Seq (Chr (Char.one_of "Ss")) (Group (Plus Char.is_digit)).
Definition season_re : regex :=
  lit "Season" (Seq (Star Char.is_space) (Group (Plus Char.is_digit))).
Definition e_re : regex := Seq (Chr (Char.one_of "Ee")) (Group (Plus Char.is_digit)).
Definition episode_word_re : regex :=
  lit "Episode" (Seq (Star Char.is_space) (Group (Plus Char.is_digit))).

(** [a or b] on match objects *)
Definition or_else {A} (a b : option A) : option A :=
  match a with Some x => Some x | None => b end.

(** the files of a walk, in the order the two nested loops visit them *)
Definition walk_files (w : world) (dir : string) : list (string * string) :=
  concat (map (fun rf => map (fun f => (rf.1, f)) rf.2) (fs_walk w dir)).

Definition is_video (f : string) : bool := endswith_any (lower f) exts.

(** the variables the movie walk updates *)
Record movie_walk := {
  mw_heap : list movie;
  mw_queue : list item_ref;
  mw_new : list loc;
  mw_mid : Z }.

Definition set_path (h : list movie) (l : loc) (p : string) : list movie :=
  let m := movie_at h l in
  <[l := {| m_id := m_id m; m_path := p; m_info := m_info m |}]> h.

(** the body of the inner loop of the movie walk *)
Definition scan_movie_file (existing_movies existing_movies_by_name : list (string * loc))
    (a : movie_walk) (rf : string * string) : movie_walk :=
  let '(root, f) := rf in
  if negb (is_video f) then a
  else if found (re_search episode_re_nocase f) then a
  else
    let path := join root f in
    let '(m, heap) :=
      match Dict.get path existing_movies with
      | Some l => (Some l, mw_heap a)
      | None =>
          match Dict.get f existing_movies_by_name with
          | Some l => (Some l, set_path (mw_heap a) l path)
          | None => (None, mw_heap a)
          end
      end in
    match m with
    | Some l =>
        {| mw_heap := heap;
           mw_queue :=
             if negb (truthy_opt (rating (m_info (movie_at heap l))))
             then mw_queue a ++ [MovieRef l] else mw_queue a;
           mw_new := mw_new a ++ [l];
           mw_mid := mw_mid a |}
    | None =>
        let '(c, y) := get_smart_title path in
        let '(l, heap) := alloc heap
          {| m_id := mw_mid a; m_path := path;
             m_info := {| title := hd "" c; candidates := Some c; year := Some y;
                          poster := Some "/static/placeholder.png";
                          rating := Some ""; plot := Some ""; genre := None |} |} in
        {| mw_heap := heap;
           mw_queue := mw_queue a ++ [MovieRef l];
           mw_new := mw_new a ++ [l];
           mw_mid := (mw_mid a + 1)%Z |}
    end.

(** the variables the series walk updates *)
Record series_walk := {
  sw_new : list (string * list (Z * list episode));
  sw_sid : Z }.

(** [new_series[sname][s].append(ep)] on the nested [defaultdict] *)
Definition append_episode (sname : string) (s : Z) (ep : episode)
    (d : list (string * list (Z * list episode))) : list (string * list (Z * list episode)) :=
  let seasons := default [] (Dict.get sname d) in
  let eps := default [] (Dict.get s seasons) in
  Dict.set sname (Dict.set s (eps ++ [ep]) seasons) d.

(** the body of the inner loop of the series walk; an exception ([int]
    is the one call that can raise) is caught and the file is passed over *)
Definition scan_series_file (w : world) (a : series_walk) (rf : string * string)
    : series_walk :=
  let '(root, f) := rf in
  if negb (is_video f) then a
  else
    let path := join root f in
    let sm := or_else (re_search s_re f) (re_search season_re f) in
    let em := or_else (re_search e_re f) (re_search episode_word_re f) in
    match sm, em with
    | Some sm, Some em =>
        match int_of (int_max_str_digits w) (Re.group 1 sm),
              int_of (int_max_str_digits w) (Re.group 1 em) with
        | Some s, Some e =>
            let '(c, y) := get_smart_title path in
            let sname := hd "" c in
            let sname :=
              if found (re_search episode_re sname)
              then strip (re_split_head episode_re sname) else sname in
            let ep := {| e_id := sw_sid a; e_title := sname; e_season := s;
                         e_episode := e; e_path := path; e_filename := f |} in
            {| sw_new := append_episode sname s ep (sw_new a);
               sw_sid := (sw_sid a + 1)%Z |}
        | _, _ => a
        end
    | _, _ => a
    end.

(** the variables the loop over [new_series.items()] updates *)
Record series_merge := {
  sg_heap : list meta;
  sg_queue : list item_ref;
  sg_final : list (string * series) }.

Definition merge_series (old : list (string * series)) (a : series_merge)
    (entry : string * list (Z * list episode)) : series_merge :=
  let '(name, seasons) := entry in
  let meta := match Dict.get name old with
              | Some s => s_meta s
              | None => None
              end in
  let '(l, heap, queue) :=
    match meta with
    | Some l =>
        (l, sg_heap a,
         if negb (truthy_opt (rating (sm_info (meta_at (sg_heap a) l))))
         then sg_queue a ++ [MetaRef l] else sg_queue a)
    | None =>
        let '(l, heap) := alloc (sg_heap a)
          {| sm_id := name;
             sm_info := {| title := name; candidates := Some [name];
                           year := Some "";
                           poster := Some "/static/placeholder.png";
                           rating := Some ""; plot := Some "";
                           genre := Some "" |} |} in
        (l, heap, sg_queue a ++ [MetaRef l])
    end in
  let i := sm_info (meta_at heap l) in
  {| sg_heap := heap;
     sg_queue := queue;
     sg_final := Dict.set name
       {| s_poster := Some (default "" (poster i));
          s_rating := Some (default "" (rating i));
          s_plot := Some (default "" (plot i));
          s_year := None; s_genre := None;
          s_seasons := ByInt seasons; s_meta := Some l |} (sg_final a) |}.

Definition scan_videos (w : world) (st : state) : state * world :=
  let existing_movies :=
    Dict.update [] (map (fun l => (m_path (movie_at (movie_heap st) l), l))
                        (movies_data st)) in
  let existing_movies_by_name :=
    Dict.update [] (map (fun l => (basename (m_path (movie_at (movie_heap st) l)), l))
                        (movies_data st)) in
  let mw0 := {| mw_heap := movie_heap st; mw_queue := metadata_queue st;
                mw_new := []; mw_mid := mid st |} in
  let mw :=
    if truthy (movie_dir (cfg st)) && fs_exists w (movie_dir (cfg st))
    then fold_left (scan_movie_file existing_movies existing_movies_by_name)
                   (walk_files w (movie_dir (cfg st))) mw0
    else mw0 in
  let sw0 := {| sw_new := []; sw_sid := sid st |} in
  let sw :=
    if truthy (series_dir (cfg st)) && fs_exists w (series_dir (cfg st))
    then fold_left (scan_series_file w) (walk_files w (series_dir (cfg st))) sw0
    else sw0 in
  let sg := fold_left (merge_series (series_data st)) (sw_new sw)
              {| sg_heap := meta_heap st; sg_queue := mw_queue mw; sg_final := [] |} in
  let st' :=
    {| movie_heap := mw_heap mw;
       meta_heap := sg_heap sg;
       movies_data := mw_new mw;
       series_data := Dict.update (series_data st) (sg_final sg);
       metadata_queue := sg_queue sg;
       is_scanning := false;
       mid := mw_mid mw;
       sid := sw_sid sw;
       cfg := cfg st |} in
  (st', save_cache w st').


(** *** The routes *)

Inductive body :=
| Text (s : string)
| Bytes (chunks : list (list byte))
| Document (j : json).

Record response := {
  status : Z;
  mimetype : string;
  content_range : option string;
  content : body }.

Definition plain (s : string) (code : Z) : response :=
  {| status := code; mimetype := "text/html"; content_range := None;
     content := Text s |}.

(** [find_local_subtitle] *)
Definition find_local_subtitle (w : world) (video_path : string) : option string :=
  let base := fst (splitext video_path) in
  let cands := concat (map (fun ext => [base +:+ ext; base +:+ ".en" +:+ ext;
                                        base +:+ ".tr" +:+ ext])
                           [".srt"; ".vtt"; ".sub"]) in
  find (path_exists w) cands.

(** [(\d{2}:\d{2}:\d{2}),(\d{3})] *)
Definition timestamp_re : regex :=
  Seq (Group (Seq digit (Seq digit (Seq (chr ":") (Seq digit (Seq digit
         (Seq (chr ":") (Seq digit digit))))))))
  (Seq (chr ",") (Group (Seq digit (Seq digit digit)))).

(** [srt_to_vtt]: the replacement is [\1.\2] *)
Definition srt_to_vtt (srt_content : string) : string :=
  "WEBVTT" +:+ nl +:+ nl +:+
  text (Re.sub timestamp_re
          (fun caps => default [] (caps !! 0) ++ chars "." ++ default [] (caps !! 1))
          (chars srt_content)).

(** [_validate_path] *)
Definition _validate_path (w : world) (st : state) (path : string) : bool :=
  let real_path := fs_realpath w path in
  let movie_dir := fs_realpath w (movie_dir (cfg st)) in
  let series_dir := fs_realpath w (series_dir (cfg st)) in
  if truthy movie_dir && startswith real_path movie_dir then true
  else if truthy series_dir && startswith real_path series_dir then true
  else false.

(** The entry a request's id stands for; the routes only read its path.
    The loop over the episodes leaves the inner loop at the first match and
    goes on with the next season, so the last season with a match wins. *)
Inductive entry := AMovie (m : movie) | AnEpisode (ep : episode).

Definition entry_path (t : entry) : string :=
  match t with AMovie m => m_path m | AnEpisode ep => e_path ep end.

Definition find_target (st : state) (vid : Z) : option entry :=
  match find (fun m => (m_id m =? vid)%Z)
             (map (movie_at (movie_heap st)) (movies_data st)) with
  | Some m => Some (AMovie m)
  | None =>
      fold_left
        (fun target ss =>
           match find (fun ep => (e_id ep =? vid)%Z) ss with
           | Some ep => Some (AnEpisode ep)
           | None => target
           end)
        (concat (map (fun s => season_lists (s_seasons s))
                     (Dict.values (series_data st))))
        None
  end.

(** [get_data]: copies each meta's fields into its series, then lists the
    catalog *)
Definition sync_series (h : list meta) (s : series) : series :=
  match s_meta s with
  | Some l =>
      let i := sm_info (meta_at h l) in
      {| s_poster := poster i; s_rating := rating i; s_plot := plot i;
         s_year := year i; s_genre := genre i;
         s_seasons := s_seasons s; s_meta := s_meta s |}
  | None => s
  end.

Definition set_series_data (st : state) (sd : list (string * series)) : state :=
  {| movie_heap := movie_heap st; meta_heap := meta_heap st;
     movies_data := movies_data st; series_data := sd;
     metadata_queue := metadata_queue st; is_scanning := is_scanning st;
     mid := mid st; sid := sid st; cfg := cfg st |}.

Definition get_data (st : state) : response * state :=
  let st := set_series_data st
              (map (fun kv => (kv.1, sync_series (meta_heap st) kv.2))
                   (series_data st)) in
  ({| status := 200; mimetype := "application/json"; content_range := None;
      content := Document
        (match snapshot_json st with
         | JDict d => JDict (d ++ [("scanning", JBool (is_scanning st));
                                   ("queue", JInt (Z.of_nat (length (metadata_queue st))))])
         | j => j
         end) |}, st).

(** [poster]: [[^a-zA-Z0-9_\-]] is removed from the id *)
Definition safe_char (c : ascii) : bool :=
  Char.is_ascii_alpha c || Char.is_digit c || Char.one_of "_-" c.

Definition poster_route (w : world) (vid : string) (st : state) : response * state :=
  let safe_vid := re_sub (Chr (fun c => negb (safe_char c))) "" vid in
  let p := join (POSTERS_DIR w) ("poster_" +:+ safe_vid +:+ ".jpg") in
  if path_exists w p && startswith (fs_realpath w p) (fs_realpath w (POSTERS_DIR w))
  then
    match read_file w p with
    | Some b => ({| status := 200; mimetype := "image/jpeg";
                    content_range := None; content := Bytes [b] |}, st)
    | None => (plain "Internal Server Error" 500, st)
    end
  else (plain "" 404, st).

(** the read loop of [stream()]: chunks of [n] bytes until the pipe is empty *)
Equations? stream (n : Z) (out : list byte) : list (list byte) by wf (length out) lt :=
  stream n out with inspect (read n out) := {
    | exist _ [] _ => [];
    | exist _ (b :: data) H => (b :: data) :: stream n (drop (length (b :: data)) out) }.
Proof.
  destruct out as [|x out]; [discriminate|].
  rewrite length_drop. simpl. lia.
Qed.

(** the read loop of [generate()] on the part of the file after [seek] *)
Equations? generate (chunk : Z) (f : list byte) (rem : Z) : list (list byte)
    by wf (Z.to_nat rem) lt :=
  generate chunk f rem with decide (0 < rem)%Z := {
    | right _ => [];
    | left _ with inspect (read (Z.min chunk rem) f) := {
      | exist _ [] _ => [];
      | exist _ (b :: data) H =>
          (b :: data) :: generate chunk (drop (length (b :: data)) f)
                           (rem - Z.of_nat (length (b :: data))) } }.
Proof. simpl. lia. Qed.

(** [(\d+)-(\d* )]: digits, a dash, and digits or nothing *)
Definition range_re : regex :=
  Seq (Group (Plus Char.is_digit)) (Seq (chr "-") (Group (Star Char.is_digit))).

Definition chunk : Z := 5 * 1024 * 1024.

Definition ffmpeg_cmd (path : string) : list string :=
  ["ffmpeg"; "-i"; path; "-c:v"; "libx264"; "-preset"; "ultrafast"; "-c:a"; "aac";
   "-b:a"; "128k"; "-f"; "mp4"; "-movflags"; "frag_keyframe+empty_moov"; "pipe:1"].

(** [start, length] as [play] reads them from the Range header; [None]
    when [int] raises *)
Definition parse_range (w : world) (range_header : option string) (size : Z)
    : option (Z * Z) :=
  match range_header with
  | Some h =>
      if truthy h then
        match re_search range_re h with
        | Some m =>
            start ← int_of (int_max_str_digits w) (Re.group 1 m);
            if truthy (re_group 2 m)
            then last ← int_of (int_max_str_digits w) (Re.group 2 m);
                 Some (start, last - start + 1)%Z
            else Some (start, size - start)%Z
        | None => Some (0, size)%Z
        end
      else Some (0, size)%Z
  | None => Some (0, size)%Z
  end.

(** the part of [play] after the transcoding branch; an exception that
    nothing catches becomes the answer 500 *)
Definition serve_range (w : world) (path : string) (range_header : option string)
    : response :=
  match fs_getsize w path with
  | None => plain "Error" 404
  | Some size =>
      match parse_range w range_header size with
      | None => plain "Internal Server Error" 500
      | Some (start, length) =>
          {| status := 206; mimetype := "video/mp4";
             content_range :=
               Some ("bytes " +:+ str_of_Z start +:+ "-"
                     +:+ str_of_Z (start + length - 1) +:+ "/" +:+ str_of_Z size);
             content :=
               Bytes match fs_open w path with
                     | Some data => generate chunk (drop (Z.to_nat start) data) length
                     | None => []
                     end |}
      end
  end.

Definition play (w : world) (vid : Z) (range_header : option string) (st : state)
    : response * state :=
  match find_target st vid with
  | None => (plain "Not Found" 404, st)
  | Some target =>
      let path := entry_path target in
      if negb (_validate_path w st path) then (plain "Forbidden" 403, st)
      else if negb (path_exists w path) then (plain "File Not Found" 404, st)
      else
        let ext := lower (snd (splitext path)) in
        let transcoded :=
          if bool_decide (ext ∈ [".avi"; ".wmv"; ".flv"; ".divx"]) then
            match popen w (ffmpeg_cmd path) with
            | Some out =>
                Some {| status := 200; mimetype := "video/mp4";
                        content_range := None;
                        content := Bytes (stream (1024 * 1024) out) |}
            | None => None
            end
          else None in
        match transcoded with
        | Some r => (r, st)
        | None => (serve_range w path range_header, st)
        end
  end.

(** [sub]: the first encoding that decodes the file gives the text *)
Definition encodings : list encoding := [Utf8; Cp1254; Iso8859_9; Latin1].

Definition read_subtitle (w : world) (local_sub : string) : option string :=
  let content :=
    fold_left (fun content enc =>
                 match content with
                 | Some c => Some c
                 | None => fs_read_text w local_sub enc true
                 end) encodings None in
  if truthy_opt content then content
  else or_else (fs_read_text w local_sub Utf8 false) content.

Definition sub (w : world) (vid : Z) (st : state) : response * state :=
  let not_found := (plain "" 404, st) in
  match find_target st vid with
  | Some target =>
      match find_local_subtitle w (entry_path target) with
      | Some local_sub =>
          let content := read_subtitle w local_sub in
          if truthy_opt content then
            let c := default "" content in
            ({| status := 200; mimetype := "text/vtt"; content_range := None;
                content := Text (if endswith local_sub ".vtt" then c
                                 else srt_to_vtt c) |}, st)
          else not_found
      | None => not_found
      end
  | None => not_found
  end.


(** *** The metadata worker *)

Definition item_info (st : state) (item : item_ref) : info :=
  match item with
  | MovieRef l => m_info (movie_at (movie_heap st) l)
  | MetaRef l => sm_info (meta_at (meta_heap st) l)
  end.

(** [item['id']] in an f-string *)
Definition item_id_text (st : state) (item : item_ref) : string :=
  match item with
  | MovieRef l => str_of_Z (m_id (movie_at (movie_heap st) l))
  | MetaRef l => sm_id (meta_at (meta_heap st) l)
  end.

(** assignments to the keys of [item] *)
Definition set_item_info (st : state) (item : item_ref) (i : info) : state :=
  match item with
  | MovieRef l =>
      let m := movie_at (movie_heap st) l in
      {| movie_heap := <[l := {| m_id := m_id m; m_path := m_path m; m_info := i |}]>
                         (movie_heap st);
         meta_heap := meta_heap st; movies_data := movies_data st;
         series_data := series_data st; metadata_queue := metadata_queue st;
         is_scanning := is_scanning st; mid := mid st; sid := sid st; cfg := cfg st |}
  | MetaRef l =>
      let m := meta_at (meta_heap st) l in
      {| movie_heap := movie_heap st;
         meta_heap := <[l := {| sm_id := sm_id m; sm_info := i |}]> (meta_heap st);
         movies_data := movies_data st;
         series_data := series_data st; metadata_queue := metadata_queue st;
         is_scanning := is_scanning st; mid := mid st; sid := sid st; cfg := cfg st |}
  end.

Definition set_queue (st : state) (q : list item_ref) : state :=
  {| movie_heap := movie_heap st; meta_heap := meta_heap st;
     movies_data := movies_data st; series_data := series_data st;
     metadata_queue := q; is_scanning := is_scanning st;
     mid := mid st; sid := sid st; cfg := cfg st |}.

Definition log_request (w : world) (u : string) : world :=
  {| base_dir := base_dir w; fs_exists := fs_exists w; fs_walk := fs_walk w;
     fs_realpath := fs_realpath w; fs_getsize := fs_getsize w;
     fs_open := fs_open w; fs_read_text := fs_read_text w;
     fs_writable := fs_writable w; cache_file := cache_file w;
     poster_files := poster_files w; http_json := http_json w;
     http_content := http_content w; popen := popen w;
     requests := requests w ++ [u];
     int_max_str_digits := int_max_str_digits w |}.

Definition write_poster (w : world) (p : string) (data : list byte) : world :=
  {| base_dir := base_dir w; fs_exists := fs_exists w; fs_walk := fs_walk w;
     fs_realpath := fs_realpath w; fs_getsize := fs_getsize w;
     fs_open := fs_open w; fs_read_text := fs_read_text w;
     fs_writable := fs_writable w; cache_file := cache_file w;
     poster_files := Dict.set p data (poster_files w); http_json := http_json w;
     http_content := http_content w; popen := popen w;
     requests := requests w; int_max_str_digits := int_max_str_digits w |}.

(** the URL of the provider request *)
Definition omdb_url (apikey title year : string) : string :=
  let u := "http://www.omdbapi.com/?apikey=" +:+ apikey +:+ "&t=" +:+ title in
  if truthy year then u +:+ "&y=" +:+ year else u.

(** the provider's fields written into the item *)
Definition enriched (i : info) (res : omdb) : info :=
  {| title := title i; candidates := candidates i;
     year := Some (default (default "" (year i)) (Year res));
     poster := poster i;
     rating := Some (default "N/A" (imdbRating res));
     plot := Some (default "" (Plot res));
     genre := Some (default "" (Genre res)) |}.

Definition with_poster (i : info) (p : string) : info :=
  {| title := title i; candidates := candidates i; year := year i;
     poster := Some p; rating := rating i; plot := plot i; genre := genre i |}.

(** the inner [try] of the worker: download the poster, write it, and only
    then point the item at it; any exception leaves the item as it is *)
Definition fetch_poster (w : world) (st : state) (item : item_ref)
    (poster_url : string) : world * state :=
  let w := log_request w poster_url in
  match http_content w poster_url with
  | Some img_data =>
      let local_name := "poster_" +:+ item_id_text st item +:+ ".jpg" in
      let local_path := join (POSTERS_DIR w) local_name in
      if fs_writable w local_path then
        (write_poster w local_path img_data,
         set_item_info st item
           (with_poster (item_info st item) ("/get_poster/" +:+ item_id_text st item)))
      else (w, st)
  | None => (w, st)
  end.

(** the body of the worker's loop for one item taken from the queue.  An
    item has no ['seasons'] key, so the branch that tests for it is not
    taken. *)
Definition process_item (w : world) (st : state) (item : item_ref) : world * state :=
  let apikey := omdb_api_key (cfg st) in
  if negb (truthy apikey) then (w, st)
  else
    let title := title (item_info st item) in
    let year := default "" (year (item_info st item)) in
    let u := omdb_url apikey title year in
    let w := log_request w u in
    match http_json w u with
    | Timeout | Malformed => (w, st)
    | Answer res =>
        if bool_decide (Response res = Some "True") then
          let st := set_item_info st item (enriched (item_info st item) res) in
          let '(w, st) :=
            match Poster res with
            | Some poster_url =>
                if truthy poster_url && negb (String.eqb poster_url "N/A")
                then fetch_poster w st item poster_url
                else (w, st)
            | None => (w, st)
            end in
          (save_cache w st, st)
        else (w, st)
    end.

(** [metadata_worker]: items are taken from the head of the queue until it
    is empty (where [get] blocks) *)
Fixpoint drain (items : list item_ref) (ws : world * state) : world * state :=
  match items with
  | [] => ws
  | item :: rest => drain rest (process_item ws.1 (set_queue ws.2 rest) item)
  end.

Definition metadata_worker (w : world) (st : state) : world * state :=
  drain (metadata_queue st) (w, st).

(** *** Start-up: the globals are read from the cache file *)

Definition as_str (j : json) : option string :=
  match j with JStr s => Some s | _ => None end.
Definition as_int (j : json) : option Z :=
  match j with JInt n => Some n | _ => None end.

(** a key that holds a string when it is there *)
Definition opt_str (k : string) (d : list (string * json)) : option (option string) :=
  match Dict.get k d with
  | None | Some JNull => Some None
  | Some (JStr s) => Some (Some s)
  | Some _ => None
  end.

Definition info_of (d : list (string * json)) : option info :=
  t ← Dict.get "title" d ≫= as_str;
  c ← match Dict.get "candidates" d with
      | None => Some None
      | Some (JList l) => Some <$> mapM as_str l
      | Some _ => None
      end;
  y ← opt_str "year" d;
  po ← opt_str "poster" d;
  r ← opt_str "rating" d;
  pl ← opt_str "plot" d;
  g ← opt_str "genre" d;
  Some {| title := t; candidates := c; year := y; poster := po; rating := r;
          plot := pl; genre := g |}.

Definition movie_of (j : json) : option movie :=
  match j with
  | JDict d =>
      n ← Dict.get "id" d ≫= as_int;
      p ← Dict.get "path" d ≫= as_str;
      i ← info_of d;
      Some {| m_id := n; m_path := p; m_info := i |}
  | _ => None
  end.

Definition meta_of (j : json) : option meta :=
  match j with
  | JDict d =>
      n ← Dict.get "id" d ≫= as_str;
      i ← info_of d;
      Some {| sm_id := n; sm_info := i |}
  | _ => None
  end.

Definition episode_of (j : json) : option episode :=
  match j with
  | JDict d =>
      n ← Dict.get "id" d ≫= as_int;
      t ← Dict.get "title" d ≫= as_str;
      s ← Dict.get "season" d ≫= as_int;
      e ← Dict.get "episode" d ≫= as_int;
      p ← Dict.get "path" d ≫= as_str;
      f ← Dict.get "filename" d ≫= as_str;
      Some {| e_id := n; e_title := t; e_season := s; e_episode := e;
              e_path := p; e_filename := f |}
  | _ => None
  end.

Definition seasons_of (j : json) : option seasons :=
  match j with
  | JDict d =>
      ByStr <$> mapM (fun kv =>
                        match kv.2 with
                        | JList l => pair kv.1 <$> mapM episode_of l
                        | _ => None
                        end) d
  | _ => None
  end.

(** a series as the file has it: its meta is a dictionary of its own *)
Definition series_of (j : json) : option (series * option meta) :=
  match j with
  | JDict d =>
      po ← opt_str "poster" d;
      r ← opt_str "rating" d;
      pl ← opt_str "plot" d;
      y ← opt_str "year" d;
      g ← opt_str "genre" d;
      ss ← match Dict.get "seasons" d with
           | Some j => seasons_of j
           | None => Some (ByStr [])
           end;
      m ← match Dict.get "meta" d with
          | Some j => Some <$> meta_of j
          | None => Some None
          end;
      Some ({| s_poster := po; s_rating := r; s_plot := pl; s_year := y;
               s_genre := g; s_seasons := ss; s_meta := None |}, m)
  | _ => None
  end.

(** every meta read from the file becomes an object of its own *)
Definition place_meta (acc : list meta * list (string * series))
    (e : string * (series * option meta)) : list meta * list (string * series) :=
  let '(name, (s, m)) := e in
  match m with
  | Some m =>
      let '(l, h) := alloc acc.1 m in
      (h, acc.2 ++ [(name,
         {| s_poster := s_poster s; s_rating := s_rating s; s_plot := s_plot s;
            s_year := s_year s; s_genre := s_genre s; s_seasons := s_seasons s;
            s_meta := Some l |})])
  | None => (acc.1, acc.2 ++ [(name, s)])
  end.

Definition all_episodes (sd : list (string * series)) : list episode :=
  concat (concat (map (fun s => season_lists (s_seasons s)) (Dict.values sd))).

(** The module-level code after [load_cache]: the two globals and the id
    counters.  [None] when the document is not a catalog. *)
Definition startup (w : world) (c : config) : option state :=
  let cached_data := load_cache w in
  match cached_data with
  | JDict top =>
      movies ← match Dict.get "movies" top with
               | Some (JList l) => mapM movie_of l
               | None => Some []
               | Some _ => None
               end;
      series ← match Dict.get "series" top with
               | Some (JDict d) =>
                   mapM (fun kv => pair kv.1 <$> series_of kv.2) d
               | None => Some []
               | Some _ => None
               end;
      let '(metas, series_data) := fold_left place_meta series ([], []) in
      Some {| movie_heap := movies;
              meta_heap := metas;
              movies_data := seq 0 (length movies);
              series_data := series_data;
              metadata_queue := [];
              is_scanning := false;
              mid := match movies with
                     | [] => 1
                     | m :: ms => fold_left Z.max (map m_id ms) (m_id m) + 1
                     end%Z;
              sid := fold_left (fun sid ep => if (sid <=? e_id ep)%Z
                                              then (e_id ep + 1)%Z else sid)
                               (all_episodes series_data) 1%Z;
              cfg := c |}
  | _ => None
  end.

End App.

(** * [backend.py]

    The scanner thread of the desktop front end.  Its fields are the ones
    of [state]: [cache.movies] and [cache.series] are [movies_data] and
    [series_data], [_mid] and [_sid] the two counters; [base_dir] is its
    data directory. *)

Module Backend.

Definition CACHE_FILE (w : world) : string := join (base_dir w) "data_cache.json".
Definition POSTERS_DIR (w : world) : string := join (base_dir w) "posters".

Definition VIDEO_EXTENSIONS : list string :=
  [".mp4"; ".mkv"; ".avi"; ".mov"; ".wmv"; ".flv"; ".webm"; ".m4v"].

Definition junk : list string :=
  ["1080p"; "720p"; "480p"; "BluRay"; "WEB-DL"; "DVDRip";
   "x264"; "x265"; "AAC"; "DTS"; "HDR"; "BrRip"; "WEBRip";
   "REMUX"; "HEVC"; "H264"; "H265"; "IMAX"; "YIFY"; "RARBG"].

(** [get_smart_title]: one title and the year *)
Definition get_smart_title (path : string) : string * string :=
  clean_name junk path.

(** [Cache.save] and [Cache.load] *)
Definition save (w : world) (st : state) : world :=
  if fs_writable w (CACHE_FILE w)
  then App.set_cache_file w (Some (App.snapshot_json st))
  else w.

Definition is_video (f : string) : bool := endswith_any (lower f) VIDEO_EXTENSIONS.

(** the body of the inner loop of [_scan_movies] *)
Definition scan_movie_file (existing : list (string * loc))
    (a : App.movie_walk) (rf : string * string) : App.movie_walk :=
  let '(root, f) := rf in
  if negb (is_video f) then a
  else if found (re_search App.episode_re f) then a
  else
    let path := join root f in
    match Dict.get path existing with
    | Some l =>
        {| App.mw_heap := App.mw_heap a;
           App.mw_queue :=
             if negb (truthy_opt (rating (m_info (movie_at (App.mw_heap a) l))))
             then App.mw_queue a ++ [MovieRef l] else App.mw_queue a;
           App.mw_new := App.mw_new a ++ [l];
           App.mw_mid := App.mw_mid a |}
    | None =>
        let '(title, year) := get_smart_title path in
        let '(l, heap) := alloc (App.mw_heap a)
          {| m_id := App.mw_mid a; m_path := path;
             m_info := {| title := title; candidates := None; year := Some year;
                          poster := Some ""; rating := Some ""; plot := Some "";
                          genre := Some "" |} |} in
        {| App.mw_heap := heap;
           App.mw_queue := App.mw_queue a ++ [MovieRef l];
           App.mw_new := App.mw_new a ++ [l];
           App.mw_mid := (App.mw_mid a + 1)%Z |}
    end.

Definition set_movies (st : state) (mw : App.movie_walk) : state :=
  {| movie_heap := App.mw_heap mw; meta_heap := meta_heap st;
     movies_data := App.mw_new mw; series_data := series_data st;
     metadata_queue := App.mw_queue mw; is_scanning := is_scanning st;
     mid := App.mw_mid mw; sid := sid st; cfg := cfg st |}.

(** [Scanner._scan_movies]: nothing changes when the directory is missing *)
Definition _scan_movies (w : world) (st : state) : state :=
  let movie_dir := movie_dir (cfg st) in
  if negb (truthy movie_dir) || negb (fs_exists w movie_dir) then st
  else
    let existing :=
      Dict.update [] (map (fun l => (m_path (movie_at (movie_heap st) l), l))
                          (movies_data st)) in
    set_movies st
      (fold_left (scan_movie_file existing) (App.walk_files w movie_dir)
         {| App.mw_heap := movie_heap st; App.mw_queue := metadata_queue st;
            App.mw_new := []; App.mw_mid := mid st |}).

(** the body of the inner loop of [_scan_series] *)
Definition scan_series_file (w : world) (a : App.series_walk) (rf : string * string)
    : App.series_walk :=
  let '(root, f) := rf in
  if negb (is_video f) then a
  else
    let path := join root f in
    let sm := App.or_else (re_search App.s_re f) (re_search App.season_re f) in
    let em := App.or_else (re_search App.e_re f) (re_search App.episode_word_re f) in
    match sm, em with
    | Some sm, Some em =>
        match int_of (int_max_str_digits w) (Re.group 1 sm),
              int_of (int_max_str_digits w) (Re.group 1 em) with
        | Some s, Some e =>
            let '(title, year) := get_smart_title path in
            let sname := title in
            let sname :=
              if found (re_search App.episode_re sname)
              then strip (re_split_head App.episode_re sname) else sname in
            let ep := {| e_id := App.sw_sid a; e_title := sname; e_season := s;
                         e_episode := e; e_path := path; e_filename := f |} in
            {| App.sw_new := App.append_episode sname s ep (App.sw_new a);
               App.sw_sid := (App.sw_sid a + 1)%Z |}
        | _, _ => a
        end
    | _, _ => a
    end.

(** the variables the loop over [new_series.items()] updates; the series
    table is written in place *)
Record series_merge := {
  sg_heap : list meta;
  sg_queue : list item_ref;
  sg_series : list (string * series) }.

Definition merge_series (a : series_merge)
    (entry : string * list (Z * list episode)) : series_merge :=
  let '(name, seasons) := entry in
  let meta := match Dict.get name (sg_series a) with
              | Some s => s_meta s
              | None => None
              end in
  let '(l, heap, queue) :=
    match meta with
    | None =>
        let '(l, heap) := alloc (sg_heap a)
          {| sm_id := name;
             sm_info := {| title := name; candidates := None; year := Some "";
                           poster := Some ""; rating := Some ""; plot := Some "";
                           genre := Some "" |} |} in
        (l, heap, sg_queue a ++ [MetaRef l])
    | Some l =>
        (l, sg_heap a,
         if negb (truthy_opt (rating (sm_info (meta_at (sg_heap a) l))))
         then sg_queue a ++ [MetaRef l] else sg_queue a)
    end in
  let i := sm_info (meta_at heap l) in
  {| sg_heap := heap;
     sg_queue := queue;
     sg_series := Dict.set name
       {| s_poster := Some (default "" (poster i));
          s_rating := Some (default "" (rating i));
          s_plot := Some (default "" (plot i));
          s_year := Some (default "" (year i));
          s_genre := Some (default "" (genre i));
          s_seasons := ByStr (map (fun kv => (str_of_Z kv.1, kv.2)) seasons);
          s_meta := Some l |} (sg_series a) |}.

(** [Scanner._scan_series] *)
Definition _scan_series (w : world) (st : state) : state :=
  let series_dir := series_dir (cfg st) in
  if negb (truthy series_dir) || negb (fs_exists w series_dir) then st
  else
    let sw := fold_left (scan_series_file w) (App.walk_files w series_dir)
                {| App.sw_new := []; App.sw_sid := sid st |} in
    let sg := fold_left merge_series (App.sw_new sw)
                {| sg_heap := meta_heap st; sg_queue := metadata_queue st;
                   sg_series := series_data st |} in
    {| movie_heap := movie_heap st; meta_heap := sg_heap sg;
       movies_data := movies_data st; series_data := sg_series sg;
       metadata_queue := sg_queue sg; is_scanning := is_scanning st;
       mid := mid st; sid := App.sw_sid sw; cfg := cfg st |}.

(** [_download_poster]: every character of the id outside
    [[a-zA-Z0-9_\-]] becomes an underscore *)
Definition _download_poster (w : world) (st : state) (item : item_ref)
    (url : string) : world * state :=
  let w := App.log_request w url in
  match http_content w url with
  | Some img_data =>
      let safe_id := re_sub (Chr (fun c => negb (App.safe_char c))) "_"
                       (App.item_id_text st item) in
      let local_path := join (POSTERS_DIR w) ("poster_" +:+ safe_id +:+ ".jpg") in
      if fs_writable w local_path then
        (App.write_poster w local_path img_data,
         App.set_item_info st item (App.with_poster (App.item_info st item) local_path))
      else (w, st)
  | None => (w, st)
  end.

(** a series whose name is the item's id takes the item as its meta *)
Definition adopt_meta (st : state) (item : item_ref) : state :=
  match item with
  | MovieRef _ => st
  | MetaRef l =>
      let name := sm_id (meta_at (meta_heap st) l) in
      match Dict.get name (series_data st) with
      | Some s =>
          let i := App.item_info st item in
          App.set_series_data st
            (Dict.set name
               {| s_poster := Some (default "" (poster i));
                  s_rating := Some (default "" (rating i));
                  s_plot := s_plot s; s_year := s_year s; s_genre := s_genre s;
                  s_seasons := s_seasons s; s_meta := Some l |}
               (series_data st))
      | None => st
      end
  end.

(** the body of the loop of [_fetch_metadata] for one item *)
Definition fetch_item (w : world) (st : state) (item : item_ref) : world * state :=
  let apikey := omdb_api_key (cfg st) in
  let title := title (App.item_info st item) in
  let year := default "" (year (App.item_info st item)) in
  let url := App.omdb_url apikey title year in
  let w := App.log_request w url in
  match http_json w url with
  | Timeout | Malformed => (w, st)
  | Answer res =>
      if bool_decide (Response res = Some "True") then
        let st := App.set_item_info st item (App.enriched (App.item_info st item) res) in
        let '(w, st) :=
          match Poster res with
          | Some poster_url =>
              if truthy poster_url && negb (String.eqb poster_url "N/A")
              then _download_poster w st item poster_url
              else (w, st)
          | None => (w, st)
          end in
        let st := adopt_meta st item in
        (save w st, st)
      else (w, st)
  end.

Fixpoint drain (items : list item_ref) (ws : world * state) : world * state :=
  match items with
  | [] => ws
  | item :: rest => drain rest (fetch_item ws.1 (App.set_queue ws.2 rest) item)
  end.

(** [Scanner._fetch_metadata] *)
Definition _fetch_metadata (w : world) (st : state) : world * state :=
  if negb (truthy (omdb_api_key (cfg st))) then (w, st)
  else drain (metadata_queue st) (w, st).

Definition set_scanning (st : state) (b : bool) : state :=
  {| movie_heap := movie_heap st; meta_heap := meta_heap st;
     movies_data := movies_data st; series_data := series_data st;
     metadata_queue := metadata_queue st; is_scanning := b;
     mid := mid st; sid := sid st; cfg := cfg st |}.

(** [Scanner.run] *)
Definition run (w : world) (st : state) : world * state :=
  let st := _scan_series w (_scan_movies w (set_scanning st true)) in
  let w := save w st in
  _fetch_metadata w (set_scanning st false).

End Backend.


(** * Notions of the specification *)

Import App.

(** [p] lies strictly below the directory [root] (both resolved) *)
Definition strict_descendant (root p : string) : bool :=
  let root := if endswith root "/" then root else root +:+ "/" in
  startswith p root && (String.length root <? String.length p)%nat.

(** the extensions [play] hands to the decoder *)
Definition transcoded_exts : list string := [".avi"; ".wmv"; ".flv"; ".divx"].

(** [play] serves the file itself: the extension is not one of the
    decoder's, or the decoder could not be started *)
Definition served_from_file (w : world) (path : string) : Prop :=
  lower (snd (splitext path)) ∉ transcoded_exts
  \/ popen w (ffmpeg_cmd path) = None.

(** What a catalog holds, whatever the heap locations and the type of
    the season keys: the movies, and for every series its fields, its
    seasons (by the text of their key) with their episodes, and its meta. *)
Definition seasons_view (s : seasons) : list (string * list episode) :=
  match s with
  | ByInt d => map (fun kv => (str_of_Z kv.1, kv.2)) d
  | ByStr d => d
  end.

Record series_view := {
  v_poster : option string; v_rating : option string; v_plot : option string;
  v_year : option string; v_genre : option string;
  v_seasons : list (string * list episode);
  v_meta : option meta }.

Definition view_series (h : list meta) (s : series) : series_view :=
  {| v_poster := s_poster s; v_rating := s_rating s; v_plot := s_plot s;
     v_year := s_year s; v_genre := s_genre s;
     v_seasons := seasons_view (s_seasons s);
     v_meta := meta_at h <$> s_meta s |}.

Definition catalog_view (st : state) : list movie * list (string * series_view) :=
  (map (movie_at (movie_heap st)) (movies_data st),
   map (fun kv => (kv.1, view_series (meta_heap st) kv.2)) (series_data st)).

(** a series as [series_of] reads it *)
Definition read_back (h : list meta) (s : series) : series * option meta :=
  ({| s_poster := s_poster s; s_rating := s_rating s; s_plot := s_plot s;
      s_year := s_year s; s_genre := s_genre s;
      s_seasons := ByStr (seasons_view (s_seasons s)); s_meta := None |},
   meta_at h <$> s_meta s).

(** the metas of these series are in the heap [h] *)
Definition metas_in (h : list meta) (sd : list (string * series)) : Prop :=
  Forall (fun kv => forall l, s_meta kv.2 = Some l -> l < length h) sd.

(** the file names the movie walk takes for movies *)
Definition movie_file (f : string) : bool :=
  is_video f && negb (found (re_search episode_re_nocase f)).

(** the paths of the movie files a scan discovers, in the order of the walk *)
Definition discovered_movies (w : world) (st : state) : list string :=
  if truthy (movie_dir (cfg st)) && fs_exists w (movie_dir (cfg st))
  then map (fun rf => join rf.1 rf.2)
           (List.filter (fun rf => movie_file rf.2) (walk_files w (movie_dir (cfg st))))
  else [].

(** the series a scan discovers, with their seasons *)
Definition discovered_series (w : world) (st : state)
    : list (string * list (Z * list episode)) :=
  sw_new (if truthy (series_dir (cfg st)) && fs_exists w (series_dir (cfg st))
          then fold_left (scan_series_file w) (walk_files w (series_dir (cfg st)))
                 {| sw_new := []; sw_sid := sid st |}
          else {| sw_new := []; sw_sid := sid st |}).

Definition episodes_of (seasons : list (Z * list episode)) : list episode :=
  concat (Dict.values seasons).

(** the path of the movie at [l], and the paths of the catalog's movies *)
Definition path_at (h : list movie) (l : loc) : string := m_path (movie_at h l).
Definition catalog_paths (st : state) : list string :=
  map (path_at (movie_heap st)) (movies_data st).

(** every movie of the catalog is an object of the heap *)
Definition movies_allocated (st : state) : Prop :=
  Forall (fun l => l < length (movie_heap st)) (movies_data st).

(** the rating of a queued item is missing or empty *)
Definition unrated (st : state) (item : item_ref) : Prop :=
  truthy_opt (rating (item_info st item)) = false.

(** the paths of the movie files among [files] *)
Definition movie_paths (files : list (string * string)) : list string :=
  map (fun rf => join rf.1 rf.2) (List.filter (fun rf => movie_file rf.2) files).

(** what holds after the movie walk went through the files [pre], from the
    heap [h0] and the queue [q0] *)
Record walk_inv (h0 : list movie) (q0 : list item_ref)
    (pre : list (string * string)) (a : movie_walk) : Prop := {
  wi_length : length h0 <= length (mw_heap a);
  wi_same : forall l, l < length h0 ->
    m_id (movie_at (mw_heap a) l) = m_id (movie_at h0 l)
    /\ m_info (movie_at (mw_heap a) l) = m_info (movie_at h0 l);
  wi_paths : forall l, l < length (mw_heap a) ->
    (l < length h0 /\ path_at (mw_heap a) l = path_at h0 l)
    \/ path_at (mw_heap a) l ∈ movie_paths pre;
  wi_count : length (mw_new a) = length (movie_paths pre);
  wi_new : Forall (fun l => l < length (mw_heap a)
                            /\ path_at (mw_heap a) l ∈ movie_paths pre) (mw_new a);
  wi_queue : exists added, mw_queue a = q0 ++ added
    /\ Forall (fun r => exists l, r = MovieRef l
                 /\ truthy_opt (rating (m_info (movie_at (mw_heap a) l))) = false)
         added }.

(** what holds during the series walk that started with the counter [sid0] *)
Record series_inv (sid0 : Z) (a : series_walk) : Prop := {
  si_sid : (sid0 <= sw_sid a)%Z;
  si_keys : NoDup (Dict.keys (sw_new a));
  si_ids : forall name seasons ep,
    (name, seasons) ∈ sw_new a -> ep ∈ episodes_of seasons ->
    (sid0 <= e_id ep < sw_sid a)%Z }.

(** what holds after the loop went through the discovered series [pre] *)
Record merge_inv (h0 : list meta) (q0 : list item_ref)
    (pre : list (string * list (Z * list episode))) (a : series_merge) : Prop := {
  mi_length : length h0 <= length (sg_heap a);
  mi_same : forall l, l < length h0 -> meta_at (sg_heap a) l = meta_at h0 l;
  mi_keys : NoDup (Dict.keys (sg_final a));
  mi_final : forall name,
    s_seasons <$> Dict.get name (sg_final a) = ByInt <$> Dict.get name (reverse pre);
  mi_queue : exists added, sg_queue a = q0 ++ added
    /\ Forall (fun r => exists l, r = MetaRef l
                 /\ truthy_opt (rating (sm_info (meta_at (sg_heap a) l))) = false)
         added }.

(** the paths and ids of the episodes of a catalog *)
Definition episode_ids (st : state) : list (string * Z) :=
  map (fun ep => (e_path ep, e_id ep)) (all_episodes (series_data st)).

(** a digit string [int] accepts under the limit [limit] *)
Definition within (limit : nat) (l : list ascii) : Prop :=
  limit = 0 \/ length l <= limit.

(** a non-empty run of digits *)
Definition digits (l : list ascii) : Prop :=
  l <> [] /\ Forall (fun c => Char.is_digit c = true) l.

(** The file name [f] has a token [S<digits>E<digits>]: it is [pre], the
    letter [cs], the digits [ds], the letter [ce], the digits [de], [post]. *)
Record token_in (f : string) (pre : list ascii) (cs : ascii) (ds : list ascii)
    (ce : ascii) (de post : list ascii) : Prop := {
  tk_split : chars f = pre ++ cs :: ds ++ ce :: de ++ post;
  tk_s : cs = "S"%char \/ cs = "s"%char;
  tk_e : ce = "E"%char \/ ce = "e"%char;
  tk_ds : digits ds;
  tk_de : digits de }.

(** no character of [l] in the class [p] is directly followed by a
    character in the class [q]; [next] is the character after [l] *)
Fixpoint no_pair (p q : ascii -> bool) (l : list ascii) (next : option ascii) : bool :=
  match l with
  | [] => true
  | c :: l' =>
      negb (p c && from_option q false (head (l' ++ option_list next)))
      && no_pair p q l' next
  end.

(** the character before the rest of the subject once [l] was read *)
Definition last_or (prev : option ascii) (l : list ascii) : option ascii :=
  match last l with Some c => Some c | None => prev end.

(** the next character is not in the class [p] *)
Definition stops (p : ascii -> bool) (rest : list ascii) : Prop :=
  match rest with [] => True | c :: _ => p c = false end.

(** * Example worlds and states *)

Module Ex.

(** A world with the given directory listings, files, provider answers and
    images; paths resolve to themselves and the empty path to the working
    directory. *)
Definition a_world (walks : list (string * list (string * list string)))
    (files : list (string * list byte))
    (provider : list (string * provider_outcome))
    (images : list (string * list byte)) : world :=
  {| base_dir := "/app";
     fs_exists := fun p => Dict.mem p walks || Dict.mem p files;
     fs_walk := fun d => default [] (Dict.get d walks);
     fs_realpath := fun p => if String.eqb p "" then "/app" else p;
     fs_getsize := fun p => (fun b => Z.of_nat (length b)) <$> Dict.get p files;
     fs_open := fun p => Dict.get p files;
     fs_read_text := fun _ _ _ => None;
     fs_writable := fun _ => true;
     cache_file := None;
     poster_files := [];
     http_json := fun u => default Timeout (Dict.get u provider);
     http_content := fun u => Dict.get u images;
     popen := fun _ => None;
     requests := [];
     int_max_str_digits := 4300 |}.

Definition a_config (movies series : string) : config :=
  {| movie_dir := movies; series_dir := series; omdb_api_key := "key";
     opensubtitles_api_key := "" |}.

Definition empty_state (c : config) : state :=
  {| movie_heap := []; meta_heap := []; movies_data := []; series_data := [];
     metadata_queue := []; is_scanning := false; mid := 1; sid := 1; cfg := c |}.

Definition plain_info (t : string) : info :=
  {| title := t; candidates := Some [t]; year := Some "";
     poster := Some "/static/placeholder.png"; rating := Some "";
     plot := Some ""; genre := None |}.

Definition secret : list byte := [x73; x65; x63; x72; x65; x74].

(** The movie root is [/movies]; the catalog has an entry whose file lies in
    the sibling directory [/movies2]. *)
Definition sibling_world : world :=
  a_world [("/movies", [("/movies", [])])] [("/movies2/secret.mp4", secret)] [] [].
Definition sibling_state : state :=
  {| movie_heap := [{| m_id := 7; m_path := "/movies2/secret.mp4";
                       m_info := plain_info "secret" |}];
     meta_heap := []; movies_data := [0]; series_data := [];
     metadata_queue := []; is_scanning := false; mid := 8; sid := 1;
     cfg := a_config "/movies" "" |}.

(** One movie below the movie root. *)
Definition one_movie_world : world :=
  a_world [("/movies", [("/movies", ["clip.mp4"])])]
          [("/movies/clip.mp4", [x01; x02; x03; x04])] [] [].
Definition one_movie_state : state :=
  {| movie_heap := [{| m_id := 1; m_path := "/movies/clip.mp4";
                       m_info := plain_info "clip" |}];
     meta_heap := []; movies_data := [0]; series_data := [];
     metadata_queue := []; is_scanning := false; mid := 2; sid := 1;
     cfg := a_config "/movies" "" |}.

(** A series whose meta was enriched after the scan: the series entry still
    has the fields the scan gave it. *)
Definition enriched_series_state : state :=
  {| movie_heap := [];
     meta_heap := [{| sm_id := "Show";
                      sm_info := {| title := "Show"; candidates := Some ["Show"];
                                    year := Some "2011"; poster := Some "/get_poster/Show";
                                    rating := Some "8.1"; plot := Some "A show.";
                                    genre := Some "Drama" |} |}];
     movies_data := [];
     series_data :=
       [("Show", {| s_poster := Some "/static/placeholder.png"; s_rating := Some "";
                    s_plot := Some ""; s_year := None; s_genre := None;
                    s_seasons := ByInt [(1%Z, [{| e_id := 1; e_title := "Show";
                                                  e_season := 1; e_episode := 1;
                                                  e_path := "/series/Show.S01E01.mkv";
                                                  e_filename := "Show.S01E01.mkv" |}])];
                    s_meta := Some 0 |})];
     metadata_queue := []; is_scanning := false; mid := 1; sid := 2;
     cfg := a_config "" "/series" |}.

(** The provider knows the movie and names a poster, but the image cannot
    be downloaded. *)
Definition inception_answer : omdb :=
  {| Response := Some "True"; imdbRating := Some "8.8";
     Plot := Some "A thief enters dreams."; Genre := Some "Sci-Fi";
     Year := Some "2010"; Poster := Some "http://img.example/inception.jpg" |}.
Definition poster_fails_world : world :=
  a_world [] [] [("http://www.omdbapi.com/?apikey=key&t=Inception&y=2010",
                  Answer inception_answer)] [].
Definition inception_state : state :=
  {| movie_heap := [{| m_id := 1; m_path := "/movies/Inception.2010.1080p.mkv";
                       m_info := {| title := "Inception";
                                    candidates := Some ["Inception"];
                                    year := Some "2010";
                                    poster := Some "/static/placeholder.png";
                                    rating := Some ""; plot := Some "";
                                    genre := None |} |}];
     meta_heap := []; movies_data := [0]; series_data := [];
     metadata_queue := []; is_scanning := false; mid := 2; sid := 1;
     cfg := a_config "/movies" "" |}.

(** The provider knows the movie under its title without the colon only. *)
Definition covenant_answer : omdb :=
  {| Response := Some "True"; imdbRating := Some "6.4";
     Plot := Some "A colony ship."; Genre := Some "Horror";
     Year := Some "2017"; Poster := None |}.
Definition not_found_answer : omdb :=
  {| Response := Some "False"; imdbRating := None; Plot := None; Genre := None;
     Year := None; Poster := None |}.
Definition colon_world : world :=
  a_world [] []
    [("http://www.omdbapi.com/?apikey=key&t=Alien Covenant&y=2017",
      Answer covenant_answer);
     ("http://www.omdbapi.com/?apikey=key&t=Alien: Covenant&y=2017",
      Answer not_found_answer)] [].
Definition colon_state : state :=
  {| movie_heap := [{| m_id := 1; m_path := "/movies/Alien: Covenant [2017].mkv";
                       m_info := {| title := "Alien: Covenant";
                                    candidates := Some ["Alien: Covenant"; "Alien Covenant"];
                                    year := Some "2017";
                                    poster := Some "/static/placeholder.png";
                                    rating := Some ""; plot := Some "";
                                    genre := None |} |}];
     meta_heap := []; movies_data := [0]; series_data := [];
     metadata_queue := []; is_scanning := false; mid := 2; sid := 1;
     cfg := a_config "/movies" "" |}.

(** A library with one movie and one episode, scanned once from an empty
    catalog. *)
Definition library_world : world :=
  a_world [("/movies", [("/movies", ["Inception.2010.1080p.mkv"])]);
           ("/series", [("/series", ["Show.S01E01.mkv"])])] [] [] [].
Definition scanned_state : state :=
  (scan_videos library_world (empty_state (a_config "/movies" "/series"))).1.
Definition scanned_world : world :=
  (scan_videos library_world (empty_state (a_config "/movies" "/series"))).2.

(** The same library after the episode file was removed. *)
Definition emptied_world : world :=
  a_world [("/movies", [("/movies", ["Inception.2010.1080p.mkv"])]);
           ("/series", [("/series", [])])] [] [] [].

(** A file of a thousand bytes below the movie root: byte [i] is [i mod 256]. *)
Definition thousand : list byte :=
  map (fun i => default x00 (Byte.of_nat (i mod 256))) (seq 0 1000).
Definition thousand_world : world :=
  a_world [("/movies", [("/movies", ["clip.mp4"])])]
          [("/movies/clip.mp4", thousand)] [] [].

End Ex.

(** * Further notions

    The notions used by the properties of the title parser, the routes,
    the worker and the scanner that go beyond the specification. *)

(** the ids of the catalog's movies and episodes *)
Definition catalog_movies (st : state) : list movie :=
  map (movie_at (movie_heap st)) (movies_data st).

Definition entry_id (t : entry) : Z :=
  match t with AMovie m => m_id m | AnEpisode ep => e_id ep end.

(** the two parts of an SRT time stamp [hh:mm:ss,mmm] *)
Definition is_clock (a : list ascii) : bool :=
  match a with
  | [h1; h2; c1; m1; m2; c2; s1; s2] =>
      forallb Char.is_digit [h1; h2; m1; m2; s1; s2]
      && Ascii.eqb c1 ":" && Ascii.eqb c2 ":"
  | _ => false
  end.

Definition is_millis (b : list ascii) : bool :=
  match b with
  | [d1; d2; d3] => forallb Char.is_digit [d1; d2; d3]
  | _ => false
  end.

(** what [srt_to_vtt] may do to a character: keep it, or turn a comma
    into a dot *)
Definition comma_to_dot (c d : ascii) : Prop :=
  d = c \/ (c = ","%char /\ d = "."%char).

(** [srt_to_vtt] without the header it puts in front *)
Definition vtt_body (srt_content : string) : string :=
  text (Re.sub timestamp_re
          (fun caps => default [] (caps !! 0) ++ chars "." ++ default [] (caps !! 1))
          (chars srt_content)).

(** a year as the title parser accepts it: 19dd or 20dd *)
Definition is_year (y : list ascii) : bool :=
  match y with
  | [a; b; c; d] =>
      ((Ascii.eqb a "1" && Ascii.eqb b "9") || (Ascii.eqb a "2" && Ascii.eqb b "0"))
      && Char.is_digit c && Char.is_digit d
  | _ => false
  end.

(** every white-space character of [l] is a space, and the character
    after it, if there is one, is not white space *)
Fixpoint single_spaces (l : list ascii) : bool :=
  match l with
  | [] => true
  | c :: l' =>
      (negb (Char.is_space c)
       || (Ascii.eqb c " " && negb (from_option Char.is_space false (head l'))))
      && single_spaces l'
  end.

(** a cleaned title: none of the separators [.], [-] and [_], no white
    space at either end, and single spaces inside *)
Definition tidy (t : string) : Prop :=
  Forall (fun c => Char.one_of ".-_" c = false) (chars t)
  /\ from_option Char.is_space false (head (chars t)) = false
  /\ from_option Char.is_space false (last (chars t)) = false
  /\ single_spaces (chars t) = true.

(** * The configuration, in [app.py] and in [backend.py] *)

(** the truth value of a JSON value *)
Definition json_truthy (j : json) : bool :=
  match j with
  | JNull => false
  | JStr s => truthy s
  | JInt n => negb (n =? 0)%Z
  | JBool b => b
  | JList l => match l with [] => false | _ => true end
  | JDict d => match d with [] => false | _ => true end
  end.

(** The configuration file: it is missing, or it cannot be read as JSON,
    or it holds a document. *)
Inductive stored :=
| Missing
| Unreadable
| Holds (j : json).

(** the file and whether writing it succeeds *)
Record config_store := { config_file : stored; config_writable : bool }.

Definition DEFAULT_CONFIG : list (string * json) :=
  [("movie_dir", JStr ""); ("series_dir", JStr "");
   ("omdb_api_key", JStr ""); ("opensubtitles_api_key", JStr "")].

(** [{**DEFAULT_CONFIG, **loaded}]: a document that is not an object
    cannot be unpacked, which raises *)
Definition with_defaults (loaded : json) : option (list (string * json)) :=
  match loaded with
  | JDict d => Some (Dict.update DEFAULT_CONFIG d)
  | _ => None
  end.

(** [json.dump(conf, f, indent=4)] inside [try]: a failure is swallowed *)
Definition write_config (fs : config_store) (conf : list (string * json))
    : config_store :=
  if config_writable fs
  then {| config_file := Holds (JDict conf); config_writable := true |}
  else fs.

(** ** [app.py] *)

Module Settings.

Definition load_config (fs : config_store) : list (string * json) :=
  match config_file fs with
  | Holds loaded => default DEFAULT_CONFIG (with_defaults loaded)
  | Unreadable => DEFAULT_CONFIG
  | Missing => DEFAULT_CONFIG
  end.

Definition save_config (fs : config_store) (conf : list (string * json))
    : config_store :=
  write_config fs conf.

End Settings.

(** ** [backend.py] *)

Module Desktop.

(** *** [class Config]: the object is its [_data] *)

Definition load (_data : list (string * json)) (fs : config_store)
    : list (string * json) :=
  match config_file fs with
  | Holds loaded => default DEFAULT_CONFIG (with_defaults loaded)
  | Unreadable => DEFAULT_CONFIG
  | Missing => _data
  end.

Definition __init__ (fs : config_store) : list (string * json) :=
  load DEFAULT_CONFIG fs.

Definition save (_data : list (string * json)) (fs : config_store) : config_store :=
  write_config fs _data.

(** [get(key, default="")] *)
Definition get (_data : list (string * json)) (key : string) (default : json) : json :=
  match Dict.get key _data with Some v => v | None => default end.

Definition set (_data : list (string * json)) (key : string) (value : json)
    : list (string * json) :=
  Dict.set key value _data.

Definition update (_data : list (string * json)) (fs : config_store)
    (data : list (string * json)) : list (string * json) * config_store :=
  let _data := Dict.update _data data in
  (_data, save _data fs).

(** [d.get(key)] as a condition *)
Definition get_truthy (_data : list (string * json)) (key : string) : bool :=
  match Dict.get key _data with Some v => json_truthy v | None => false end.

Definition needs_setup (_data : list (string * json)) : bool :=
  negb (get_truthy _data "movie_dir") && negb (get_truthy _data "series_dir").

(** *** [find_local_subtitle] *)
Definition find_local_subtitle (w : world) (video_path : string) : option string :=
  let base := fst (splitext video_path) in
  find (path_exists w)
    (concat (map (fun ext => map (fun suffix => base +:+ suffix +:+ ext)
                               [""; ".en"; ".tr"])
                 [".srt"; ".vtt"; ".sub"])).

(** *** [get_poster_path], for a movie or a series' meta *)
Definition get_poster_path (w : world) (st : state) (item : item_ref) : string :=
  let poster := default "" (poster (item_info st item)) in
  if truthy poster && path_exists w poster then poster
  else
    let safe_id := re_sub (Chr (fun c => negb (safe_char c))) "_"
                     (item_id_text st item) in
    let candidate := join (Backend.POSTERS_DIR w) ("poster_" +:+ safe_id +:+ ".jpg") in
    if path_exists w candidate then candidate else "".

(** *** [Scanner.__init__]: the counters are read from the cache *)
Definition init_counters (st : state) : state :=
  {| movie_heap := movie_heap st; meta_heap := meta_heap st;
     movies_data := movies_data st; series_data := series_data st;
     metadata_queue := []; is_scanning := false;
     mid := match map (fun l => m_id (movie_at (movie_heap st) l)) (movies_data st) with
            | [] => 1
            | n :: ns => fold_left Z.max ns n + 1
            end%Z;
     sid := fold_left (fun sid ep => if (sid <=? e_id ep)%Z
                                     then (e_id ep + 1)%Z else sid)
                      (all_episodes (series_data st)) 1%Z;
     cfg := cfg st |}.

End Desktop.

(** the ids of the catalog lie below the counters *)
Definition ids_below (st : state) : Prop :=
  Forall (fun m => (m_id m < mid st)%Z) (catalog_movies st)
  /\ Forall (fun ep => (e_id ep < sid st)%Z) (all_episodes (series_data st)).

(** the candidates of [find_local_subtitle], in the order they are tried *)
Definition subtitle_candidates (video_path : string) : list string :=
  let base := fst (splitext video_path) in
  [base +:+ ".srt"; base +:+ ".en.srt"; base +:+ ".tr.srt";
   base +:+ ".vtt"; base +:+ ".en.vtt"; base +:+ ".tr.vtt";
   base +:+ ".sub"; base +:+ ".en.sub"; base +:+ ".tr.sub"].

(** [st'] has the catalog of [st]: the same movie list and series table,
    counters and configuration, and in the heaps the same objects with
    the ids, paths, titles and candidates they had *)
Record same_catalog (st st' : state) : Prop := {
  sc_movies : movies_data st' = movies_data st;
  sc_series : series_data st' = series_data st;
  sc_counters : (mid st', sid st') = (mid st, sid st);
  sc_cfg : cfg st' = cfg st;
  sc_heaps : length (movie_heap st') = length (movie_heap st)
             /\ length (meta_heap st') = length (meta_heap st);
  sc_movie : forall l,
    m_id (movie_at (movie_heap st') l) = m_id (movie_at (movie_heap st) l)
    /\ m_path (movie_at (movie_heap st') l) = m_path (movie_at (movie_heap st) l)
    /\ title (m_info (movie_at (movie_heap st') l))
       = title (m_info (movie_at (movie_heap st) l))
    /\ candidates (m_info (movie_at (movie_heap st') l))
       = candidates (m_info (movie_at (movie_heap st) l));
  sc_meta : forall l,
    sm_id (meta_at (meta_heap st') l) = sm_id (meta_at (meta_heap st) l)
    /\ title (sm_info (meta_at (meta_heap st') l))
       = title (sm_info (meta_at (meta_heap st) l))
    /\ candidates (sm_info (meta_at (meta_heap st') l))
       = candidates (sm_info (meta_at (meta_heap st) l)) }.

(** the item is an object of its heap *)
Definition item_allocated (st : state) (item : item_ref) : Prop :=
  match item with
  | MovieRef l => l < length (movie_heap st)
  | MetaRef l => l < length (meta_heap st)
  end.

(** the id of an item as [_download_poster] and [get_poster_path] put it
    into a file name *)
Definition safe_id (st : state) (item : item_ref) : string :=
  text (map (fun c => if safe_char c then c else "_"%char)
            (chars (item_id_text st item))).

(** what the movie walk keeps about ids: the counter does not go back,
    and every movie taken into the new list has an id below it *)
Record walk_ids (mid0 : Z) (a : movie_walk) : Prop := {
  wd_mid : (mid0 <= mw_mid a)%Z;
  wd_ids : Forall (fun l => (m_id (movie_at (mw_heap a) l) < mw_mid a)%Z) (mw_new a) }.

(** ... and about the queue: a movie taken into the new list is on the
    queue when its rating is missing or empty *)
Definition walk_queued (a : movie_walk) : Prop :=
  Forall (fun l => truthy_opt (rating (m_info (movie_at (mw_heap a) l))) = false ->
                   MovieRef l ∈ mw_queue a) (mw_new a).


(** ... and the loop over the discovered series: the meta of a series
    entered so far is on the queue when its rating is missing or empty *)
Definition merge_queued (a : series_merge) : Prop :=
  forall name s l,
    (name, s) ∈ sg_final a -> s_meta s = Some l ->
    truthy_opt (rating (sm_info (meta_at (sg_heap a) l))) = false ->
    MetaRef l ∈ sg_queue a.

(** the episodes of the series a walk discovered, season by season *)
Definition discovered_episodes (found : list (string * list (Z * list episode)))
    : list episode :=
  concat (map (fun kv => episodes_of kv.2) found).
(** * More example worlds *)

Module Ex2.

(** The provider knows the movie of [Ex.inception_state] and the image
    it names can be downloaded. *)
Definition image : list byte := [xff; xd8; xff; xe0].
Definition poster_world : world :=
  Ex.a_world [] []
    [("http://www.omdbapi.com/?apikey=key&t=Inception&y=2010",
      Answer Ex.inception_answer)]
    [("http://img.example/inception.jpg", image)].

(** A world in which the decoder starts and writes [out]. *)
Definition decoding (w : world) (out : list byte) : world :=
  {| base_dir := base_dir w; fs_exists := fs_exists w; fs_walk := fs_walk w;
     fs_realpath := fs_realpath w; fs_getsize := fs_getsize w;
     fs_open := fs_open w; fs_read_text := fs_read_text w;
     fs_writable := fs_writable w; cache_file := cache_file w;
     poster_files := poster_files w; http_json := http_json w;
     http_content := http_content w; popen := fun _ => Some out;
     requests := requests w; int_max_str_digits := int_max_str_digits w |}.

Definition avi_world : world :=
  decoding (Ex.a_world [("/movies", [("/movies", ["old.avi"])])]
                       [("/movies/old.avi", [x01; x02])] [] [])
           [x0a; x0b; x0c].
Definition avi_state : state :=
  {| movie_heap := [{| m_id := 1; m_path := "/movies/old.avi";
                       m_info := Ex.plain_info "old" |}];
     meta_heap := []; movies_data := [0]; series_data := [];
     metadata_queue := []; is_scanning := false; mid := 2; sid := 1;
     cfg := Ex.a_config "/movies" "" |}.

(** The catalog that is read back when the program starts after the scan
    of [Ex.library_world]. *)
Definition restarted_state : state :=
  default Ex.scanned_state (startup Ex.scanned_world (cfg Ex.scanned_state)).

(** The world of [Ex.one_movie_world] with the smallest limit the
    interpreter lets one set on the digits of [int]. *)
Definition strict_world : world :=
  {| base_dir := base_dir Ex.one_movie_world;
     fs_exists := fs_exists Ex.one_movie_world;
     fs_walk := fs_walk Ex.one_movie_world;
     fs_realpath := fs_realpath Ex.one_movie_world;
     fs_getsize := fs_getsize Ex.one_movie_world;
     fs_open := fs_open Ex.one_movie_world;
     fs_read_text := fs_read_text Ex.one_movie_world;
     fs_writable := fs_writable Ex.one_movie_world;
     cache_file := cache_file Ex.one_movie_world;
     poster_files := poster_files Ex.one_movie_world;
     http_json := http_json Ex.one_movie_world;
     http_content := http_content Ex.one_movie_world;
     popen := popen Ex.one_movie_world;
     requests := requests Ex.one_movie_world;
     int_max_str_digits := 640 |}.

Definition ones : list ascii := repeat "1"%char 641.

(** The provider knows the series of [Ex.scanned_state]. *)
Definition show_answer : omdb :=
  {| Response := Some "True"; imdbRating := Some "8.1"; Plot := Some "A show.";
     Genre := Some "Drama"; Year := Some "2011"; Poster := Some "N/A" |}.
Definition show_world : world :=
  Ex.a_world [] [] [("http://www.omdbapi.com/?apikey=key&t=Show", Answer show_answer)] [].
Definition show_entry : series :=
  match series_data Ex.scanned_state with
  | (_, s) :: _ => s
  | [] => {| s_poster := None; s_rating := None; s_plot := None; s_year := None;
             s_genre := None; s_seasons := ByStr []; s_meta := None |}
  end.

End Ex2.

(** * Properties *)

(** ** The read loops *)

Lemma read_take {A} (n : Z) (l : list A) : read n l = take (Z.to_nat n) l.
Proof.
  revert n. induction l as [|x l IH]; intros n; simpl.
  - by rewrite take_nil.
  - destruct (Z.ltb_spec 0 n) as [Hn|Hn].
    + rewrite IH. replace (Z.to_nat n) with (S (Z.to_nat (n - 1))) by lia.
      reflexivity.
    + replace (Z.to_nat n) with 0 by lia. reflexivity.
Qed.

Lemma read_nil_inv {A} (n : Z) (l : list A) : (0 < n)%Z -> read n l = [] -> l = [].
Proof.
  intros Hn. destruct l as [|x l]; [done|]. simpl.
  destruct (Z.ltb_spec 0 n); [discriminate|lia].
Qed.

Lemma generate_concat (c : Z) (f : list byte) (rem : Z) :
  (0 < c)%Z -> concat (generate c f rem) = take (Z.to_nat rem) f.
Proof.
  intros Hc. funelim (generate c f rem); simpl in *.
  - replace (Z.to_nat rem) with 0 by lia. done.
  - assert (f = []) as Hf by (eapply read_nil_inv; [|exact e]; lia).
    rewrite Hf. by rewrite take_nil.
  - match goal with IH : _ -> concat _ = _ |- _ => rewrite IH by done end.
    match goal with E : read _ _ = _ :: _ |- _ => rewrite app_comm_cons, <- E end.
    rewrite Nat2Z.inj_succ, <- Nat2Z.inj_succ.
    change (S (length data)) with (length (b :: data)).
    match goal with E : read _ _ = _ :: _ |- _ => rewrite <- E end.
    rewrite read_take, length_take.
    set (k := Z.to_nat (Z.min _ rem)).
    destruct (Nat.le_gt_cases k (length f)) as [Hk|Hk].
    + rewrite Nat.min_l by done. rewrite take_take_drop. f_equal. lia.
    + rewrite Nat.min_r by lia. rewrite drop_all, take_nil, app_nil_r.
      rewrite !take_ge by lia. done.
Qed.

(** The chunks [stream] yields are, put together, the whole output. *)
Lemma stream_concat (n : Z) (out : list byte) :
  (0 < n)%Z -> concat (stream n out) = out.
Proof.
  intros Hn. funelim (stream n out); simpl in *.
  - symmetry. exact (read_nil_inv _ _ Hn e).
  - match goal with IH : _ -> concat _ = _ |- _ => rewrite IH by done end.
    match goal with E : read _ _ = _ :: _ |- _ => rewrite app_comm_cons, <- E end.
    change (S (length data)) with (length (b :: data)).
    match goal with E : read _ _ = _ :: _ |- _ => rewrite <- E end.
    rewrite read_take, length_take.
    destruct (Nat.le_gt_cases (Z.to_nat n) (length out)) as [Hk|Hk].
    + rewrite Nat.min_l by done. apply take_drop.
    + rewrite Nat.min_r by lia. rewrite drop_all, app_nil_r.
      by rewrite take_ge by lia.
Qed.

(** ** The play route *)

Lemma play_state (w : world) (vid : Z) (h : option string) (st : state) :
  (play w vid h st).2 = st.
Proof.
  unfold play. destruct (find_target st vid) as [t|]; [|done].
  destruct (negb (_validate_path w st (entry_path t))); [done|].
  destruct (negb (path_exists w (entry_path t))); [done|].
  simpl. by repeat case_match.
Qed.

Lemma play_not_found (w : world) (vid : Z) (h : option string) (st : state) :
  find_target st vid = None -> (play w vid h st).1 = plain "Not Found" 404.
Proof. unfold play. by intros ->. Qed.

(** A target whose path [_validate_path] rejects is answered 403. *)
Lemma play_forbidden (w : world) (vid : Z) (h : option string) (st : state) (t : entry) :
  find_target st vid = Some t ->
  _validate_path w st (entry_path t) = false ->
  (play w vid h st).1 = plain "Forbidden" 403.
Proof. unfold play. by intros -> ->. Qed.

(** What [play] answers once the target passed the checks and the file is
    served itself. *)
Lemma play_serve_range (w : world) (vid : Z) (h : option string) (st : state) (t : entry) :
  find_target st vid = Some t ->
  _validate_path w st (entry_path t) = true ->
  path_exists w (entry_path t) = true ->
  served_from_file w (entry_path t) ->
  (play w vid h st).1 = serve_range w (entry_path t) h.
Proof.
  unfold play, served_from_file, transcoded_exts. intros -> -> -> Hs. simpl.
  case_bool_decide as Hext; [|done].
  destruct Hs as [Hs| ->]; [by destruct Hs|done].
Qed.

Lemma serve_range_status (w : world) (path : string) (h : option string) (size : Z) :
  fs_getsize w path = Some size ->
  status (serve_range w path h) = 206%Z \/ status (serve_range w path h) = 500%Z.
Proof.
  unfold serve_range. intros ->.
  destruct (parse_range w h size) as [[start len]|]; [by left|by right].
Qed.

(** [_validate_path] is a test on prefixes of the resolved path. *)
Lemma validate_path_prefix (w : world) (st : state) (path : string) :
  _validate_path w st path =
    (truthy (fs_realpath w (movie_dir (cfg st)))
       && startswith (fs_realpath w path) (fs_realpath w (movie_dir (cfg st))))
    || (truthy (fs_realpath w (series_dir (cfg st)))
       && startswith (fs_realpath w path) (fs_realpath w (series_dir (cfg st)))).
Proof. unfold _validate_path. by repeat case_match. Qed.

(** C1. The catalog entry 7 of [Ex.sibling_state] has the path
    [/movies2/secret.mp4], which is not below the movie root [/movies]
    (and there is no series root).  [_validate_path] accepts it, because
    the path starts with the characters of the root, and [play] answers
    206 with the bytes of the file instead of 403. *)
Theorem play_serves_file_outside_roots :
  find_target Ex.sibling_state 7 =
    Some (AMovie (movie_at (movie_heap Ex.sibling_state) 0))
  /\ fs_realpath Ex.sibling_world "/movies2/secret.mp4" = "/movies2/secret.mp4"
  /\ strict_descendant (fs_realpath Ex.sibling_world (movie_dir (cfg Ex.sibling_state)))
       "/movies2/secret.mp4" = false
  /\ strict_descendant (fs_realpath Ex.sibling_world (series_dir (cfg Ex.sibling_state)))
       "/movies2/secret.mp4" = false
  /\ _validate_path Ex.sibling_world Ex.sibling_state "/movies2/secret.mp4" = true
  /\ (play Ex.sibling_world 7 None Ex.sibling_state).1 =
       {| status := 206; mimetype := "video/mp4";
          content_range := Some "bytes 0-5/6";
          content := Bytes [Ex.secret] |}.
Proof. repeat split; vm_compute; reflexivity. Qed.

(** C4, as stated, fails: a request without a Range header for a file
    below the movie root is answered 206, not 200. *)
Lemma play_without_range_not_200 :
  (play Ex.one_movie_world 1 None Ex.one_movie_state).1 =
    {| status := 206; mimetype := "video/mp4";
       content_range := Some "bytes 0-3/4";
       content := Bytes [[x01; x02; x03; x04]] |}
  /\ status (play Ex.one_movie_world 1 None Ex.one_movie_state).1 <> 200%Z.
Proof. split; [vm_compute; reflexivity|vm_compute; discriminate]. Qed.

(** C4, amended.  When the target passed the checks and the file is served
    itself, the answer never has status 200, whatever the Range header is;
    without a Range header it has status 206, carries
    [Content-Range: bytes 0-(size-1)/size], and its chunks are, put
    together, the whole file. *)
Theorem play_without_range (w : world) (vid : Z) (st : state) (t : entry)
    (size : Z) (data : list byte) :
  find_target st vid = Some t ->
  _validate_path w st (entry_path t) = true ->
  path_exists w (entry_path t) = true ->
  served_from_file w (entry_path t) ->
  fs_getsize w (entry_path t) = Some size ->
  fs_open w (entry_path t) = Some data ->
  size = Z.of_nat (length data) ->
  (forall h, status (play w vid h st).1 <> 200%Z)
  /\ status (play w vid None st).1 = 206%Z
  /\ content_range (play w vid None st).1 =
       Some ("bytes 0-" +:+ str_of_Z (size - 1) +:+ "/" +:+ str_of_Z size)
  /\ exists chunks, content (play w vid None st).1 = Bytes chunks
                    /\ concat chunks = data.
Proof.
  intros Ht Hv He Hs Hsize Hopen ->.
  split; [|split; [|split]].
  - intros h. rewrite (play_serve_range _ _ _ _ _ Ht Hv He Hs).
    destruct (serve_range_status w (entry_path t) h _ Hsize) as [-> | ->]; lia.
  - rewrite (play_serve_range _ _ _ _ _ Ht Hv He Hs).
    unfold serve_range. by rewrite Hsize.
  - rewrite (play_serve_range _ _ _ _ _ Ht Hv He Hs).
    unfold serve_range. rewrite Hsize. simpl. do 3 f_equal.
  - rewrite (play_serve_range _ _ _ _ _ Ht Hv He Hs).
    unfold serve_range. rewrite Hsize, Hopen. simpl.
    eexists; split; [done|].
    rewrite generate_concat by done.
    rewrite drop_0, Nat2Z.id. by rewrite take_ge.
Qed.

Lemma play_without_range_witness :
  (forall h, status (play Ex.one_movie_world 1 h Ex.one_movie_state).1 <> 200%Z)
  /\ status (play Ex.one_movie_world 1 None Ex.one_movie_state).1 = 206%Z
  /\ content_range (play Ex.one_movie_world 1 None Ex.one_movie_state).1 =
       Some ("bytes 0-" +:+ str_of_Z (4 - 1) +:+ "/" +:+ str_of_Z 4)
  /\ exists chunks,
       content (play Ex.one_movie_world 1 None Ex.one_movie_state).1 = Bytes chunks
       /\ concat chunks = [x01; x02; x03; x04].
Proof.
  apply (play_without_range Ex.one_movie_world 1 Ex.one_movie_state
           (AMovie (movie_at (movie_heap Ex.one_movie_state) 0)) 4 [x01; x02; x03; x04]).
  - reflexivity.
  - reflexivity.
  - reflexivity.
  - right. reflexivity.
  - reflexivity.
  - reflexivity.
  - reflexivity.
Defined.

(** ** The routes and the catalog *)

Lemma poster_route_state (w : world) (vid : string) (st : state) :
  (poster_route w vid st).2 = st.
Proof. unfold poster_route. by repeat case_match. Qed.

Lemma sub_state (w : world) (vid : Z) (st : state) : (sub w vid st).2 = st.
Proof. unfold sub. by repeat case_match. Qed.

Lemma sync_series_keeps (h : list meta) (s : series) :
  s_seasons (sync_series h s) = s_seasons s /\ s_meta (sync_series h s) = s_meta s.
Proof. unfold sync_series. destruct (s_meta s) eqn:E; simpl; auto. Qed.

(** C5, as stated, fails: listing the catalog of [Ex.enriched_series_state]
    changes the entry of the series in [series_data]. *)
Lemma get_data_changes_series :
  series_data (get_data Ex.enriched_series_state).2
    <> series_data Ex.enriched_series_state
  /\ (s_rating <$> Dict.get "Show" (series_data Ex.enriched_series_state))
       = Some (Some "")
  /\ (s_rating <$> Dict.get "Show" (series_data (get_data Ex.enriched_series_state).2))
       = Some (Some "8.1").
Proof.
  split; [intros H; vm_compute in H; congruence|split; vm_compute; reflexivity].
Qed.

(** C5, amended.  The play, poster and subtitle routes leave the globals
    as they are.  The listing route writes into the catalog: every series
    that has a meta gets the meta's poster, rating, plot, year and genre;
    the movies, the objects in the heaps, the names of the series, their
    seasons and their metas, the queue and the counters stay as they are. *)
Theorem routes_and_catalog (w : world) (vid : Z) (pid : string)
    (h : option string) (st : state) :
  (play w vid h st).2 = st
  /\ (poster_route w pid st).2 = st
  /\ (sub w vid st).2 = st
  /\ movie_heap (get_data st).2 = movie_heap st
  /\ meta_heap (get_data st).2 = meta_heap st
  /\ movies_data (get_data st).2 = movies_data st
  /\ metadata_queue (get_data st).2 = metadata_queue st
  /\ (mid (get_data st).2, sid (get_data st).2) = (mid st, sid st)
  /\ series_data (get_data st).2 =
       map (fun kv => (kv.1, sync_series (meta_heap st) kv.2)) (series_data st)
  /\ Forall2 (fun old new => new.1 = old.1
                             /\ s_seasons new.2 = s_seasons old.2
                             /\ s_meta new.2 = s_meta old.2)
       (series_data st) (series_data (get_data st).2).
Proof.
  split; [apply play_state|]. split; [apply poster_route_state|].
  split; [apply sub_state|]. repeat split.
  simpl. induction (series_data st) as [|[k s] sd IH]; simpl; constructor; [|done].
  simpl. by destruct (sync_series_keeps (meta_heap st) s) as [-> ->].
Qed.

(** ** The metadata worker *)

Lemma set_item_info_queue (st : state) (item : item_ref) (i : info) :
  metadata_queue (set_item_info st item i) = metadata_queue st.
Proof. by destruct item. Qed.

Lemma fetch_poster_queue (w : world) (st : state) (item : item_ref) (url : string) :
  metadata_queue (fetch_poster w st item url).2 = metadata_queue st.
Proof.
  unfold fetch_poster. repeat case_match; simpl; try done.
  apply set_item_info_queue.
Qed.

(** The worker never puts anything on the queue. *)
Lemma process_item_queue (w : world) (st : state) (item : item_ref) :
  metadata_queue (process_item w st item).2 = metadata_queue st.
Proof.
  unfold process_item.
  destruct (negb (truthy (omdb_api_key (cfg st)))); [done|].
  destruct (http_json _ _) as [| |res]; [done|done|].
  case_bool_decide; [|done].
  destruct (Poster res) as [url|]; simpl.
  - destruct (truthy url && negb (String.eqb url "N/A")); simpl.
    + destruct (fetch_poster _ _ _ _) as [w' st'] eqn:E. simpl.
      change st' with (w', st').2. rewrite <- E.
      rewrite fetch_poster_queue. apply set_item_info_queue.
    + apply set_item_info_queue.
  - apply set_item_info_queue.
Qed.

Lemma drain_queue (items : list item_ref) (w : world) (st : state) :
  metadata_queue (drain items (w, st)).2 =
    match items with [] => metadata_queue st | _ => [] end.
Proof.
  revert w st. induction items as [|item rest IH]; intros w st; [done|].
  simpl. destruct (process_item w (set_queue st rest) item) as [w' st'] eqn:E.
  rewrite IH. destruct rest; [|done].
  change st' with (w', st').2. rewrite <- E. by rewrite process_item_queue.
Qed.

(** The worker takes every item of the queue, whatever happens to the
    items before it. *)
Lemma metadata_worker_empties_queue (w : world) (st : state) :
  metadata_queue (metadata_worker w st).2 = [].
Proof.
  unfold metadata_worker. rewrite drain_queue.
  by destruct (metadata_queue st).
Qed.

Lemma item_info_set (st : state) (item : item_ref) (i : info) :
  item_info (set_item_info st item i) item = i
  \/ set_item_info st item i = st.
Proof.
  destruct item as [l|l]; simpl; unfold movie_at, meta_at.
  - destruct (decide (l < length (movie_heap st))) as [Hl|Hl].
    + left. by rewrite list_lookup_insert_eq.
    + right. rewrite list_insert_ge by lia. by destruct st.
  - destruct (decide (l < length (meta_heap st))) as [Hl|Hl].
    + left. by rewrite list_lookup_insert_eq.
    + right. rewrite list_insert_ge by lia. by destruct st.
Qed.

(** C10, as stated, fails: the provider answers for the movie of
    [Ex.inception_state], the download of the poster fails, and the movie
    has the provider's rating, plot, genre and year all the same. *)
Lemma poster_failure_changes_item :
  http_content Ex.poster_fails_world "http://img.example/inception.jpg" = None
  /\ rating (item_info Ex.inception_state (MovieRef 0)) = Some ""
  /\ item_info (process_item Ex.poster_fails_world Ex.inception_state (MovieRef 0)).2
       (MovieRef 0)
     = {| title := "Inception"; candidates := Some ["Inception"];
          year := Some "2010"; poster := Some "/static/placeholder.png";
          rating := Some "8.8"; plot := Some "A thief enters dreams.";
          genre := Some "Sci-Fi" |}
  /\ item_info (process_item Ex.poster_fails_world Ex.inception_state (MovieRef 0)).2
       (MovieRef 0)
     <> item_info Ex.inception_state (MovieRef 0).
Proof.
  repeat split; try (vm_compute; reflexivity).
  intros H. vm_compute in H. congruence.
Qed.

(** C10, amended.  For every item the worker takes: nothing is put on the
    queue, and the worker goes on until the queue is empty.  When the
    request to the provider raises or its answer is not a dictionary, or
    the answer does not say [Response: True], the globals are unchanged.
    When the provider answers and the poster cannot be downloaded or
    written, the item has the provider's rating, plot, genre and year, and
    keeps the poster it had. *)
Theorem worker_failures (w : world) (st : state) (item : item_ref) :
  let apikey := omdb_api_key (cfg st) in
  let i := item_info st item in
  let u := omdb_url apikey (title i) (default "" (year i)) in
  metadata_queue (process_item w st item).2 = metadata_queue st
  /\ metadata_queue (metadata_worker w st).2 = []
  /\ (http_json w u = Timeout \/ http_json w u = Malformed
      \/ (exists res, http_json w u = Answer res /\ Response res <> Some "True") ->
      (process_item w st item).2 = st)
  /\ (forall res url,
        truthy apikey = true ->
        http_json w u = Answer res -> Response res = Some "True" ->
        Poster res = Some url ->
        http_content w url = None
        \/ fs_writable w (join (POSTERS_DIR w)
                            ("poster_" +:+ item_id_text st item +:+ ".jpg")) = false ->
        (process_item w st item).2 = set_item_info st item (enriched i res)
        /\ poster (item_info (process_item w st item).2 item) = poster i).
Proof.
  intros apikey i u.
  split; [apply process_item_queue|].
  split; [apply metadata_worker_empties_queue|].
  split.
  - intros H. unfold process_item. fold apikey i u.
    destruct (negb (truthy apikey)); [done|]. simpl.
    change (http_json (log_request w u) u) with (http_json w u).
    destruct H as [-> | [-> | (res & -> & Hres)]]; [done|done|].
    by case_bool_decide.
  - intros res url Hkey Hans Hres Hposter Hfail.
    assert ((process_item w st item).2 = set_item_info st item (enriched i res)) as Hst.
    { unfold process_item. fold apikey i u. rewrite Hkey. simpl.
      change (http_json (log_request w u) u) with (http_json w u).
      rewrite Hans. rewrite bool_decide_eq_true_2 by done. rewrite Hposter.
      destruct (truthy url && negb (String.eqb url "N/A")); [|done].
      unfold fetch_poster. simpl.
      change (http_content (log_request (log_request w u) url) url)
        with (http_content w url).
      destruct Hfail as [-> | Hw]; [done|].
      destruct (http_content w url); [|done].
      replace (item_id_text (set_item_info st item (enriched i res)) item)
        with (item_id_text st item).
      - change (fs_writable (log_request (log_request w u) url)) with (fs_writable w).
        change (POSTERS_DIR (log_request (log_request w u) url)) with (POSTERS_DIR w).
        by rewrite Hw.
      - destruct item as [k|k]; simpl; unfold movie_at, meta_at; [|].
        + destruct (decide (k < length (movie_heap st))).
          * rewrite list_lookup_insert_eq by done. simpl.
            by destruct (movie_heap st !! k).
          * by rewrite list_insert_ge by lia.
        + destruct (decide (k < length (meta_heap st))).
          * rewrite list_lookup_insert_eq by done. simpl.
            by destruct (meta_heap st !! k).
          * by rewrite list_insert_ge by lia. }
    split; [done|]. rewrite Hst.
    destruct (item_info_set st item (enriched i res)) as [-> | ->]; done.
Qed.

Lemma worker_failures_witness :
  (process_item Ex.poster_fails_world Ex.inception_state (MovieRef 0)).2
    = set_item_info Ex.inception_state (MovieRef 0)
        (enriched (item_info Ex.inception_state (MovieRef 0)) Ex.inception_answer)
  /\ poster (item_info (process_item Ex.poster_fails_world Ex.inception_state
                          (MovieRef 0)).2 (MovieRef 0))
     = poster (item_info Ex.inception_state (MovieRef 0)).
Proof.
  apply (proj2 (proj2 (proj2
           (worker_failures Ex.poster_fails_world Ex.inception_state (MovieRef 0))))
           Ex.inception_answer "http://img.example/inception.jpg").
  - reflexivity.
  - reflexivity.
  - reflexivity.
  - reflexivity.
  - left. reflexivity.
Defined.

(** ** Title candidates and the provider *)

Lemma contains_remove_char (c : ascii) (s : string) :
  contains c (remove_char c s) = false.
Proof.
  unfold contains, remove_char, chars, text.
  rewrite list_ascii_of_string_of_list_ascii.
  induction (list_ascii_of_string s) as [|x l IH]; [done|].
  simpl. destruct (Ascii.eqb c x) eqn:E; simpl; [done|]. by rewrite E.
Qed.

Lemma save_cache_requests (w : world) (st : state) :
  requests (save_cache w st) = requests w.
Proof. unfold save_cache. by case_match. Qed.

(** the requests [process_item] makes: one to the provider, for the item's
    title, and at most one for the poster the answer names *)
Lemma process_item_requests (w : world) (st : state) (item : item_ref) :
  truthy (omdb_api_key (cfg st)) = true ->
  let i := item_info st item in
  let u := omdb_url (omdb_api_key (cfg st)) (title i) (default "" (year i)) in
  requests (process_item w st item).1 = requests w ++ [u]
  \/ exists res url, http_json w u = Answer res /\ Poster res = Some url
       /\ requests (process_item w st item).1 = requests w ++ [u; url].
Proof.
  intros Hkey i u. unfold process_item. fold i u. rewrite Hkey. simpl.
  change (http_json (log_request w u) u) with (http_json w u).
  destruct (http_json w u) as [| |res] eqn:Hans; [by left|by left|].
  case_bool_decide; [|by left].
  destruct (Poster res) as [url|] eqn:Hp;
    [|left; simpl; by rewrite save_cache_requests].
  destruct (truthy url && negb (String.eqb url "N/A"));
    [|left; simpl; by rewrite save_cache_requests].
  right. exists res, url. split; [done|]. split; [done|].
  destruct (fetch_poster _ _ _ _) as [w' st'] eqn:E. simpl.
  rewrite save_cache_requests.
  change w' with (w', st').1. rewrite <- E.
  unfold fetch_poster. repeat case_match; simpl; by rewrite <- app_assoc.
Qed.

(** C6, as stated, fails.  The title of the movie of [Ex.colon_state] has a
    colon and its candidates are the two [get_smart_title] gives.  The
    provider of [Ex.colon_world] knows the movie under the second
    candidate.  The worker asks for the first one only and leaves the
    movie without metadata. *)
Lemma worker_asks_for_title_only :
  get_smart_title "/movies/Alien: Covenant [2017].mkv"
    = (["Alien: Covenant"; "Alien Covenant"], "2017")
  /\ http_json Ex.colon_world "http://www.omdbapi.com/?apikey=key&t=Alien Covenant&y=2017"
     = Answer Ex.covenant_answer
  /\ requests (process_item Ex.colon_world Ex.colon_state (MovieRef 0)).1
     = ["http://www.omdbapi.com/?apikey=key&t=Alien: Covenant&y=2017"]
  /\ (process_item Ex.colon_world Ex.colon_state (MovieRef 0)).2 = Ex.colon_state.
Proof. repeat split; vm_compute; reflexivity. Qed.

(** C6, amended.  [get_smart_title] returns a list that starts with the
    cleaned name; when the cleaned name has a colon the list has one more
    element, the name without its colons.  The worker makes one request to
    the provider for an item, for the item's title; the candidates are not
    used. *)
Theorem candidates_and_lookup (path : string) (w : world) (st : state)
    (item : item_ref) :
  let name := (clean_name junk path).1 in
  let i := item_info st item in
  let u := omdb_url (omdb_api_key (cfg st)) (title i) (default "" (year i)) in
  (get_smart_title path).1 <> []
  /\ hd "" (get_smart_title path).1 = name
  /\ (contains ":" name = true ->
      (get_smart_title path).1 = [name; remove_char ":" name]
      /\ contains ":" (remove_char ":" name) = false)
  /\ (contains ":" name = false -> (get_smart_title path).1 = [name])
  /\ (truthy (omdb_api_key (cfg st)) = true ->
      requests (process_item w st item).1 = requests w ++ [u]
      \/ exists res url, http_json w u = Answer res /\ Poster res = Some url
           /\ requests (process_item w st item).1 = requests w ++ [u; url]).
Proof.
  intros name i u. unfold get_smart_title. fold name.
  destruct (clean_name junk path) as [n y] eqn:E. subst name. simpl.
  split; [by case_match|]. split; [by case_match|].
  split; [intros ->; split; [done|apply contains_remove_char]|].
  split; [by intros ->|].
  intros Hkey. by apply process_item_requests.
Qed.

Lemma candidates_and_lookup_witness :
  (get_smart_title "/movies/Alien: Covenant [2017].mkv").1
    = [(clean_name junk "/movies/Alien: Covenant [2017].mkv").1;
       remove_char ":" (clean_name junk "/movies/Alien: Covenant [2017].mkv").1]
  /\ contains ":" (remove_char ":"
       (clean_name junk "/movies/Alien: Covenant [2017].mkv").1) = false.
Proof.
  apply (proj1 (proj2 (proj2
           (candidates_and_lookup "/movies/Alien: Covenant [2017].mkv"
              Ex.colon_world Ex.colon_state (MovieRef 0))))).
  reflexivity.
Defined.

(** ** Matching *)

Lemma last_or_cons prev c l : last_or prev (c :: l) = last_or (Some c) l.
Proof.
  unfold last_or. destruct l as [|d l]; simpl; [done|].
  destruct (last (d :: l)) eqn:E; [done|]. by apply last_None in E.
Qed.

Lemma last_or_app prev l1 l2 : last_or prev (l1 ++ l2) = last_or (last_or prev l1) l2.
Proof.
  revert prev. induction l1 as [|c l1 IH]; intros prev; [done|].
  simpl. by rewrite !last_or_cons, IH.
Qed.

Section Many.
Context {R : Type}.
Implicit Types (k : option ascii -> list ascii -> option R).

(** a repetition gives its whole run to a continuation that takes it *)
Lemma many_longest p prev ds rest k r :
  Forall (fun c => p c = true) ds -> stops p rest ->
  k (last_or prev ds) rest = Some r ->
  many p prev (ds ++ rest) k = Some r.
Proof.
  intros Hds Hrest. revert prev.
  induction Hds as [|d ds Hd Hds IH]; intros prev Hk; simpl.
  - destruct rest as [|c rest]; [done|]. simpl in *. by rewrite Hrest.
  - rewrite Hd. rewrite last_or_cons in Hk. by rewrite (IH _ Hk).
Qed.

Lemma many_is_Some p prev s k :
  (forall prev' s', is_Some (k prev' s')) -> is_Some (many p prev s k).
Proof.
  intros Hk. revert prev. induction s as [|c s IH]; intros prev; simpl; [done|].
  destruct (p c); [|done].
  destruct (IH (Some c)) as [r ->]. by eexists.
Qed.
End Many.

(** [search_from] goes past a prefix in which no position matches *)
Lemma search_from_skip r prev i pre rest :
  (forall a c b, pre = a ++ c :: b ->
     match_at r (last_or prev a) (c :: b ++ rest) = None) ->
  search_from r prev i (pre ++ rest) =
    search_from r (last_or prev pre) (i + length pre) rest.
Proof.
  revert prev i. induction pre as [|c pre IH]; intros prev i Hnone; simpl.
  - by rewrite Nat.add_0_r.
  - specialize (Hnone [] c pre eq_refl) as Hc. change (last_or prev []) with prev in Hc.
    rewrite Hc, last_or_cons, IH.
    + f_equal. lia.
    + intros a c' b ->. specialize (Hnone (c :: a) c' b eq_refl).
      by rewrite last_or_cons in Hnone.
Qed.

(** ... and finds a match at the latest where there is one *)
Lemma search_from_is_Some r prev i pre rest :
  is_Some (match_at r (last_or prev pre) rest) ->
  is_Some (search_from r prev i (pre ++ rest)).
Proof.
  revert prev i. induction pre as [|c pre IH]; intros prev i Hm; simpl.
  - change (last_or prev []) with prev in Hm.
    destruct rest; simpl; destruct Hm as [[n caps] ->]; by eexists.
  - destruct (match_at r prev (c :: pre ++ rest)) as [[n caps]|]; [by eexists|].
    apply IH. by rewrite last_or_cons in Hm.
Qed.

Section LetterDigits.
Variables (p q : ascii -> bool).

(** patterns of the shape [[..](\d+)]: a letter, then a group of digits *)
Let ld : regex := Seq (Chr p) (Group (Plus q)).

Lemma letter_digits_none prev c tail :
  p c = false \/ stops q tail -> match_at ld prev (c :: tail) = None.
Proof.
  intros H. unfold match_at, ld. simpl.
  destruct (p c) eqn:Hp; [|done].
  destruct H as [H|H]; [done|].
  destruct tail as [|d tail]; [done|]. simpl in H. by rewrite H.
Qed.

Lemma letter_digits_some prev c ds rest :
  p c = true -> ds <> [] -> Forall (fun c => q c = true) ds -> stops q rest ->
  match_at ld prev (c :: ds ++ rest) = Some (S (length ds), [ds]).
Proof.
  intros Hp Hne Hds Hrest. unfold match_at, ld. simpl. rewrite Hp.
  destruct ds as [|d ds]; [done|]. inversion_clear Hds as [|? ? Hd Hds'].
  simpl. rewrite Hd.
  erewrite many_longest; [reflexivity|done|done|].
  simpl. f_equal. f_equal.
  - rewrite length_app. lia.
  - f_equal.
    replace (S (length (ds ++ rest)) - length rest) with (length (d :: ds))
      by (simpl; rewrite length_app; lia).
    exact (take_app_length (d :: ds) rest).
Qed.

Lemma no_pair_app l1 l2 next :
  no_pair p q (l1 ++ l2) next =
    no_pair p q l1 (head (l2 ++ option_list next)) && no_pair p q l2 next.
Proof.
  induction l1 as [|c l1 IH]; [done|]. simpl. rewrite IH, <- app_assoc.
  rewrite andb_assoc. do 3 f_equal.
  destruct l1 as [|d l1]; [|done]. simpl.
  by destruct (l2 ++ option_list next).
Qed.

Lemma no_pair_next l next next' :
  no_pair p q l next = true ->
  from_option q false next' = false ->
  no_pair p q l next' = true.
Proof.
  intros Hl Hq. induction l as [|c l IH]; [done|]. simpl in *.
  apply andb_true_iff in Hl as [Hc Hl]. rewrite IH by done.
  rewrite andb_true_r. destruct l as [|d l]; [|done]. simpl in *.
  destruct next'; simpl in *; [rewrite Hq|]; by rewrite andb_false_r.
Qed.

Lemma no_pair_all_out l next :
  Forall (fun c => p c = false) l -> no_pair p q l next = true.
Proof. induction 1 as [|c l Hc Hl IH]; [done|]. simpl. by rewrite Hc, IH. Qed.

(** [re.search] goes past a prefix without such a pair *)
Lemma letter_digits_skip prev i pre rest :
  no_pair p q pre (head rest) = true ->
  search_from ld prev i (pre ++ rest) =
    search_from ld (last_or prev pre) (i + length pre) rest.
Proof.
  intros Hpre. apply search_from_skip. intros a c b ->.
  apply letter_digits_none.
  rewrite no_pair_app in Hpre. apply andb_true_iff in Hpre as [_ Hpre].
  simpl in Hpre. apply andb_true_iff in Hpre as [Hc _].
  apply negb_true_iff, andb_false_iff in Hc as [Hc|Hc]; [by left|right].
  destruct b as [|d b]; simpl in *.
  - destruct rest; simpl in *; done.
  - done.
Qed.
End LetterDigits.

Lemma letter_digits_is_Some (p q : ascii -> bool) prev c d tail :
  p c = true -> q d = true ->
  is_Some (match_at (Seq (Chr p) (Group (Plus q))) prev (c :: d :: tail)).
Proof.
  intros Hp Hq. unfold match_at. simpl. rewrite Hp, Hq.
  apply many_is_Some. intros; by eexists.
Qed.

(** *** The letters and digits of a token *)

Lemma one_of_inv (cls : string) (c : ascii) :
  Char.one_of cls c = true -> In c (list_ascii_of_string cls).
Proof.
  unfold Char.one_of. rewrite existsb_exists. intros (x & Hx & E).
  apply Ascii.eqb_eq in E. by subst.
Qed.

Lemma digit_not_letter (cls : string) (c : ascii) :
  forallb (fun x => negb (Char.is_digit x)) (list_ascii_of_string cls) = true ->
  Char.is_digit c = true -> Char.one_of cls c = false.
Proof.
  intros Hcls Hc. destruct (Char.one_of cls c) eqn:E; [|done].
  apply one_of_inv in E. rewrite forallb_forall in Hcls.
  apply Hcls in E. by rewrite Hc in E.
Qed.

Section TokenFacts.
Implicit Types (f : string) (pre ds de post : list ascii) (cs ce : ascii).

Lemma token_s_facts f pre cs ds ce de post
  (Htok : token_in f pre cs ds ce de post) :
  Char.one_of "Ss" cs = true /\ Char.one_of "Ee" cs = false
  /\ Char.is_digit cs = false
  /\ (Char.eqb_nocase "S" cs || Char.eqb_nocase "s" cs) = true.
Proof. by destruct (tk_s _ _ _ _ _ _ _ Htok) as [-> | ->]. Qed.

Lemma token_e_facts f pre cs ds ce de post
  (Htok : token_in f pre cs ds ce de post) :
  Char.one_of "Ee" ce = true /\ Char.is_digit ce = false
  /\ (Char.eqb_nocase "E" ce || Char.eqb_nocase "e" ce) = true.
Proof. by destruct (tk_e _ _ _ _ _ _ _ Htok) as [-> | ->]. Qed.

(** a pattern [[Ss]\d+[Ee]\d+], whatever its flags, matches at the token *)
Lemma token_match f pre cs ds ce de post (pS pE : ascii -> bool) prev
  (Htok : token_in f pre cs ds ce de post) :
  pS cs = true -> pE ce = true ->
  is_Some (match_at (Seq (Chr pS) (Seq (Plus Char.is_digit)
                       (Seq (Chr pE) (Plus Char.is_digit))))
             prev (cs :: ds ++ ce :: de ++ post)).
Proof.
  intros HS HE. pose proof Htok as [_ _ _ [Hds1 Hds] [Hde1 Hde]].
  destruct (token_e_facts _ _ _ _ _ _ _ Htok) as (_ & Hce & _).
  unfold match_at. simpl. rewrite HS.
  destruct ds as [|d ds']; [done|]. inversion_clear Hds as [|? ? Hd Hds'].
  simpl. rewrite Hd.
  destruct de as [|e de']; [done|]. inversion_clear Hde as [|? ? He Hde'].
  assert (exists r, many Char.is_digit (Some e) (de' ++ post)
            (fun _ s' => Some (length (cs :: d :: ds' ++ ce :: (e :: de') ++ post)
                               - length s', @nil (list ascii))) = Some r)
    as [r Hr] by (apply many_is_Some; intros; by eexists).
  erewrite many_longest; [by eexists|done|done|].
  simpl. rewrite HE, He. exact Hr.
Qed.

Lemma token_found f pre cs ds ce de post (pS pE : ascii -> bool)
  (Htok : token_in f pre cs ds ce de post) :
  pS cs = true -> pE ce = true ->
  found (re_search (Seq (Chr pS) (Seq (Plus Char.is_digit)
                       (Seq (Chr pE) (Plus Char.is_digit)))) f) = true.
Proof.
  intros HS HE. unfold re_search, search.
  rewrite (tk_split _ _ _ _ _ _ _ Htok).
  destruct (search_from_is_Some _ None 0 pre (cs :: ds ++ ce :: de ++ post)
              (token_match _ _ _ _ _ _ _ pS pE _ Htok HS HE)) as [m ->].
  done.
Qed.

(** the first match of [[Ss](\d+)] and of [[Ee](\d+)] *)
Lemma token_season_found f pre cs ds ce de post
  (Htok : token_in f pre cs ds ce de post) : is_Some (re_search s_re f).
Proof.
  unfold re_search, search. rewrite (tk_split _ _ _ _ _ _ _ Htok).
  apply search_from_is_Some.
  pose proof Htok as [_ _ _ [Hds1 Hds] _].
  destruct ds as [|d ds']; [done|]. inversion_clear Hds.
  apply letter_digits_is_Some; [eapply token_s_facts; exact Htok|done].
Qed.

Lemma token_episode_found f pre cs ds ce de post
  (Htok : token_in f pre cs ds ce de post) : is_Some (re_search e_re f).
Proof.
  unfold re_search, search. rewrite (tk_split _ _ _ _ _ _ _ Htok).
  replace (pre ++ cs :: ds ++ ce :: de ++ post)
    with ((pre ++ cs :: ds) ++ ce :: de ++ post)
    by (by rewrite <- app_assoc).
  apply search_from_is_Some.
  pose proof Htok as [_ _ _ _ [Hde1 Hde]].
  destruct de as [|d de']; [done|]. inversion_clear Hde.
  apply letter_digits_is_Some; [eapply token_e_facts; exact Htok|done].
Qed.

(** ... when no S or s, and no E or e, before the token is followed by a
    digit, and no digit follows the token *)
Lemma token_season_first f pre cs ds ce de post
  (Htok : token_in f pre cs ds ce de post) :
  no_pair (Char.one_of "Ss") Char.is_digit pre None = true ->
  re_search s_re f =
    Some {| m_start := length pre; m_len := S (length ds); m_groups := [ds] |}.
Proof.
  intros Hpre. unfold re_search, search, s_re.
  rewrite (tk_split _ _ _ _ _ _ _ Htok).
  destruct (token_s_facts _ _ _ _ _ _ _ Htok) as (HS & _ & Hcs & _).
  destruct (token_e_facts _ _ _ _ _ _ _ Htok) as (_ & Hce & _).
  rewrite letter_digits_skip
    by (simpl; eapply no_pair_next; [exact Hpre|exact Hcs]).
  pose proof Htok as [_ _ _ [Hds1 Hds] _].
  destruct ds as [|d ds'] eqn:Eds; [done|]. rewrite <- Eds in *.
  simpl search_from. rewrite letter_digits_some; done.
Qed.

Lemma token_episode_first f pre cs ds ce de post
  (Htok : token_in f pre cs ds ce de post) :
  no_pair (Char.one_of "Ee") Char.is_digit pre None = true ->
  stops Char.is_digit post ->
  re_search e_re f =
    Some {| m_start := length pre + S (length ds); m_len := S (length de);
            m_groups := [de] |}.
Proof.
  intros Hpre Hpost. unfold re_search, search, e_re.
  rewrite (tk_split _ _ _ _ _ _ _ Htok).
  destruct (token_s_facts _ _ _ _ _ _ _ Htok) as (_ & HSe & Hcs & _).
  destruct (token_e_facts _ _ _ _ _ _ _ Htok) as (HE & Hce & _).
  replace (pre ++ cs :: ds ++ ce :: de ++ post)
    with ((pre ++ cs :: ds) ++ ce :: de ++ post)
    by (by rewrite <- app_assoc).
  pose proof Htok as [_ _ _ [Hds1 Hds] [Hde1 Hde]].
  rewrite letter_digits_skip.
  - rewrite length_app. simpl length.
    destruct de as [|d de'] eqn:Ede; [done|]. rewrite <- Ede in *.
    simpl search_from. rewrite letter_digits_some; done.
  - rewrite no_pair_app. apply andb_true_iff. split.
    + eapply no_pair_next; [exact Hpre|]. simpl. exact Hcs.
    + apply no_pair_all_out. constructor; [done|].
      eapply Forall_impl; [exact Hds|]. intros c Hc. simpl in Hc.
      by apply digit_not_letter.
Qed.


End TokenFacts.

(** ** Episode files *)

Lemma many_result {R} (p : ascii -> bool) prev s
    (k : option ascii -> list ascii -> option R) r :
  many p prev s k = Some r -> exists prev' s', k prev' s' = Some r.
Proof.
  revert prev. induction s as [|c s IH]; intros prev; simpl; [by eauto|].
  destruct (p c); [|by eauto].
  destruct (many p (Some c) s k) as [r'|] eqn:E; [|by eauto].
  intros [= ->]. by apply (IH (Some c)).
Qed.

(** the group of a pattern [[..](\d+)] is a part of the subject *)
Lemma letter_digits_group (p q : ascii -> bool) prev s n caps :
  match_at (Seq (Chr p) (Group (Plus q))) prev s = Some (n, caps) ->
  exists g, caps = [g] /\ length g <= length s.
Proof.
  unfold match_at. simpl. destruct s as [|c s]; [done|].
  destruct (p c); [|done]. destruct s as [|d s]; [done|].
  destruct (q d); [|done]. intros H.
  apply many_result in H as (prev' & s' & [= _ <-]).
  eexists. split; [done|]. rewrite length_take. simpl. lia.
Qed.

Lemma search_from_result r prev i s m :
  search_from r prev i s = Some m ->
  exists prev' s', length s' <= length s
                   /\ match_at r prev' s' = Some (m_len m, m_groups m).
Proof.
  revert prev i. induction s as [|c s IH]; intros prev i; simpl.
  - destruct (match_at r prev []) as [[n caps]|] eqn:E; [|done].
    intros [= <-]. by exists prev, [].
  - destruct (match_at r prev (c :: s)) as [[n caps]|] eqn:E.
    + intros [= <-]. by exists prev, (c :: s).
    + intros H. apply IH in H as (prev' & s' & Hlen & H).
      exists prev', s'. split; [lia|done].
Qed.

Lemma int_of_within (limit : nat) (l : list ascii) :
  within limit l -> int_of limit l = Some (decimal l).
Proof.
  unfold within, int_of. intros [-> | Hl]; [done|].
  destruct (Nat.ltb_spec limit (length l)); [lia|]. by rewrite andb_false_r.
Qed.

Lemma search_group_within (p q : ascii -> bool) (limit : nat) (f : string) (m : rmatch) :
  within limit (chars f) ->
  re_search (Seq (Chr p) (Group (Plus q))) f = Some m ->
  int_of limit (Re.group 1 m) = Some (decimal (Re.group 1 m)).
Proof.
  intros Hf Hm. apply int_of_within.
  apply search_from_result in Hm as (prev' & s' & Hlen & Hm).
  apply letter_digits_group in Hm as (g & Hg & Hglen).
  unfold Re.group. rewrite Hg. simpl.
  destruct Hf as [-> | Hf]; [by left|right; lia].
Qed.

Lemma scan_series_file_token (w : world) (f root : string) pre cs ds ce de post
    (sw : series_walk) :
  is_video f = true ->
  within (int_max_str_digits w) (chars f) ->
  token_in f pre cs ds ce de post ->
  exists sm em ep,
    re_search s_re f = Some sm /\ re_search e_re f = Some em
    /\ e_season ep = decimal (Re.group 1 sm)
    /\ e_episode ep = decimal (Re.group 1 em)
    /\ e_id ep = sw_sid sw /\ e_path ep = join root f /\ e_filename ep = f
    /\ scan_series_file w sw (root, f) =
         {| sw_new := append_episode (e_title ep) (e_season ep) ep (sw_new sw);
            sw_sid := (sw_sid sw + 1)%Z |}.
Proof.
  intros Hv Hlim Htok.
  destruct (token_season_found _ _ _ _ _ _ _ Htok) as [sm Hsm].
  destruct (token_episode_found _ _ _ _ _ _ _ Htok) as [em Hem].
  exists sm, em. unfold scan_series_file. rewrite Hv, Hsm, Hem. simpl.
  rewrite (search_group_within _ _ _ f sm Hlim Hsm).
  rewrite (search_group_within _ _ _ f em Hlim Hem).
  destruct (get_smart_title (join root f)) as [c y].
  eexists {| e_id := sw_sid sw; e_title := _; e_season := _; e_episode := _;
             e_path := _; e_filename := _ |}.
  simpl. repeat split.
Qed.

(** C8, as stated, fails: [Se7en.S01E02.mkv] has the token [S01E02] and
    becomes episode 7 of season 1, because the episode number is read
    after the first E or e that a digit follows. *)
Lemma episode_number_of_earlier_letter :
  token_in "Se7en.S01E02.mkv" (chars "Se7en.") "S" (chars "01") "E" (chars "02")
    (chars ".mkv")
  /\ scan_series_file Ex.library_world {| sw_new := []; sw_sid := 1 |}
       ("/series", "Se7en.S01E02.mkv")
     = {| sw_new := [("Se7en", [(1%Z, [{| e_id := 1; e_title := "Se7en";
                                          e_season := 1; e_episode := 7;
                                          e_path := "/series/Se7en.S01E02.mkv";
                                          e_filename := "Se7en.S01E02.mkv" |}])])];
          sw_sid := 2 |}
  /\ decimal (chars "02") = 2%Z.
Proof.
  split; [|split; vm_compute; reflexivity].
  split; try (by left); try reflexivity; split; try done; repeat constructor.
Qed.

(** C8, amended.  A video file whose name has a token [S<digits>E<digits>]
    (and is not longer than the digit strings [int] accepts) is never made
    a movie by the movie walk, and the series walk makes it an episode.
    Its season is the number after the first S or s that a digit follows,
    its episode the number after the first E or e that a digit follows.
    These are the numbers of the token when, before the token, no S or s
    and no E or e is followed by a digit, and no digit follows the token. *)
Theorem episode_files (w : world) (f root : string) pre cs ds ce de post
    (existing by_name : list (string * nat)) (mw : movie_walk) (sw : series_walk) :
  is_video f = true ->
  within (int_max_str_digits w) (chars f) ->
  token_in f pre cs ds ce de post ->
  scan_movie_file existing by_name mw (root, f) = mw
  /\ (exists sm em ep,
        re_search s_re f = Some sm /\ re_search e_re f = Some em
        /\ e_season ep = decimal (Re.group 1 sm)
        /\ e_episode ep = decimal (Re.group 1 em)
        /\ e_id ep = sw_sid sw /\ e_path ep = join root f /\ e_filename ep = f
        /\ scan_series_file w sw (root, f) =
             {| sw_new := append_episode (e_title ep) (e_season ep) ep (sw_new sw);
                sw_sid := (sw_sid sw + 1)%Z |})
  /\ (no_pair (Char.one_of "Ss") Char.is_digit pre None = true ->
      no_pair (Char.one_of "Ee") Char.is_digit pre None = true ->
      stops Char.is_digit post ->
      exists ep,
        e_season ep = decimal ds /\ e_episode ep = decimal de
        /\ scan_series_file w sw (root, f) =
             {| sw_new := append_episode (e_title ep) (e_season ep) ep (sw_new sw);
                sw_sid := (sw_sid sw + 1)%Z |}).
Proof.
  intros Hv Hlim Htok. split; [|split].
  - unfold scan_movie_file. rewrite Hv. simpl.
    unfold episode_re_nocase.
    rewrite (token_found _ _ _ _ _ _ _ _ _ Htok); [done| |].
    + apply (token_s_facts _ _ _ _ _ _ _ Htok).
    + apply (token_e_facts _ _ _ _ _ _ _ Htok).
  - by apply (scan_series_file_token w f root pre cs ds ce de post).
  - intros HS HE Hpost.
    destruct (scan_series_file_token w f root pre cs ds ce de post sw Hv Hlim Htok)
      as (sm & em & ep & Hsm & Hem & Hs & He & _ & _ & _ & Hscan).
    rewrite (token_season_first _ _ _ _ _ _ _ Htok HS) in Hsm.
    rewrite (token_episode_first _ _ _ _ _ _ _ Htok HE Hpost) in Hem.
    injection Hsm as <-. injection Hem as <-.
    exists ep. done.
Qed.

Lemma episode_files_witness :
  exists ep,
    e_season ep = decimal (chars "02") /\ e_episode ep = decimal (chars "05")
    /\ scan_series_file Ex.library_world {| sw_new := []; sw_sid := 1 |}
         ("/series", "Show.Name.S02E05.WEBRip.mkv") =
       {| sw_new := append_episode (e_title ep) (e_season ep) ep [];
          sw_sid := (1 + 1)%Z |}.
Proof.
  refine (proj2 (proj2 (episode_files Ex.library_world
           "Show.Name.S02E05.WEBRip.mkv" "/series"
           (chars "Show.Name.") "S" (chars "02") "E" (chars "05") (chars ".WEBRip.mkv")
           [] [] {| mw_heap := []; mw_queue := []; mw_new := []; mw_mid := 1 |}
           {| sw_new := []; sw_sid := 1 |} _ _ _)) _ _ _).
  - reflexivity.
  - right. vm_compute. lia.
  - split; [reflexivity|by left|by left|split; [done|repeat constructor]
           |split; [done|repeat constructor]].
  - reflexivity.
  - reflexivity.
  - reflexivity.
Defined.

(** ** The year in a file name *)

(** C7.  In [Inception.2010.mkv] the year 2010 stands between two dots.
    [get_smart_title] looks for the year in the name without its
    extension, [Inception.2010], where nothing follows the year, finds
    none, and returns the title [Inception 2010] with an empty year.  With
    more text between the year and the extension the year is found. *)
Theorem year_before_extension_is_missed :
  fst (splitext (basename "Inception.2010.mkv")) = "Inception.2010"
  /\ re_search year_re "Inception.2010" = None
  /\ get_smart_title "Inception.2010.mkv" = (["Inception 2010"], "")
  /\ Backend.get_smart_title "Inception.2010.mkv" = ("Inception 2010", "")
  /\ get_smart_title "Inception.2010.1080p.BluRay.x264.mkv" = (["Inception"], "2010").
Proof. repeat split; vm_compute; reflexivity. Qed.

(** ** The cache file *)

Lemma mapM_map_Some {A B} (f : B -> option A) (g : A -> B) (l : list A) :
  (forall x, f (g x) = Some x) -> mapM f (map g l) = Some l.
Proof.
  intros H. apply mapM_Some. induction l; constructor; auto.
Qed.

Lemma info_of_movie_json (m : movie) : info_of
  ([("id", JInt (m_id m)); ("path", JStr (m_path m))] ++ info_json (m_info m))
  = Some (m_info m).
Proof.
  destruct m as [n p [t c y po r pl g]]. unfold info_json, info_of. simpl.
  destruct c as [c|], y, po, r, pl, g; simpl;
    try (rewrite (mapM_map_Some as_str JStr) by done); reflexivity.
Qed.

Lemma movie_of_json (m : movie) : movie_of (movie_json m) = Some m.
Proof.
  unfold movie_of, movie_json. rewrite info_of_movie_json. by destruct m.
Qed.

Lemma meta_of_json (m : meta) : meta_of (meta_json m) = Some m.
Proof.
  destruct m as [n [t c y po r pl g]]. unfold meta_of, meta_json, info_json, info_of.
  simpl.
  destruct c as [c|], y, po, r, pl, g; simpl;
    try (rewrite (mapM_map_Some as_str JStr) by done); reflexivity.
Qed.

Lemma episode_of_json (e : episode) : episode_of (episode_json e) = Some e.
Proof. by destruct e. Qed.

Lemma mapM_map_Some_gen {A B C} (f : B -> option C) (g : A -> B) (g' : A -> C)
    (l : list A) :
  (forall x, f (g x) = Some (g' x)) -> mapM f (map g l) = Some (map g' l).
Proof.
  intros H. apply mapM_Some. induction l; constructor; auto.
Qed.

Lemma seasons_of_json (s : seasons) :
  seasons_of (seasons_json s) = Some (ByStr (seasons_view s)).
Proof.
  unfold seasons_of, seasons_json, seasons_view.
  destruct s as [d|d]; simpl.
  - rewrite (mapM_map_Some_gen _ _ (fun kv => (str_of_Z kv.1, kv.2))); [done|].
    intros [k eps]. simpl. by rewrite mapM_map_Some by apply episode_of_json.
  - rewrite (mapM_map_Some_gen _ _ (fun kv => kv)); [by rewrite map_id|].
    intros [k eps]. simpl. by rewrite mapM_map_Some by apply episode_of_json.
Qed.

Lemma series_of_json (h : list meta) (s : series) :
  series_of (series_json h s) = Some (read_back h s).
Proof.
  destruct s as [po r pl y g ss m]. unfold series_of, series_json, read_back.
  simpl s_meta. simpl s_seasons.
  pose proof (seasons_of_json ss) as Hss.
  generalize dependent (seasons_json ss). intros sj Hss.
  destruct m as [l|].
  - pose proof (meta_of_json (meta_at h l)) as Hm.
    generalize dependent (meta_json (meta_at h l)). intros mj Hm.
    destruct po, r, pl, y, g; simpl; rewrite Hss; simpl; rewrite Hm; reflexivity.
  - destruct po, r, pl, y, g; simpl; rewrite Hss; reflexivity.
Qed.

Lemma view_series_app (h h' : list meta) (s : series) :
  (forall l, s_meta s = Some l -> l < length h) ->
  view_series (h ++ h') s = view_series h s.
Proof.
  intros Hl. unfold view_series. f_equal.
  destruct (s_meta s) as [l|]; [|done]. simpl. f_equal.
  unfold meta_at. by rewrite lookup_app_l by auto.
Qed.

Lemma place_meta_fold (h : list meta) (sd : list (string * series))
    (hacc : list meta) (sacc : list (string * series)) :
  metas_in hacc sacc ->
  let r := fold_left place_meta (map (fun kv => (kv.1, read_back h kv.2)) sd)
             (hacc, sacc) in
  map (fun kv => (kv.1, view_series r.1 kv.2)) r.2 =
    map (fun kv => (kv.1, view_series hacc kv.2)) sacc
    ++ map (fun kv => (kv.1, view_series h kv.2)) sd.
Proof.
  revert hacc sacc. induction sd as [|[name s] sd IH]; intros hacc sacc Hin; simpl.
  - by rewrite app_nil_r.
  - destruct (s_meta s) as [l|] eqn:Hm; simpl.
    + rewrite IH.
      * rewrite map_app. simpl. rewrite <- app_assoc. simpl. f_equal.
        { apply map_ext_Forall. eapply Forall_impl; [exact Hin|].
          intros [k s'] Hs'. simpl in *. f_equal. by apply view_series_app. }
        f_equal. f_equal. unfold view_series. simpl. rewrite Hm. simpl.
        f_equal. f_equal. unfold meta_at.
        by rewrite lookup_app_r, Nat.sub_diag by lia.
      * apply Forall_app. split.
        { eapply Forall_impl; [exact Hin|]. intros [k s'] Hs' l' Hl'.
          rewrite length_app. simpl in *. specialize (Hs' _ Hl'). lia. }
        constructor; [|done]. simpl. intros l' [= <-]. rewrite length_app. simpl. lia.
    + rewrite IH.
      * rewrite map_app. simpl. rewrite <- app_assoc. simpl. do 3 f_equal.
        unfold view_series. simpl. by rewrite Hm.
      * apply Forall_app. split; [done|]. constructor; [|done].
        simpl. intros l' [=].
Qed.

(** Start-up reads a catalog with the same content from a file that
    holds the snapshot of [st]. *)
Lemma startup_reads_snapshot (w : world) (st : state) (c : config) :
  cache_file w = Some (snapshot_json st) ->
  exists st', startup w c = Some st' /\ catalog_view st' = catalog_view st.
Proof.
  intros Hfile. unfold startup, load_cache. rewrite Hfile. simpl.
  rewrite (mapM_map_Some_gen movie_of _ (movie_at (movie_heap st)))
    by (intros; apply movie_of_json).
  simpl.
  rewrite (mapM_map_Some_gen _ _ (fun kv => (kv.1, read_back (meta_heap st) kv.2)))
    by (intros [k s]; cbn [fst snd]; by rewrite series_of_json).
  simpl.
  pose proof (place_meta_fold (meta_heap st) (series_data st) [] [] (Forall_nil_2 _))
    as Hfold. simpl in Hfold.
  destruct (fold_left place_meta _ ([], [])) as [metas sd'].
  eexists. split; [reflexivity|].
  unfold catalog_view. simpl. f_equal; [|exact Hfold].
  generalize (map (movie_at (movie_heap st)) (movies_data st)). intros ms.
  apply list_eq. intros i. rewrite list_lookup_fmap.
  destruct (decide (i < length ms)) as [Hi|Hi].
  - rewrite lookup_seq_lt by done. simpl. unfold movie_at.
    destruct (lookup_lt_is_Some_2 ms i Hi) as [m Hm].
    change (0 + i) with i. rewrite Hm. reflexivity.
  - rewrite lookup_seq_ge by lia. simpl. symmetry. apply lookup_ge_None. lia.
Qed.



(** The keys of a season table stay distinct when [json.dump] turns them
    into strings. *)
Lemma to_int_norm (z : Z) : Z.to_int z = Decimal.norm (Z.to_int z).
Proof. by rewrite <- DecimalZ.to_of, DecimalZ.of_to. Qed.

Lemma str_of_Z_inj (a b : Z) : str_of_Z a = str_of_Z b -> a = b.
Proof.
  unfold str_of_Z. intros H.
  assert (forall z, NilZero.int_of_string (NilZero.string_of_int (Z.to_int z))
                    = Some (Z.to_int z)) as Hisi.
  { intros z. apply NilZero.isi; intros E; pose proof (to_int_norm z) as Hn;
      rewrite E in Hn; discriminate Hn. }
  apply DecimalZ.to_int_inj.
  pose proof (Hisi a) as Ha. rewrite H, Hisi in Ha. congruence.
Qed.

Lemma seasons_view_keys (d : list (Z * list episode)) :
  NoDup (map fst d) -> NoDup (map fst (seasons_view (ByInt d))).
Proof.
  simpl. rewrite map_map. simpl. intros Hd.
  change (NoDup (map (fun kv : Z * list episode => str_of_Z kv.1) d)).
  rewrite <- (map_map fst str_of_Z).
  apply NoDup_fmap_2; [|done]. intros a b. apply str_of_Z_inj.
Qed.

(** ** Dictionaries *)

Section DictFacts.
Context {K V : Type} `{EqDecision K}.
Implicit Types (d : list (K * V)) (k : K) (v : V).

Lemma dict_get_set k k' v d :
  Dict.get k (Dict.set k' v d) = if decide (k = k') then Some v else Dict.get k d.
Proof.
  induction d as [|[k0 v0] d IH]; simpl.
  - by destruct (decide (k = k')).
  - destruct (decide (k' = k0)) as [->|Hne]; simpl.
    + by destruct (decide (k = k0)).
    + destruct (decide (k = k0)) as [->|Hne'].
      * by rewrite decide_False by done.
      * exact IH.
Qed.

Lemma dict_get_app k d1 d2 :
  Dict.get k (d1 ++ d2) =
    match Dict.get k d1 with Some v => Some v | None => Dict.get k d2 end.
Proof.
  induction d1 as [|[k0 v0] d1 IH]; [done|]. simpl.
  by destruct (decide (k = k0)).
Qed.

(** after [d.update(new)] a key has the last value [new] gives it *)
Lemma dict_get_update k d new :
  Dict.get k (Dict.update d new) =
    match Dict.get k (reverse new) with Some v => Some v | None => Dict.get k d end.
Proof.
  unfold Dict.update. revert d.
  induction new as [|[k0 v0] new IH]; intros d; [done|]. simpl.
  rewrite IH, reverse_cons, dict_get_app, dict_get_set. simpl.
  destruct (Dict.get k (reverse new)); [done|]. by destruct (decide (k = k0)).
Qed.

Lemma dict_get_Some k v d : Dict.get k d = Some v -> (k, v) ∈ d.
Proof.
  induction d as [|[k0 v0] d IH]; [done|]. simpl.
  destruct (decide (k = k0)) as [->|Hne].
  - intros [= ->]. left.
  - intros H. right. auto.
Qed.

Lemma dict_get_None k d : Dict.get k d = None <-> k ∉ Dict.keys d.
Proof.
  unfold Dict.keys. induction d as [|[k0 v0] d IH]; simpl.
  - split; [intros _; apply not_elem_of_nil|done].
  - rewrite not_elem_of_cons. destruct (decide (k = k0)) as [->|Hne].
    + split; [done|]. by intros [? _].
    + rewrite IH. tauto.
Qed.

Lemma dict_get_NoDup k v d :
  NoDup (Dict.keys d) -> (k, v) ∈ d -> Dict.get k d = Some v.
Proof.
  unfold Dict.keys. induction d as [|[k0 v0] d IH]; simpl.
  - intros _ H. by apply elem_of_nil in H.
  - intros Hnd H. apply NoDup_cons in Hnd as [Hk0 Hnd].
    apply elem_of_cons in H as [[= -> ->]|H].
    + by rewrite decide_True.
    + rewrite decide_False; [by apply IH|].
      intros ->. apply Hk0. apply list_elem_of_fmap. by exists (k0, v).
Qed.

Lemma dict_keys_set k v d :
  Dict.keys (Dict.set k v d) =
    if decide (k ∈ Dict.keys d) then Dict.keys d else Dict.keys d ++ [k].
Proof.
  unfold Dict.keys. induction d as [|[k0 v0] d IH]; simpl.
  - done.
  - destruct (decide (k = k0)) as [->|Hne]; simpl.
    + clear IH. case_decide as H; [done|]. exfalso. apply H. left.
    + rewrite IH. clear IH. destruct (decide (k ∈ map fst d)) as [Hin|Hin].
      * case_decide as H; [done|]. exfalso. apply H. by right.
      * case_decide as H; [|done].
        apply elem_of_cons in H as [H|H]; done.
Qed.

Lemma dict_set_NoDup k v d : NoDup (Dict.keys d) -> NoDup (Dict.keys (Dict.set k v d)).
Proof.
  intros Hd. rewrite dict_keys_set. destruct (decide (k ∈ Dict.keys d)); [done|].
  apply NoDup_app. split; [done|]. split; [|apply NoDup_singleton].
  intros x Hx Hx'. apply list_elem_of_singleton in Hx'. by subst.
Qed.

Lemma dict_update_NoDup d new :
  NoDup (Dict.keys d) -> NoDup (Dict.keys (Dict.update d new)).
Proof.
  unfold Dict.update. revert d. induction new as [|[k v] new IH]; intros d Hd; [done|].
  simpl. apply IH. by apply dict_set_NoDup.
Qed.

Lemma dict_get_reverse k d :
  NoDup (Dict.keys d) -> Dict.get k (reverse d) = Dict.get k d.
Proof.
  intros Hd. destruct (Dict.get k d) as [v|] eqn:E.
  - apply dict_get_NoDup.
    + unfold Dict.keys. change (NoDup (fst <$> reverse d)).
      rewrite fmap_reverse. by rewrite reverse_Permutation.
    + apply elem_of_reverse. by apply dict_get_Some.
  - apply dict_get_None. apply dict_get_None in E.
    unfold Dict.keys in *. change (k ∉ fst <$> reverse d).
    by rewrite fmap_reverse, elem_of_reverse.
Qed.
End DictFacts.

(** the table [{key(l): l for l in ls}] *)
Lemma dict_of_list_get {K} `{EqDecision K} (key : nat -> K) (ls : list nat) (k : K) (l : nat) :
  Dict.get k (Dict.update [] (map (fun l => (key l, l)) ls)) = Some l ->
  l ∈ ls /\ key l = k.
Proof.
  rewrite dict_get_update. simpl.
  destruct (Dict.get k (reverse _)) as [l'|] eqn:E; [|done]. intros [= ->].
  apply dict_get_Some, elem_of_reverse, list_elem_of_fmap in E as (x & [= -> ->] & Hx).
  done.
Qed.

Lemma dict_of_list_get_NoDup {K} `{EqDecision K} (key : nat -> K) (ls : list nat) (l : nat) :
  NoDup (map key ls) -> l ∈ ls ->
  Dict.get (key l) (Dict.update [] (map (fun l => (key l, l)) ls)) = Some l.
Proof.
  intros Hnd Hl. rewrite dict_get_update. simpl.
  rewrite dict_get_reverse.
  - erewrite dict_get_NoDup; [done| |].
    + unfold Dict.keys. by rewrite map_map.
    + apply list_elem_of_fmap. by exists l.
  - unfold Dict.keys. by rewrite map_map.
Qed.

(** ** The movie walk *)

Lemma fold_left_inv {A B} (P : list B -> A -> Prop) (f : A -> B -> A)
    (l : list B) (a : A) :
  P [] a ->
  (forall pre x a', P pre a' -> P (pre ++ [x]) (f a' x)) ->
  P l (fold_left f l a).
Proof.
  intros H0 Hstep.
  assert (forall pre a', P pre a' -> P (pre ++ l) (fold_left f l a')) as H.
  { induction l as [|x l IH]; intros pre a' Hp; simpl.
    - by rewrite app_nil_r.
    - replace (pre ++ x :: l) with ((pre ++ [x]) ++ l) by (by rewrite <- app_assoc).
      apply IH. by apply Hstep. }
  exact (H [] a H0).
Qed.

Lemma movie_paths_snoc files rf :
  movie_paths (files ++ [rf]) =
    movie_paths files ++ (if movie_file rf.2 then [join rf.1 rf.2] else []).
Proof.
  unfold movie_paths. rewrite List.filter_app, map_app. simpl.
  by destruct (movie_file rf.2).
Qed.

(** the four ways the body of the loop can go *)
Lemma scan_movie_file_cases existing by_name (a : movie_walk) (root f : string) :
  let a' := scan_movie_file existing by_name a (root, f) in
  let path := join root f in
  (movie_file f = false /\ a' = a)
  \/ (movie_file f = true /\ exists l,
        Dict.get path existing = Some l
        /\ mw_heap a' = mw_heap a /\ mw_mid a' = mw_mid a
        /\ mw_new a' = mw_new a ++ [l]
        /\ (mw_queue a' = mw_queue a
            \/ mw_queue a' = mw_queue a ++ [MovieRef l]
               /\ truthy_opt (rating (m_info (movie_at (mw_heap a) l))) = false))
  \/ (movie_file f = true /\ exists l,
        Dict.get path existing = None /\ Dict.get f by_name = Some l
        /\ mw_heap a' = set_path (mw_heap a) l path /\ mw_mid a' = mw_mid a
        /\ mw_new a' = mw_new a ++ [l]
        /\ (mw_queue a' = mw_queue a
            \/ mw_queue a' = mw_queue a ++ [MovieRef l]
               /\ truthy_opt (rating (m_info (movie_at (mw_heap a') l))) = false))
  \/ (movie_file f = true
      /\ Dict.get path existing = None /\ Dict.get f by_name = None
      /\ (exists m, mw_heap a' = mw_heap a ++ [m] /\ m_path m = path
                    /\ m_id m = mw_mid a /\ rating (m_info m) = Some "")
      /\ mw_mid a' = (mw_mid a + 1)%Z
      /\ mw_new a' = mw_new a ++ [length (mw_heap a)]
      /\ mw_queue a' = mw_queue a ++ [MovieRef (length (mw_heap a))]).
Proof.
  intros a' path. subst a'. unfold scan_movie_file, movie_file. fold path.
  destruct (is_video f); simpl; [|by left].
  destruct (found (re_search episode_re_nocase f)); simpl; [by left|].
  right.
  destruct (Dict.get path existing) as [l|] eqn:Hex.
  - left. split; [done|]. exists l. simpl. repeat split.
    destruct (truthy_opt _) eqn:E; simpl; [by left|by right].
  - right. destruct (Dict.get f by_name) as [l|] eqn:Hbn.
    + left. split; [done|]. exists l. simpl. repeat split.
      destruct (truthy_opt _) eqn:E; simpl; [by left|by right].
    + right. split; [done|]. destruct (get_smart_title path) as [c y]. simpl.
      repeat split. eexists. repeat split.
Qed.

Lemma movie_at_set_path (h : list movie) (l l' : nat) (p : string) :
  m_id (movie_at (set_path h l p) l') = m_id (movie_at h l')
  /\ m_info (movie_at (set_path h l p) l') = m_info (movie_at h l')
  /\ (path_at (set_path h l p) l' = path_at h l'
      \/ l' = l /\ l < length h /\ path_at (set_path h l p) l' = p).
Proof.
  unfold set_path, path_at, movie_at.
  destruct (decide (l' = l)) as [->|Hne].
  - destruct (decide (l < length h)) as [Hl|Hl].
    + rewrite list_lookup_insert_eq by done. simpl. repeat split. by right; repeat split.
    + rewrite list_insert_ge by lia. repeat split. by left.
  - rewrite list_lookup_insert_ne by done. repeat split. by left.
Qed.

Lemma length_set_path (h : list movie) (l : nat) (p : string) :
  length (set_path h l p) = length h.
Proof. unfold set_path. apply length_insert. Qed.

Lemma movie_at_app (h : list movie) (m : movie) (l : nat) :
  (l < length h /\ movie_at (h ++ [m]) l = movie_at h l)
  \/ (l = length h /\ movie_at (h ++ [m]) l = m)
  \/ (length h < l /\ movie_at (h ++ [m]) l = dummy_movie /\ movie_at h l = dummy_movie).
Proof.
  unfold movie_at. destruct (lt_eq_lt_dec l (length h)) as [[Hl| ->]|Hl].
  - left. by rewrite lookup_app_l.
  - right. left. by rewrite lookup_app_r, Nat.sub_diag.
  - right. right. split; [done|].
    rewrite !(proj2 (lookup_ge_None _ _)); [done|lia|rewrite length_app; simpl; lia].
Qed.

Lemma path_at_set_path_eq (h : list movie) (l : nat) (p : string) :
  l < length h -> path_at (set_path h l p) l = p.
Proof.
  intros Hl. unfold set_path, path_at, movie_at.
  by rewrite list_lookup_insert_eq.
Qed.

Section MovieWalk.
Variables (h0 : list movie) (q0 : list item_ref).
Variables (existing by_name : list (string * nat)).
Hypothesis Hexisting : forall p l,
  Dict.get p existing = Some l -> l < length h0 /\ path_at h0 l = p.
Hypothesis Hby_name : forall f l, Dict.get f by_name = Some l -> l < length h0.

Lemma walk_inv_step pre rf a :
  walk_inv h0 q0 pre a ->
  walk_inv h0 q0 (pre ++ [rf]) (scan_movie_file existing by_name a rf).
Proof using Hexisting Hby_name.
  intros [Hlen Hsame Hpaths Hcount Hnew (added & Hq & Hadded)].
  destruct rf as [root f].
  pose proof (movie_paths_snoc pre (root, f)) as Hsnoc. simpl in Hsnoc.
  destruct (scan_movie_file_cases existing by_name a root f)
    as [[Hf ->]|[[Hf (l & Hex & Hh & _ & Hn & Hqueue)]
       |[[Hf (l & Hex & Hbn & Hh & _ & Hn & Hqueue)]
        |(Hf & Hex & Hbn & (m & Hh & Hmp & _ & Hmr) & _ & Hn & Hqueue)]]];
    rewrite Hf in Hsnoc.
  - (* not a movie file *)
    rewrite app_nil_r in Hsnoc. split; rewrite ?Hsnoc; eauto.
  - (* found by its path *)
    destruct (Hexisting _ _ Hex) as [Hl Hp].
    split; rewrite ?Hh, ?Hn, ?Hsnoc.
    + done.
    + done.
    + intros l' Hl'. destruct (Hpaths l' Hl') as [?|?]; [by left|right].
      apply elem_of_app. by left.
    + rewrite !length_app, Hcount. done.
    + apply Forall_app. split.
      * eapply Forall_impl; [exact Hnew|]. intros l' [? ?]. split; [done|].
        apply elem_of_app. by left.
      * constructor; [|done]. split; [lia|].
        destruct (Hpaths l ltac:(lia)) as [[_ E]|?]; apply elem_of_app.
        -- right. rewrite E, Hp. by left.
        -- by left.
    + destruct Hqueue as [->|[-> Hr]].
      * by exists added.
      * exists (added ++ [MovieRef l]). rewrite Hq, <- app_assoc. split; [done|].
        apply Forall_app. split; [done|]. constructor; [|done]. by exists l.
  - (* found by its name *)
    pose proof (Hby_name _ _ Hbn) as Hl.
    assert (forall l', path_at (set_path (mw_heap a) l (join root f)) l'
              = path_at (mw_heap a) l'
            \/ path_at (set_path (mw_heap a) l (join root f)) l' = join root f)
      as Hpath.
    { intros l'. destruct (movie_at_set_path (mw_heap a) l l' (join root f))
        as (_ & _ & [?|(_ & _ & ?)]); auto. }
    assert (forall l', m_info (movie_at (set_path (mw_heap a) l (join root f)) l')
              = m_info (movie_at (mw_heap a) l')) as Hinfo.
    { intros l'. apply movie_at_set_path. }
    split; rewrite ?Hh, ?Hn, ?length_set_path, ?Hsnoc.
    + done.
    + intros l' Hl'. destruct (movie_at_set_path (mw_heap a) l l' (join root f))
        as (-> & -> & _). by apply Hsame.
    + intros l' Hl'. destruct (Hpath l') as [-> | ->].
      * destruct (Hpaths l' Hl') as [?|?]; [by left|right].
        apply elem_of_app. by left.
      * right. apply elem_of_app. right. left.
    + rewrite !length_app, Hcount. done.
    + apply Forall_app. split.
      * eapply Forall_impl; [exact Hnew|]. intros l' [? ?]. split; [done|].
        apply elem_of_app. destruct (Hpath l') as [-> | ->]; [by left|right; left].
      * constructor; [|done]. split; [lia|].
        rewrite path_at_set_path_eq by lia. apply elem_of_app. right. left.
    + rewrite Hh in Hqueue. destruct Hqueue as [->|[-> Hr]].
      * exists added. split; [done|]. eapply Forall_impl; [exact Hadded|].
        intros r (l' & -> & ?). exists l'. by rewrite Hinfo.
      * exists (added ++ [MovieRef l]). rewrite Hq, <- app_assoc. split; [done|].
        apply Forall_app. split.
        -- eapply Forall_impl; [exact Hadded|].
           intros r (l' & -> & ?). exists l'. by rewrite Hinfo.
        -- constructor; [|done]. by exists l.
  - (* a new movie *)
    assert (forall l', truthy_opt (rating (m_info (movie_at (mw_heap a) l'))) = false ->
              truthy_opt (rating (m_info (movie_at (mw_heap a ++ [m]) l'))) = false)
      as Hunrated.
    { intros l' Hr. destruct (movie_at_app (mw_heap a) m l')
        as [[_ ->]|[[_ ->]|(_ & -> & _)]]; [done|by rewrite Hmr|done]. }
    split; rewrite ?Hh, ?Hn, ?Hqueue, ?Hsnoc, ?length_app; simpl.
    + lia.
    + intros l' Hl'. destruct (movie_at_app (mw_heap a) m l')
        as [[_ ->]|[[? _]|[? _]]]; [by apply Hsame|lia|lia].
    + intros l' Hl'. unfold path_at in *.
      destruct (movie_at_app (mw_heap a) m l') as [[? ->]|[[_ ->]|[? _]]]; [| |lia].
      * destruct (Hpaths l' ltac:(done)) as [?|?]; [by left|right].
        apply elem_of_app. by left.
      * right. rewrite Hmp. apply elem_of_app. right. left.
    + rewrite Hcount. done.
    + apply Forall_app. split.
      * eapply Forall_impl; [exact Hnew|]. intros l' [? ?]. split; [lia|].
        unfold path_at in *.
        destruct (movie_at_app (mw_heap a) m l') as [[? ->]|[[? _]|[? _]]]; [|lia|lia].
        apply elem_of_app. by left.
      * constructor; [|done]. split; [lia|]. unfold path_at.
        destruct (movie_at_app (mw_heap a) m (length (mw_heap a)))
          as [[? _]|[[_ ->]|[? _]]]; [lia| |lia].
        rewrite Hmp. apply elem_of_app. right. left.
    + exists (added ++ [MovieRef (length (mw_heap a))]).
      rewrite Hq, <- app_assoc. split; [done|].
      apply Forall_app. split.
      * eapply Forall_impl; [exact Hadded|].
        intros r (l' & -> & ?). exists l'. split; [done|]. by apply Hunrated.
      * constructor; [|done]. eexists. split; [done|].
        destruct (movie_at_app (mw_heap a) m (length (mw_heap a)))
          as [[? _]|[[_ ->]|[? _]]]; [lia| |lia].
        by rewrite Hmr.
Qed.

Lemma walk_inv_fold files (mid0 : Z) :
  walk_inv h0 q0 files
    (fold_left (scan_movie_file existing by_name) files
       {| mw_heap := h0; mw_queue := q0; mw_new := []; mw_mid := mid0 |}).
Proof using Hexisting Hby_name.
  apply (fold_left_inv (walk_inv h0 q0)).
  - split; simpl; try done.
    + intros l Hl. by left.
    + exists []. by rewrite app_nil_r.
  - intros pre x a' Ha'. by apply walk_inv_step.
Qed.
End MovieWalk.

(** When every movie file of the walk is found by its path, the walk
    changes no object and makes none. *)
Lemma walk_unchanged existing by_name (files : list (string * string)) (a : movie_walk) :
  (forall rf, rf ∈ files -> movie_file rf.2 = true ->
     is_Some (Dict.get (join rf.1 rf.2) existing)) ->
  let a' := fold_left (scan_movie_file existing by_name) files a in
  mw_heap a' = mw_heap a /\ mw_mid a' = mw_mid a
  /\ (forall l, l ∈ mw_new a -> l ∈ mw_new a')
  /\ (forall rf l, rf ∈ files -> movie_file rf.2 = true ->
        Dict.get (join rf.1 rf.2) existing = Some l -> l ∈ mw_new a').
Proof.
  revert a. induction files as [|[root f] files IH]; intros a Hall; cbn [fold_left].
  - split; [done|]. split; [done|]. split; [done|].
    intros rf l Hrf. by apply elem_of_nil in Hrf.
  - assert (forall rf, rf ∈ files -> movie_file rf.2 = true ->
              is_Some (Dict.get (join rf.1 rf.2) existing)) as Hall'
      by (intros rf Hrf; apply Hall; by right).
    destruct (IH (scan_movie_file existing by_name a (root, f)) Hall')
      as (Hh & Hm & Hkeep & Hfound). clear IH.
    destruct (scan_movie_file_cases existing by_name a root f)
      as [[Hf Ha]|[[Hf (l & Hex & Hh' & Hm' & Hn & _)]
         |[[Hf (l & Hex & _)]|(Hf & Hex & _)]]].
    + rewrite Ha in *. split; [done|]. split; [done|]. split; [done|].
      intros rf l' Hrf Hmf Hget. apply elem_of_cons in Hrf as [->|Hrf].
      * simpl in Hmf. congruence.
      * by apply (Hfound rf).
    + rewrite Hh, Hm, Hh', Hm'. split; [done|]. split; [done|]. split.
      * intros l' Hl'. apply Hkeep. rewrite Hn. apply elem_of_app. by left.
      * intros rf l' Hrf Hmf Hget. apply elem_of_cons in Hrf as [->|Hrf].
        -- simpl in Hget. rewrite Hex in Hget. injection Hget as <-.
           apply Hkeep. rewrite Hn. apply elem_of_app. right. left.
        -- by apply (Hfound rf).
    + destruct (Hall (root, f) ltac:(left) Hf) as [l' Hl']. simpl in Hl'. congruence.
    + destruct (Hall (root, f) ltac:(left) Hf) as [l' Hl']. simpl in Hl'. congruence.
Qed.

(** ** The series walk *)

Lemma dict_set_elem {K V} `{EqDecision K} (k k' : K) (v v' : V) (d : list (K * V)) :
  (k', v') ∈ Dict.set k v d -> (k', v') = (k, v) \/ (k', v') ∈ d.
Proof.
  induction d as [|[k0 v0] d IH]; simpl.
  - intros H. apply list_elem_of_singleton in H. by left.
  - destruct (decide (k = k0)) as [->|Hne]; intros H;
      apply elem_of_cons in H as [H|H].
    + by left.
    + right. by right.
    + right. rewrite H. left.
    + destruct (IH H) as [?|?]; [by left|right; by right].
Qed.

Lemma elem_of_concat {A} (x : A) (ls : list (list A)) :
  x ∈ concat ls <-> exists l, l ∈ ls /\ x ∈ l.
Proof.
  induction ls as [|l ls IH]; simpl.
  - split; [intros H; by apply elem_of_nil in H|].
    intros (l & H & _). by apply elem_of_nil in H.
  - rewrite elem_of_app, IH. split.
    + intros [H|(l' & H & H')]; [exists l; split; [left|done]|].
      exists l'. split; [by right|done].
    + intros (l' & H & H'). apply elem_of_cons in H as [->|H]; [by left|].
      right. by exists l'.
Qed.

Lemma elem_of_episodes_of (ep : episode) (seasons : list (Z * list episode)) :
  ep ∈ episodes_of seasons <-> exists s eps, (s, eps) ∈ seasons /\ ep ∈ eps.
Proof.
  unfold episodes_of, Dict.values. rewrite elem_of_concat. split.
  - intros (eps & Heps & Hep). apply list_elem_of_fmap in Heps as ([s eps'] & -> & Hin).
    simpl in *. by exists s, eps'.
  - intros (s & eps & Hin & Hep). exists eps. split; [|done].
    apply list_elem_of_fmap. by exists (s, eps).
Qed.

(** the episodes of the table after [new_series[sname][s].append(ep)] *)
Lemma append_episode_elem sname s ep d name seasons ep' :
  (name, seasons) ∈ append_episode sname s ep d ->
  ep' ∈ episodes_of seasons ->
  ep' = ep \/ exists seasons0, (name, seasons0) ∈ d /\ ep' ∈ episodes_of seasons0.
Proof.
  unfold append_episode. intros Hin Hep.
  apply dict_set_elem in Hin as [[= -> ->]|Hin]; [|right; by exists seasons].
  apply elem_of_episodes_of in Hep as (s' & eps' & Hs' & Hep).
  apply dict_set_elem in Hs' as [[= -> ->]|Hs'].
  - apply elem_of_app in Hep as [Hep|Hep]; [|apply list_elem_of_singleton in Hep; by left].
    right. destruct (Dict.get sname d) as [seasons0|] eqn:Hd; simpl in *.
    + exists seasons0. split; [by apply dict_get_Some|].
      destruct (Dict.get s seasons0) as [eps0|] eqn:Hs; simpl in *.
      * apply elem_of_episodes_of. exists s, eps0. split; [by apply dict_get_Some|done].
      * by apply elem_of_nil in Hep.
    + by apply elem_of_nil in Hep.
  - right. destruct (Dict.get sname d) as [seasons0|] eqn:Hd; simpl in *.
    + exists seasons0. split; [by apply dict_get_Some|].
      apply elem_of_episodes_of. by exists s', eps'.
    + by apply elem_of_nil in Hs'.
Qed.

Lemma scan_series_file_cases (w : world) (a : series_walk) (rf : string * string) :
  scan_series_file w a rf = a
  \/ exists sname s ep,
       e_id ep = sw_sid a
       /\ scan_series_file w a rf =
            {| sw_new := append_episode sname s ep (sw_new a);
               sw_sid := (sw_sid a + 1)%Z |}.
Proof.
  destruct rf as [root f]. unfold scan_series_file.
  destruct (negb (is_video f)); [by left|].
  destruct (or_else _ _) as [sm|]; [|by left].
  destruct (or_else _ _) as [em|]; [|by left].
  destruct (int_of _ (Re.group 1 sm)) as [s|]; [|by left].
  destruct (int_of _ (Re.group 1 em)) as [e|]; [|by left].
  destruct (get_smart_title _) as [c y]. right.
  eexists _, _, {| e_id := sw_sid a; e_title := _; e_season := _; e_episode := _;
                   e_path := _; e_filename := _ |}.
  split; reflexivity.
Qed.

Lemma series_inv_fold (w : world) (sid0 : Z) (files : list (string * string)) :
  series_inv sid0
    (fold_left (scan_series_file w) files {| sw_new := []; sw_sid := sid0 |}).
Proof.
  apply (fold_left_inv (fun _ => series_inv sid0)).
  - split; simpl; [lia|constructor|].
    intros name seasons ep H. by apply elem_of_nil in H.
  - intros _ rf a [Hsid Hkeys Hids].
    destruct (scan_series_file_cases w a rf) as [->|(sname & s & ep & Hid & ->)];
      [done|].
    split; simpl.
    + lia.
    + unfold append_episode. by apply dict_set_NoDup.
    + intros name seasons ep' Hin Hep.
      destruct (append_episode_elem _ _ _ _ _ _ _ Hin Hep) as [->|(seasons0 & Hin0 & Hep0)].
      * lia.
      * specialize (Hids _ _ _ Hin0 Hep0). lia.
Qed.

(** ** The series table *)

Lemma meta_at_app (h : list meta) (m : meta) (l : nat) :
  (l < length h /\ meta_at (h ++ [m]) l = meta_at h l)
  \/ (l = length h /\ meta_at (h ++ [m]) l = m)
  \/ (length h < l /\ meta_at (h ++ [m]) l = dummy_meta /\ meta_at h l = dummy_meta).
Proof.
  unfold meta_at. destruct (lt_eq_lt_dec l (length h)) as [[Hl| ->]|Hl].
  - left. by rewrite lookup_app_l.
  - right. left. by rewrite lookup_app_r, Nat.sub_diag.
  - right. right. split; [done|].
    rewrite !(proj2 (lookup_ge_None _ _)); [done|lia|rewrite length_app; simpl; lia].
Qed.

(** the two ways the body of the loop over the discovered series can go *)
Lemma merge_series_cases old (a : series_merge) name seasons :
  let a' := merge_series old a (name, seasons) in
  (exists s l, Dict.get name (sg_final a') = Some s
     /\ s_seasons s = ByInt seasons /\ s_meta s = Some l)
  /\ (NoDup (Dict.keys (sg_final a)) -> NoDup (Dict.keys (sg_final a')))
  /\ (forall name', name' <> name ->
        Dict.get name' (sg_final a') = Dict.get name' (sg_final a))
  /\ ((sg_heap a' = sg_heap a
       /\ (sg_queue a' = sg_queue a
           \/ exists l, sg_queue a' = sg_queue a ++ [MetaRef l]
                /\ truthy_opt (rating (sm_info (meta_at (sg_heap a) l))) = false))
      \/ (exists m, sg_heap a' = sg_heap a ++ [m] /\ rating (sm_info m) = Some ""
          /\ sg_queue a' = sg_queue a ++ [MetaRef (length (sg_heap a))])).
Proof.
  intros a'. subst a'. unfold merge_series.
  destruct (match Dict.get name old with Some s => s_meta s | None => None end)
    as [l|]; simpl.
  - split; [rewrite dict_get_set, decide_True by done; eauto|].
    split; [by apply dict_set_NoDup|].
    split; [intros name' Hne; by rewrite dict_get_set, decide_False|].
    left. split; [done|].
    destruct (truthy_opt _) eqn:E; simpl; [by left|right; by exists l].
  - split; [rewrite dict_get_set, decide_True by done; eauto|].
    split; [by apply dict_set_NoDup|].
    split; [intros name' Hne; by rewrite dict_get_set, decide_False|].
    right. eexists. repeat split.
Qed.

Lemma merge_inv_fold old (h0 : list meta) (q0 : list item_ref)
    (found : list (string * list (Z * list episode))) :
  merge_inv h0 q0 found
    (fold_left (merge_series old) found
       {| sg_heap := h0; sg_queue := q0; sg_final := [] |}).
Proof.
  apply (fold_left_inv (merge_inv h0 q0)).
  - split; simpl; try done; [constructor|].
    exists []. by rewrite app_nil_r.
  - intros pre [name seasons] a [Hlen Hsame Hkeys Hfinal (added & Hq & Hadded)].
    destruct (merge_series_cases old a name seasons)
      as ((s & l0 & Hget & Hss & _) & Hk & Hother & Hcase).
    split.
    + destruct Hcase as [[-> _]|(m & -> & _)]; [done|]. rewrite length_app. lia.
    + intros l Hl. destruct Hcase as [[-> _]|(m & -> & _)]; [by apply Hsame|].
      destruct (meta_at_app (sg_heap a) m l) as [[_ ->]|[[? _]|[? _]]];
        [by apply Hsame|lia|lia].
    + by apply Hk.
    + intros name'. rewrite reverse_snoc.
      change (Dict.get name' ((name, seasons) :: reverse pre))
        with (if decide (name' = name) then Some seasons
              else Dict.get name' (reverse pre)).
      destruct (decide (name' = name)) as [->|Hne].
      * rewrite Hget. simpl. by rewrite Hss.
      * rewrite Hother by done. apply Hfinal.
    + destruct Hcase as [[Hh [Hqueue|(l & Hqueue & Hr)]]|(m & Hh & Hr & Hqueue)];
        rewrite Hh, Hqueue.
      * by exists added.
      * exists (added ++ [MetaRef l]). rewrite Hq, <- app_assoc. split; [done|].
        apply Forall_app. split; [done|]. constructor; [|done]. by exists l.
      * exists (added ++ [MetaRef (length (sg_heap a))]).
        rewrite Hq, <- app_assoc. split; [done|].
        apply Forall_app. split.
        -- eapply Forall_impl; [exact Hadded|]. intros r (l & -> & Hl).
           exists l. split; [done|].
           destruct (meta_at_app (sg_heap a) m l) as [[_ ->]|[[_ ->]|(_ & -> & _)]];
             [done|by rewrite Hr|done].
        -- constructor; [|done]. eexists. split; [done|].
           destruct (meta_at_app (sg_heap a) m (length (sg_heap a)))
             as [[? _]|[[_ ->]|[? _]]]; [lia|by rewrite Hr|lia].
Qed.

(** ** The scan *)

Lemma if_fold_left {A B} (c : bool) (f : A -> B -> A) (l : list B) (a : A) :
  (if c then fold_left f l a else a) = fold_left f (if c then l else []) a.
Proof. by destruct c. Qed.

Lemma existing_movies_spec (st : state) (key : string -> string) p l :
  movies_allocated st ->
  Dict.get p (Dict.update []
     (map (fun l => (key (m_path (movie_at (movie_heap st) l)), l)) (movies_data st)))
    = Some l ->
  l < length (movie_heap st) /\ key (path_at (movie_heap st) l) = p.
Proof.
  intros Hwf Hget.
  apply (dict_of_list_get (fun l => key (m_path (movie_at (movie_heap st) l)))) in Hget
    as [Hl Hk].
  split; [|done]. unfold movies_allocated in Hwf. rewrite Forall_forall in Hwf. auto.
Qed.

(** the movie part of a scan *)
Lemma scan_videos_movie_walk (w : world) (st : state) :
  movies_allocated st ->
  exists mw files,
    movie_paths files = discovered_movies w st
    /\ walk_inv (movie_heap st) (metadata_queue st) files mw
    /\ movie_heap (scan_videos w st).1 = mw_heap mw
    /\ movies_data (scan_videos w st).1 = mw_new mw
    /\ exists added, metadata_queue (scan_videos w st).1 = mw_queue mw ++ added
         /\ Forall (unrated (scan_videos w st).1) added.
Proof.
  intros Hwf. unfold scan_videos. cbn [fst].
  rewrite (if_fold_left _ (scan_movie_file _ _)).
  set (files := if truthy (movie_dir (cfg st)) && fs_exists w (movie_dir (cfg st))
                then walk_files w (movie_dir (cfg st)) else []).
  set (mw := fold_left _ files _).
  set (sw := if truthy (series_dir (cfg st)) && _ then _ else _).
  exists mw, files. split; [|split; [|split; [done|split; [done|]]]].
  - unfold discovered_movies, files. by destruct (_ && _).
  - apply walk_inv_fold.
    + intros p l Hget. by apply (existing_movies_spec st (fun p => p)) in Hget.
    + intros f l Hget. by apply (existing_movies_spec st basename) in Hget as [? _].
  - cbn [metadata_queue movie_heap meta_heap].
    destruct (merge_inv_fold (series_data st) (meta_heap st) (mw_queue mw) (sw_new sw))
      as [_ _ _ _ (added & Hq & Hadded)].
    exists added. split; [done|].
    eapply Forall_impl; [exact Hadded|]. by intros r (l & -> & Hr).
Qed.

Lemma scan_videos_series (w : world) (st : state) (name : string) :
  match Dict.get name (discovered_series w st) with
  | None => Dict.get name (series_data (scan_videos w st).1)
            = Dict.get name (series_data st)
  | Some seasons =>
      exists s, Dict.get name (series_data (scan_videos w st).1) = Some s
                /\ s_seasons s = ByInt seasons
                /\ forall ep, ep ∈ episodes_of seasons ->
                     (sid st <= e_id ep < sid (scan_videos w st).1)%Z
  end.
Proof.
  unfold scan_videos, discovered_series. cbn [fst series_data sid].
  set (sw := if truthy (series_dir (cfg st)) && _ then _ else _).
  set (mw := if truthy (movie_dir (cfg st)) && _ then _ else _).
  assert (series_inv (sid st) sw) as [Hsid Hkeys Hids].
  { unfold sw. rewrite if_fold_left. apply series_inv_fold. }
  destruct (merge_inv_fold (series_data st) (meta_heap st) (mw_queue mw) (sw_new sw))
    as [_ _ Hfkeys Hfinal _].
  specialize (Hfinal name). rewrite (dict_get_reverse _ _ Hkeys) in Hfinal.
  rewrite dict_get_update, (dict_get_reverse _ _ Hfkeys).
  destruct (Dict.get name (sw_new sw)) as [seasons|] eqn:Hfound.
  - destruct (Dict.get name (sg_final _)) as [s|]; [|done].
    injection Hfinal as Hs. exists s. split; [done|]. split; [done|].
    intros ep Hep. eapply Hids; [|exact Hep]. by apply dict_get_Some.
  - by destruct (Dict.get name (sg_final _)).
Qed.

(** ** Scanning again *)

(** C2, as stated, fails: the library of [Ex.library_world] is scanned a
    second time, unchanged.  The episode keeps its path and gets the id 2
    in place of 1. *)
Lemma rescan_renumbers_episodes :
  fs_walk Ex.scanned_world = fs_walk Ex.library_world
  /\ episode_ids Ex.scanned_state = [("/series/Show.S01E01.mkv", 1%Z)]
  /\ episode_ids (scan_videos Ex.scanned_world Ex.scanned_state).1
     = [("/series/Show.S01E01.mkv", 2%Z)].
Proof. repeat split; vm_compute; reflexivity. Qed.

(** C2, amended.  In a scan that finds no movie file whose path the
    catalog does not have, no movie object is changed or made: a movie
    whose path is discovered again stays in the movie list with the id it
    had.  Every item the scan puts on the queue has a missing or empty
    rating.  The episodes are made anew: those of every discovered series
    have ids from the counter, at or above its value before the scan, and
    the discovered series are entered with them. *)
Theorem rescan_unchanged_tree (w : world) (st : state) :
  movies_allocated st ->
  NoDup (catalog_paths st) ->
  discovered_movies w st ⊆ catalog_paths st ->
  let st' := (scan_videos w st).1 in
  movie_heap st' = movie_heap st
  /\ (forall l, l ∈ movies_data st ->
        path_at (movie_heap st) l ∈ discovered_movies w st ->
        l ∈ movies_data st')
  /\ (exists added, metadata_queue st' = metadata_queue st ++ added
                    /\ Forall (unrated st') added)
  /\ (forall name seasons,
        Dict.get name (discovered_series w st) = Some seasons ->
        exists s, Dict.get name (series_data st') = Some s
                  /\ s_seasons s = ByInt seasons
                  /\ forall ep, ep ∈ episodes_of seasons ->
                       (sid st <= e_id ep < sid st')%Z).
Proof.
  intros Hwf Hnd Hsub st'. subst st'.
  assert (forall name seasons,
            Dict.get name (discovered_series w st) = Some seasons ->
            exists s, Dict.get name (series_data (scan_videos w st).1) = Some s
                      /\ s_seasons s = ByInt seasons
                      /\ forall ep, ep ∈ episodes_of seasons ->
                           (sid st <= e_id ep < sid (scan_videos w st).1)%Z) as Hseries.
  { intros name seasons Hget. pose proof (scan_videos_series w st name) as H.
    by rewrite Hget in H. }
  destruct (scan_videos_movie_walk w st Hwf)
    as (mw & files & Hfiles & [_ _ _ _ _ (added1 & Hq1 & Hadded1)] & Hheap & Hmovies
        & added2 & Hq2 & Hadded2).
  assert (movie_heap (scan_videos w st).1 = movie_heap st
          /\ forall l, l ∈ movies_data st ->
               path_at (movie_heap st) l ∈ discovered_movies w st ->
               l ∈ movies_data (scan_videos w st).1) as [Hh Hkeep].
  { clear Hheap Hmovies Hq1 Hadded1 Hq2 Hadded2 Hfiles.
    unfold scan_videos. cbn [fst movie_heap movies_data].
    rewrite (if_fold_left _ (scan_movie_file _ _)).
    unfold discovered_movies, movie_paths in *.
    set (all := if truthy (movie_dir (cfg st)) && fs_exists w (movie_dir (cfg st))
                then walk_files w (movie_dir (cfg st)) else []).
    assert (map (fun rf => join rf.1 rf.2) (List.filter (fun rf => movie_file rf.2) all)
            = if truthy (movie_dir (cfg st)) && fs_exists w (movie_dir (cfg st))
              then map (fun rf => join rf.1 rf.2)
                     (List.filter (fun rf => movie_file rf.2)
                        (walk_files w (movie_dir (cfg st))))
              else []) as Hall by (unfold all; by destruct (_ && _)).
    rewrite <- Hall in *. clear Hall.
    set (existing := Dict.update [] (map (fun l => (m_path (movie_at (movie_heap st) l), l))
                                        (movies_data st))).
    assert (forall l, l ∈ movies_data st ->
              Dict.get (path_at (movie_heap st) l) existing = Some l) as Hget.
    { intros l Hl. by apply (dict_of_list_get_NoDup (path_at (movie_heap st))). }
    edestruct (walk_unchanged existing) as (Hh & _ & _ & Hfound).
    - intros rf Hrf Hmf.
      assert (join rf.1 rf.2 ∈ catalog_paths st) as Hin.
      { apply Hsub. apply list_elem_of_fmap. exists rf. split; [done|].
        apply list_elem_of_In, filter_In. split; [by apply list_elem_of_In|done]. }
      apply list_elem_of_fmap in Hin as (l & -> & Hl). rewrite (Hget l Hl). by eexists.
    - split; [exact Hh|]. intros l Hl Hp.
      apply list_elem_of_fmap in Hp as (rf & Hrf & Hin).
      apply list_elem_of_In, filter_In in Hin as [Hin Hmf].
      apply (Hfound rf l); [by apply list_elem_of_In|done|].
      rewrite <- Hrf. by apply Hget. }
  split; [done|]. split; [done|]. split; [|done].
  exists (added1 ++ added2). rewrite Hq2, Hq1, <- app_assoc. split; [done|].
  apply Forall_app. split; [|done].
  eapply Forall_impl; [exact Hadded1|]. intros r (l & -> & Hr).
  unfold unrated, item_info. by rewrite Hheap.
Qed.

Lemma rescan_unchanged_tree_witness :
  let st' := (scan_videos Ex.scanned_world Ex.scanned_state).1 in
  movie_heap st' = movie_heap Ex.scanned_state
  /\ (forall l, l ∈ movies_data Ex.scanned_state ->
        path_at (movie_heap Ex.scanned_state) l
          ∈ discovered_movies Ex.scanned_world Ex.scanned_state ->
        l ∈ movies_data st')
  /\ (exists added, metadata_queue st' = metadata_queue Ex.scanned_state ++ added
                    /\ Forall (unrated st') added)
  /\ (forall name seasons,
        Dict.get name (discovered_series Ex.scanned_world Ex.scanned_state)
          = Some seasons ->
        exists s, Dict.get name (series_data st') = Some s
                  /\ s_seasons s = ByInt seasons
                  /\ forall ep, ep ∈ episodes_of seasons ->
                       (sid Ex.scanned_state <= e_id ep < sid st')%Z).
Proof.
  apply (rescan_unchanged_tree Ex.scanned_world Ex.scanned_state).
  - apply (bool_decide_unpack _). vm_compute. exact I.
  - apply (bool_decide_unpack _). vm_compute. exact I.
  - apply (bool_decide_unpack _). vm_compute. exact I.
Defined.

(** Every movie of the catalog still is an object of the heap after a scan. *)
Lemma scan_videos_allocated (w : world) (st : state) :
  movies_allocated st -> movies_allocated (scan_videos w st).1.
Proof.
  intros Hwf.
  destruct (scan_videos_movie_walk w st Hwf)
    as (mw & files & _ & [_ _ _ _ Hnew _] & Hheap & Hmovies & _).
  unfold movies_allocated. rewrite Hheap, Hmovies.
  eapply Forall_impl; [exact Hnew|]. by intros l [? _].
Qed.




(** ** [backend.py] *)

(** [Cache.save] followed by the start-up of a scanner *)
Lemma backend_save_then_load (w : world) (st : state) (c : config) :
  fs_writable w (Backend.CACHE_FILE w) = true ->
  exists st', startup (Backend.save w st) c = Some st'
              /\ catalog_view st' = catalog_view st.
Proof.
  intros Hw. apply startup_reads_snapshot.
  unfold Backend.save. by rewrite Hw.
Qed.

(** [_scan_movies] and [_scan_series] treat a file with a token as
    [scan_videos] does. *)
Lemma backend_episode_files (w : world) (f root : string) pre cs ds ce de post
    (existing : list (string * nat)) (mw : movie_walk) (sw : series_walk) :
  Backend.is_video f = true ->
  within (int_max_str_digits w) (chars f) ->
  token_in f pre cs ds ce de post ->
  Backend.scan_movie_file existing mw (root, f) = mw
  /\ (exists sm em ep,
        re_search s_re f = Some sm /\ re_search e_re f = Some em
        /\ e_season ep = decimal (Re.group 1 sm)
        /\ e_episode ep = decimal (Re.group 1 em)
        /\ e_id ep = sw_sid sw /\ e_path ep = join root f /\ e_filename ep = f
        /\ Backend.scan_series_file w sw (root, f) =
             {| sw_new := append_episode (e_title ep) (e_season ep) ep (sw_new sw);
                sw_sid := (sw_sid sw + 1)%Z |}).
Proof.
  intros Hv Hlim Htok. split.
  - unfold Backend.scan_movie_file. rewrite Hv. simpl. unfold episode_re.
    rewrite (token_found _ _ _ _ _ _ _ _ _ Htok); [done| |].
    + apply (token_s_facts _ _ _ _ _ _ _ Htok).
    + apply (token_e_facts _ _ _ _ _ _ _ Htok).
  - destruct (token_season_found _ _ _ _ _ _ _ Htok) as [sm Hsm].
    destruct (token_episode_found _ _ _ _ _ _ _ Htok) as [em Hem].
    exists sm, em. unfold Backend.scan_series_file. rewrite Hv, Hsm, Hem. simpl.
    rewrite (search_group_within _ _ _ f sm Hlim Hsm).
    rewrite (search_group_within _ _ _ f em Hlim Hem).
    destruct (Backend.get_smart_title (join root f)) as [t y].
    eexists {| e_id := sw_sid sw; e_title := _; e_season := _; e_episode := _;
               e_path := _; e_filename := _ |}.
    simpl. repeat split.
Qed.

(** The scanner thread on the library of [Ex.library_world]: a second run
    gives the episode a new id, and a series whose file is gone stays in
    [cache.series]. *)
Lemma backend_rescan :
  let st1 := Backend._scan_series Ex.library_world
               (Backend._scan_movies Ex.library_world
                  (Ex.empty_state (Ex.a_config "/movies" "/series"))) in
  let st2 := Backend._scan_series Ex.library_world
               (Backend._scan_movies Ex.library_world st1) in
  let st3 := Backend._scan_series Ex.emptied_world
               (Backend._scan_movies Ex.emptied_world st1) in
  episode_ids st1 = [("/series/Show.S01E01.mkv", 1%Z)]
  /\ episode_ids st2 = [("/series/Show.S01E01.mkv", 2%Z)]
  /\ map m_id (map (movie_at (movie_heap st2)) (movies_data st2)) = [1%Z]
  /\ Dict.keys (series_data st3) = ["Show"]
  /\ episode_ids st3 = [("/series/Show.S01E01.mkv", 1%Z)].
Proof. repeat split; vm_compute; reflexivity. Qed.

(** [_fetch_metadata]: the poster cannot be downloaded, and the item has
    the provider's rating, plot, genre and year; after a request that
    raises, nothing is changed. *)
Lemma backend_poster_failure :
  item_info (Backend.fetch_item Ex.poster_fails_world Ex.inception_state (MovieRef 0)).2
    (MovieRef 0)
  = {| title := "Inception"; candidates := Some ["Inception"];
       year := Some "2010"; poster := Some "/static/placeholder.png";
       rating := Some "8.8"; plot := Some "A thief enters dreams.";
       genre := Some "Sci-Fi" |}.
Proof. vm_compute. reflexivity. Qed.

Lemma backend_fetch_item_failure (w : world) (st : state) (item : item_ref) :
  let i := item_info st item in
  let u := omdb_url (omdb_api_key (cfg st)) (title i) (default "" (year i)) in
  http_json w u = Timeout \/ http_json w u = Malformed
  \/ (exists res, http_json w u = Answer res /\ Response res <> Some "True") ->
  (Backend.fetch_item w st item).2 = st.
Proof.
  intros i u H. unfold Backend.fetch_item. fold i u.
  change (http_json (log_request w u) u) with (http_json w u).
  destruct H as [-> | [-> | (res & -> & Hres)]]; [done|done|].
  by case_bool_decide.
Qed.

(** ** The catalog's movies are objects of the heap *)

Lemma startup_allocated (w : world) (c : config) (st : state) :
  startup w c = Some st -> movies_allocated st.
Proof.
  unfold startup. destruct (load_cache w) as [| | | | |top]; try done.
  destruct (match Dict.get "movies" top with
            | Some (JList l) => mapM movie_of l
            | Some _ => None
            | None => Some []
            end) as [movies|]; [|done]. simpl.
  destruct (match Dict.get "series" top with
            | Some (JDict d) => mapM (fun kv => pair kv.1 <$> series_of kv.2) d
            | Some _ => None
            | None => Some []
            end) as [series|]; [|done]. simpl.
  destruct (fold_left place_meta series ([], [])) as [metas sd].
  intros [= <-]. unfold movies_allocated. simpl.
  apply Forall_forall. intros l Hl. by apply elem_of_seq in Hl as [_ ?].
Qed.

Lemma set_item_info_allocated (st : state) (item : item_ref) (i : info) :
  movies_allocated st -> movies_allocated (set_item_info st item i).
Proof.
  unfold movies_allocated. destruct item; simpl; [|done].
  by rewrite length_insert.
Qed.

Lemma process_item_allocated (w : world) (st : state) (item : item_ref) :
  movies_allocated st -> movies_allocated (process_item w st item).2.
Proof.
  intros Hwf. unfold process_item.
  destruct (negb _); [done|]. destruct (http_json _ _) as [| |res]; [done|done|].
  case_bool_decide; [|done].
  pose proof (set_item_info_allocated st item
                (enriched (item_info st item) res) Hwf) as Hwf'.
  destruct (Poster res) as [url|]; [|done].
  destruct (_ && _); [|done].
  unfold fetch_poster. simpl.
  destruct (http_content _ _); [|done].
  destruct (fs_writable _ _); [|done].
  simpl. by apply set_item_info_allocated.
Qed.

(** ** Scenarios of the specification *)

(** [Show.Name.S02E05.WEBRip.mkv] is episode 5 of season 2 of "Show Name". *)
Example show_name_episode :
  sw_new (scan_series_file Ex.library_world {| sw_new := []; sw_sid := 1 |}
            ("/series", "Show.Name.S02E05.WEBRip.mkv"))
  = [("Show Name", [(2%Z, [{| e_id := 1; e_title := "Show Name"; e_season := 2;
                              e_episode := 5;
                              e_path := "/series/Show.Name.S02E05.WEBRip.mkv";
                              e_filename := "Show.Name.S02E05.WEBRip.mkv" |}])])].
Proof. vm_compute. reflexivity. Qed.

(** [bytes=100-199] of a file of 1000 bytes: status 206, the header
    [bytes 100-199/1000] and the hundred bytes from offset 100. *)
Example range_100_199 :
  let r := (play Ex.thousand_world 1 (Some "bytes=100-199") Ex.one_movie_state).1 in
  status r = 206%Z
  /\ content_range r = Some "bytes 100-199/1000"
  /\ content r = Bytes [take 100 (drop 100 Ex.thousand)].
Proof. repeat split; vm_compute; reflexivity. Qed.

(** A request for an id the catalog does not have is answered 404, and one
    for an entry outside every root that does not even share a prefix with
    a root is answered 403. *)
Example play_etc_passwd :
  let st := {| movie_heap := [{| m_id := 9; m_path := "/etc/passwd";
                                 m_info := Ex.plain_info "passwd" |}];
               meta_heap := []; movies_data := [0]; series_data := [];
               metadata_queue := []; is_scanning := false; mid := 10; sid := 1;
               cfg := Ex.a_config "/movies" "/series" |} in
  (play Ex.one_movie_world 9 None st).1 = plain "Forbidden" 403
  /\ (play Ex.one_movie_world 5 None st).1 = plain "Not Found" 404.
Proof. split; vm_compute; reflexivity. Qed.

(** * Further properties of the code *)

(** ** Strings *)

Lemma chars_text (l : list ascii) : chars (text l) = l.
Proof. apply list_ascii_of_string_of_list_ascii. Qed.

Lemma text_chars (s : string) : text (chars s) = s.
Proof. apply string_of_list_ascii_of_string. Qed.

Lemma chars_app (a b : string) : chars (a +:+ b) = chars a ++ chars b.
Proof. induction a as [|c a IH]; [done|]. simpl. by rewrite <- IH. Qed.

Lemma text_app (a b : list ascii) : text (a ++ b) = text a +:+ text b.
Proof. induction a as [|c a IH]; [done|]. simpl. by rewrite IH. Qed.

(** ** The entry of an id *)

Lemma find_Some_elem {A} (p : A -> bool) (l : list A) (x : A) :
  find p l = Some x -> x ∈ l /\ p x = true.
Proof.
  intros H. apply find_some in H as [H ?]. split; [by apply list_elem_of_In|done].
Qed.

Lemma find_None_elem {A} (p : A -> bool) (l : list A) :
  find p l = None <-> forall x, x ∈ l -> p x = false.
Proof.
  split.
  - intros H x Hx. apply (find_none _ _ H). by apply list_elem_of_In.
  - intros H. induction l as [|y l IH]; [done|]. simpl.
    rewrite (H y) by left. apply IH. intros x Hx. apply H. by right.
Qed.

Lemma episode_fold (vid : Z) (lists : list (list episode)) (init : option entry) :
  let r := fold_left
        (fun target ss =>
           match find (fun ep => (e_id ep =? vid)%Z) ss with
           | Some ep => Some (AnEpisode ep)
           | None => target
           end) lists init in
  (r = init /\ forall ep, ep ∈ concat lists -> e_id ep <> vid)
  \/ exists ep, r = Some (AnEpisode ep) /\ ep ∈ concat lists /\ e_id ep = vid.
Proof.
  revert init. induction lists as [|ss lists IH]; intros init; cbn [fold_left concat].
  - left. split; [done|]. intros ep H. by apply elem_of_nil in H.
  - destruct (find (fun ep => (e_id ep =? vid)%Z) ss) as [ep|] eqn:E.
    + apply find_Some_elem in E as [Hin Hid]. apply Z.eqb_eq in Hid.
      destruct (IH (Some (AnEpisode ep))) as [[-> Hn]|(ep' & -> & Hin' & Hid')].
      * right. exists ep. split; [done|]. split; [|done]. apply elem_of_app. by left.
      * right. exists ep'. split; [done|]. split; [|done]. apply elem_of_app. by right.
    + destruct (IH init) as [[-> Hn]|(ep' & -> & Hin' & Hid')].
      * left. split; [done|]. intros ep Hep. apply elem_of_app in Hep as [Hep|Hep].
        -- rewrite find_None_elem in E. specialize (E ep Hep). by apply Z.eqb_neq in E.
        -- by apply Hn.
      * right. exists ep'. split; [done|]. split; [|done]. apply elem_of_app. by right.
Qed.

(** X1.  The entry [find_target] gives for an id is an entry of the
    catalog with that id, a movie whenever a movie has the id; it gives
    none exactly when no movie and no episode of the catalog has the id. *)
Theorem find_target_spec (st : state) (vid : Z) :
  (forall t, find_target st vid = Some t ->
     entry_id t = vid
     /\ match t with
        | AMovie m => m ∈ catalog_movies st
        | AnEpisode ep =>
            ep ∈ all_episodes (series_data st)
            /\ forall m, m ∈ catalog_movies st -> m_id m <> vid
        end)
  /\ (find_target st vid = None <->
      (forall m, m ∈ catalog_movies st -> m_id m <> vid)
      /\ (forall ep, ep ∈ all_episodes (series_data st) -> e_id ep <> vid)).
Proof.
  unfold find_target, catalog_movies, all_episodes.
  destruct (find _ (map _ (movies_data st))) as [m|] eqn:Em.
  - apply find_Some_elem in Em as [Hin Hid]. apply Z.eqb_eq in Hid. split.
    + intros t [= <-]. done.
    + split; [done|]. intros [Hm _]. by specialize (Hm m Hin).
  - rewrite find_None_elem in Em.
    assert (forall m, m ∈ map (movie_at (movie_heap st)) (movies_data st) ->
                      m_id m <> vid) as Hm.
    { intros m Hin. specialize (Em m Hin). by apply Z.eqb_neq in Em. }
    pose proof (episode_fold vid
      (concat (map (fun s => season_lists (s_seasons s)) (Dict.values (series_data st))))
      None) as H. simpl in H.
    destruct H as [[-> Hn]|(ep & -> & Hin & Hid)].
    + split; [done|]. split; [done|]. done.
    + split.
      * intros t [= <-]. done.
      * split; [done|]. intros [_ He]. by specialize (He ep Hin).
Qed.

(** ** The listing route *)

Lemma sync_series_idem (h : list meta) (s : series) :
  sync_series h (sync_series h s) = sync_series h s.
Proof. unfold sync_series. destruct (s_meta s) eqn:E; simpl; rewrite ?E; done. Qed.

(** X2.  Listing the catalog a second time changes nothing more and
    gives the same document: the fields the first listing copied from
    the metas are the ones the second one copies. *)
Theorem get_data_twice (st : state) :
  get_data (get_data st).2 = get_data st.
Proof.
  unfold get_data. cbn [fst snd set_series_data meta_heap series_data
    movie_heap movies_data metadata_queue is_scanning mid sid cfg].
  rewrite map_map. cbn [fst snd].
  assert (map (fun kv : string * series =>
                 (kv.1, sync_series (meta_heap st) (sync_series (meta_heap st) kv.2)))
              (series_data st)
          = map (fun kv => (kv.1, sync_series (meta_heap st) kv.2)) (series_data st))
    as ->; [|done].
  apply map_ext. intros [k s]. simpl. by rewrite sync_series_idem.
Qed.

(** ** The chunks of a body *)

Lemma generate_chunks (c : Z) (f : list byte) (rem : Z) :
  (0 < c)%Z ->
  Forall (fun b => 0 < length b /\ (Z.of_nat (length b) <= c)%Z) (generate c f rem).
Proof.
  intros Hc. funelim (generate c f rem); simpl in *; try done.
  constructor.
  - match goal with E : read _ _ = _ :: _ |- _ =>
      pose proof (f_equal length E) as Hlen end.
    rewrite read_take, length_take in Hlen. simpl in Hlen. split; [simpl; lia|].
    simpl. lia.
  - match goal with IH : _ -> Forall _ _ |- _ => by apply IH end.
Qed.

Lemma stream_chunks (n : Z) (out : list byte) :
  (0 < n)%Z ->
  Forall (fun b => 0 < length b /\ (Z.of_nat (length b) <= n)%Z) (stream n out).
Proof.
  intros Hn. funelim (stream n out); simpl in *; try done.
  constructor.
  - match goal with E : read _ _ = _ :: _ |- _ =>
      pose proof (f_equal length E) as Hlen end.
    rewrite read_take, length_take in Hlen. simpl in Hlen. split; [simpl; lia|].
    simpl. lia.
  - match goal with IH : _ -> Forall _ _ |- _ => by apply IH end.
Qed.

(** X3.  Whatever the request, a body that [play] sends in chunks has no
    empty chunk and no chunk of more than 5 MiB. *)
Theorem play_chunks_bounded (w : world) (vid : Z) (h : option string) (st : state)
    (chunks : list (list byte)) :
  content (play w vid h st).1 = Bytes chunks ->
  Forall (fun b => 0 < length b /\ (Z.of_nat (length b) <= 5 * 1024 * 1024)%Z) chunks.
Proof.
  unfold play. destruct (find_target st vid) as [t|]; [|done].
  destruct (negb (_validate_path w st (entry_path t))); [done|].
  destruct (negb (path_exists w (entry_path t))); [done|].
  cbn zeta.
  destruct (if bool_decide _ then _ else None) as [r|] eqn:Et.
  - case_bool_decide; [|done].
    destruct (popen w _) as [out|]; [|done]. injection Et as <-.
    simpl. intros [= <-].
    eapply Forall_impl; [apply (stream_chunks (1024 * 1024)); lia|].
    simpl. intros b [? ?]. split; [done|lia].
  - simpl. unfold serve_range.
    destruct (fs_getsize w _) as [size|]; [|done].
    destruct (parse_range w h size) as [[start len]|]; [|done].
    simpl. intros [= <-].
    destruct (fs_open w _) as [data|]; [|done].
    apply (generate_chunks chunk). done.
Qed.

Lemma play_chunks_bounded_witness :
  Forall (fun b => 0 < length b /\ (Z.of_nat (length b) <= 5 * 1024 * 1024)%Z)
    [[x01; x02; x03; x04]].
Proof.
  apply (play_chunks_bounded Ex.one_movie_world 1 None Ex.one_movie_state).
  reflexivity.
Defined.

(** X4.  A file with one of the extensions [.avi], [.wmv], [.flv] and
    [.divx], for which the decoder starts, is answered with status 200 and
    no Content-Range, whatever the Range header is; the chunks are, put
    together, all the decoder wrote. *)
Theorem play_transcoded (w : world) (vid : Z) (h : option string) (st : state)
    (t : entry) (out : list byte) :
  find_target st vid = Some t ->
  _validate_path w st (entry_path t) = true ->
  path_exists w (entry_path t) = true ->
  lower (snd (splitext (entry_path t))) ∈ transcoded_exts ->
  popen w (ffmpeg_cmd (entry_path t)) = Some out ->
  exists chunks,
    (play w vid h st).1 = {| status := 200; mimetype := "video/mp4";
                             content_range := None; content := Bytes chunks |}
    /\ concat chunks = out.
Proof.
  unfold play, transcoded_exts. intros -> -> -> Hext ->. simpl.
  rewrite bool_decide_eq_true_2 by done. simpl.
  eexists. split; [done|]. apply stream_concat. lia.
Qed.

(** ** Range requests *)

Lemma range_match prev (ds de post : list ascii) :
  digits ds -> Forall (fun c => Char.is_digit c = true) de ->
  stops Char.is_digit post ->
  match_at range_re prev (ds ++ "-"%char :: de ++ post)
    = Some (length ds + 1 + length de, [ds; de]).
Proof.
  intros [Hne Hds] Hde Hpost. unfold match_at, range_re. simpl.
  destruct ds as [|d ds]; [done|]. inversion_clear Hds as [|? ? Hd Hds'].
  simpl. rewrite Hd.
  erewrite many_longest; [reflexivity|exact Hds'|done|].
  simpl.
  erewrite many_longest; [reflexivity|exact Hde|exact Hpost|].
  f_equal. f_equal.
  - rewrite !length_app. simpl. rewrite !length_app. lia.
  - f_equal.
    + replace (length (ds ++ "-"%char :: de ++ post) - length (de ++ post))
        with (length (d :: ds))
        by (rewrite !length_app; simpl; rewrite length_app; lia).
      exact (take_app_length (d :: ds) _).
    + f_equal. replace (length (de ++ post) - length post) with (length de)
        by (rewrite length_app; lia).
      apply take_app_length.
Qed.

Lemma range_no_match prev (c : ascii) (tail : list ascii) :
  Char.is_digit c = false -> match_at range_re prev (c :: tail) = None.
Proof. intros Hc. unfold match_at, range_re. simpl. by rewrite Hc. Qed.

Lemma search_from_here r prev i s n caps :
  match_at r prev s = Some (n, caps) ->
  search_from r prev i s = Some {| m_start := i; m_len := n; m_groups := caps |}.
Proof. intros H. destruct s; simpl; by rewrite H. Qed.

Lemma range_search (pre ds de post : list ascii) :
  Forall (fun c => Char.is_digit c = false) pre ->
  digits ds -> Forall (fun c => Char.is_digit c = true) de ->
  stops Char.is_digit post ->
  re_search range_re (text (pre ++ ds ++ "-"%char :: de ++ post))
    = Some {| m_start := length pre; m_len := length ds + 1 + length de;
              m_groups := [ds; de] |}.
Proof.
  intros Hpre Hds Hde Hpost. unfold re_search, search. rewrite chars_text.
  rewrite search_from_skip.
  - by rewrite (search_from_here _ _ _ _ _ _ (range_match _ ds de post Hds Hde Hpost)).
  - intros a c b ->. apply range_no_match.
    apply Forall_app in Hpre as [_ Hpre]. by inversion Hpre.
Qed.

(** X5.  A Range header that is, after text without digits, a number, a
    dash and a number or nothing, is answered with status 206, the header
    [Content-Range: bytes start-end/size] and the bytes of the file from
    offset [start], at most [end - start + 1] of them (to the end of the
    file when no end is given). *)
Theorem play_range (w : world) (vid : Z) (st : state) (t : entry)
    (size : Z) (data : list byte) (pre ds de post : list ascii) :
  find_target st vid = Some t ->
  _validate_path w st (entry_path t) = true ->
  path_exists w (entry_path t) = true ->
  served_from_file w (entry_path t) ->
  fs_getsize w (entry_path t) = Some size ->
  fs_open w (entry_path t) = Some data ->
  Forall (fun c => Char.is_digit c = false) pre ->
  digits ds -> Forall (fun c => Char.is_digit c = true) de ->
  stops Char.is_digit post ->
  within (int_max_str_digits w) ds -> within (int_max_str_digits w) de ->
  let h := text (pre ++ ds ++ "-"%char :: de ++ post) in
  let start := decimal ds in
  let len := match de with
             | [] => (size - start)%Z
             | _ => (decimal de - start + 1)%Z
             end in
  exists chunks,
    (play w vid (Some h) st).1 =
      {| status := 206; mimetype := "video/mp4";
         content_range :=
           Some ("bytes " +:+ str_of_Z start +:+ "-" +:+ str_of_Z (start + len - 1)
                 +:+ "/" +:+ str_of_Z size);
         content := Bytes chunks |}
    /\ concat chunks = take (Z.to_nat len) (drop (Z.to_nat start) data).
Proof.
  intros Ht Hv He Hs Hsize Hopen Hpre Hds Hde Hpost Hlds Hlde h start len.
  rewrite (play_serve_range _ _ _ _ _ Ht Hv He Hs).
  unfold serve_range, parse_range. rewrite Hsize.
  assert (truthy h = true) as ->.
  { unfold h. destruct Hds as [Hne _].
    destruct pre as [|c pre]; [destruct ds as [|d ds]; done|done]. }
  unfold h. rewrite (range_search pre ds de post Hpre Hds Hde Hpost).
  unfold Re.group, re_group, Re.group. simpl.
  rewrite (int_of_within _ _ Hlds). simpl.
  destruct de as [|e de'] eqn:Ede.
  - simpl. rewrite Hopen. eexists. split; [reflexivity|].
    apply generate_concat. done.
  - rewrite <- Ede in *. assert (truthy (text de) = true) as -> by (by rewrite Ede).
    rewrite (int_of_within _ _ Hlde). simpl. rewrite Hopen.
    subst len. rewrite Ede. rewrite <- Ede.
    eexists. split; [reflexivity|]. apply generate_concat. done.
Qed.

Lemma play_range_witness :
  exists chunks,
    (play Ex.thousand_world 1 (Some (text (chars "bytes=" ++ chars "100" ++
                                           "-"%char :: chars "199" ++ [])))
       Ex.one_movie_state).1 =
      {| status := 206; mimetype := "video/mp4";
         content_range :=
           Some ("bytes " +:+ str_of_Z (decimal (chars "100")) +:+ "-"
                 +:+ str_of_Z (decimal (chars "100")
                               + (decimal (chars "199") - decimal (chars "100") + 1) - 1)
                 +:+ "/" +:+ str_of_Z 1000);
         content := Bytes chunks |}
    /\ concat chunks
       = take (Z.to_nat (decimal (chars "199") - decimal (chars "100") + 1))
           (drop (Z.to_nat (decimal (chars "100"))) Ex.thousand).
Proof.
  apply (play_range Ex.thousand_world 1 Ex.one_movie_state
           (AMovie (movie_at (movie_heap Ex.one_movie_state) 0)) 1000 Ex.thousand
           (chars "bytes=") (chars "100") (chars "199") []).
  - reflexivity.
  - reflexivity.
  - reflexivity.
  - left. vm_compute. intros H. inversion H as [|? ? ? H1]; subst.
    inversion H1 as [|? ? ? H2]; subst. inversion H2 as [|? ? ? H3]; subst.
    inversion H3 as [|? ? ? H4]; subst. inversion H4.
  - reflexivity.
  - reflexivity.
  - repeat constructor.
  - split; [done|repeat constructor].
  - repeat constructor.
  - exact I.
  - right. vm_compute. lia.
  - right. vm_compute. lia.
Defined.

(** ** Subtitles: from SRT to VTT *)

Lemma timestamp_match prev (s : list ascii) n caps :
  match_at timestamp_re prev s = Some (n, caps) ->
  exists a b rest, s = a ++ ","%char :: b ++ rest
    /\ is_clock a = true /\ is_millis b = true /\ n = 12 /\ caps = [a; b].
Proof.
  unfold match_at, timestamp_re, digit, chr. cbn [run].
  repeat match goal with
         | |- context [match ?s with [] => _ | _ :: _ => _ end] =>
             destruct s; [done|]
         | |- context [if ?b then _ else _] => destruct b eqn:?; [|done]
         end.
  cbn [app length take Nat.sub]. intros [= <- <-].
  repeat match goal with H : Char.eqb _ _ = true |- _ =>
    apply Ascii.eqb_eq in H; subst end.
  eexists [_; _; _; _; _; _; _; _], [_; _; _], _.
  split; [reflexivity|].
  unfold is_clock, is_millis. cbn [forallb].
  repeat match goal with H : Char.is_digit _ = true |- _ => rewrite H; clear H end.
  split; [done|]. split; [done|]. split; [lia|].
  replace (S (S (S (S (S (S (S (S (length s)))))))) - length s) with 8 by lia.
  replace (S (S (S (length s))) - length s) with 3 by lia.
  reflexivity.
Qed.

Lemma timestamp_some prev (a b rest : list ascii) :
  is_clock a = true -> is_millis b = true ->
  match_at timestamp_re prev (a ++ ","%char :: b ++ rest) = Some (12, [a; b]).
Proof.
  unfold is_clock, is_millis. intros Ha Hb.
  do 9 (destruct a as [|? a]; try done). do 4 (destruct b as [|? b]; try done).
  cbn [forallb] in *.
  repeat match goal with H : _ && _ = true |- _ => apply andb_true_iff in H as [? ?] end.
  repeat match goal with H : Ascii.eqb _ _ = true |- _ =>
    apply Ascii.eqb_eq in H; subst end.
  unfold match_at, timestamp_re, digit, chr. cbn [run app].
  repeat match goal with H : Char.is_digit _ = true |- _ => rewrite H; clear H end.
  unfold Char.eqb. rewrite !Ascii.eqb_refl. cbn [app length].
  replace (S (S (S (S (S (S (S (S (S (S (S (S (length rest)))))))))))) - length rest)
    with 12 by lia.
  replace (S (S (S (S (S (S (S (S (S (S (S (S (length rest)))))))))))) -
           S (S (S (S (length rest))))) with 8 by lia.
  replace (S (S (S (length rest))) - length rest) with 3 by lia.
  reflexivity.
Qed.

Lemma timestamp_none prev (c : ascii) (tail : list ascii) :
  Char.is_digit c = false -> match_at timestamp_re prev (c :: tail) = None.
Proof.
  intros Hc. unfold match_at, timestamp_re, digit, chr. cbn [run]. by rewrite Hc.
Qed.

Lemma timestamp_prev prev prev' (s : list ascii) :
  match_at timestamp_re prev s = match_at timestamp_re prev' s.
Proof. unfold match_at, timestamp_re, digit, chr. cbn [run]. reflexivity. Qed.

Section SubFrom.
Variables (r : regex) (repl : list (list ascii) -> list ascii).

(** a count of characters to skip drops that many characters *)
Lemma sub_from_skip prev k s :
  exists prev', sub_from r repl prev k s = sub_from r repl prev' 0 (drop k s).
Proof.
  revert prev s. induction k as [|k IH]; intros prev s; [by exists prev|].
  destruct s as [|c s]; [by exists prev|]. simpl. apply IH.
Qed.

Lemma sub_from_prev prev prev' k s :
  (forall p p' x, match_at r p x = match_at r p' x) ->
  sub_from r repl prev k s = sub_from r repl prev' k s.
Proof.
  intros Hr. revert prev prev' k. induction s as [|c s IH]; intros prev prev' k; [done|].
  simpl. destruct k as [|k]; [|done].
  rewrite (Hr prev prev'). done.
Qed.
End SubFrom.

Lemma comma_to_dot_refl (l : list ascii) : Forall2 comma_to_dot l l.
Proof. induction l; constructor; [by left|done]. Qed.

Lemma vtt_body_from (n : nat) (s : list ascii) prev :
  length s <= n ->
  Forall2 comma_to_dot s
    (sub_from timestamp_re
       (fun caps => default [] (caps !! 0) ++ chars "." ++ default [] (caps !! 1))
       prev 0 s).
Proof.
  revert s prev. induction n as [|n IH]; intros s prev Hn.
  - destruct s; [constructor|simpl in Hn; lia].
  - destruct s as [|c s]; [constructor|]. cbn [sub_from].
    destruct (match_at timestamp_re prev (c :: s)) as [[k caps]|] eqn:E.
    + apply timestamp_match in E as (a & b & rest & Hs & Ha & Hb & -> & ->).
      destruct (sub_from_skip timestamp_re
                  (fun caps => default [] (caps !! 0) ++ chars "." ++ default [] (caps !! 1))
                  (Some c) 11 s) as [prev' ->].
      assert (length a = 8) as Hla
        by (unfold is_clock in Ha; do 9 (destruct a as [|? a]; try done)).
      assert (length b = 3) as Hlb
        by (unfold is_millis in Hb; do 4 (destruct b as [|? b]; try done)).
      assert (drop 11 s = rest) as ->.
      { change (drop 11 s) with (drop 12 (c :: s)). rewrite Hs.
        rewrite drop_app_ge by lia. rewrite Hla. simpl.
        rewrite drop_app_ge by lia. rewrite Hlb. done. }
      rewrite Hs. simpl. rewrite <- app_assoc. simpl.
      apply Forall2_app; [apply comma_to_dot_refl|].
      constructor; [by right|].
      apply Forall2_app; [apply comma_to_dot_refl|].
      apply IH. apply (f_equal length) in Hs. simpl in Hs, Hn.
      rewrite length_app in Hs. simpl in Hs. rewrite length_app in Hs. lia.
    + constructor; [by left|]. apply IH. simpl in Hn. lia.
Qed.

(** X6.  [srt_to_vtt] puts the header [WEBVTT] and an empty line in front
    of the text and, in the text, changes nothing but commas, into dots:
    the text keeps its length, and every character that is not a comma
    stays where and what it is. *)
Theorem srt_to_vtt_commas (srt_content : string) :
  exists body,
    chars (srt_to_vtt srt_content) = chars "WEBVTT" ++ chars nl ++ chars nl ++ body
    /\ Forall2 comma_to_dot (chars srt_content) body.
Proof.
  unfold srt_to_vtt. eexists. split.
  - rewrite !chars_app, chars_text. reflexivity.
  - unfold Re.sub. by apply (vtt_body_from (length (chars srt_content))).
Qed.

Lemma vtt_body_prefix prev (pre s : list ascii) :
  Forall (fun c => Char.is_digit c = false) pre ->
  exists prev',
    sub_from timestamp_re
      (fun caps => default [] (caps !! 0) ++ chars "." ++ default [] (caps !! 1))
      prev 0 (pre ++ s)
    = pre ++ sub_from timestamp_re
               (fun caps => default [] (caps !! 0) ++ chars "." ++ default [] (caps !! 1))
               prev' 0 s.
Proof.
  intros Hpre. revert prev. induction Hpre as [|c pre Hc Hpre IH]; intros prev.
  - by exists prev.
  - cbn [app sub_from]. rewrite (timestamp_none _ _ _ Hc).
    destruct (IH (Some c)) as [prev' ->]. by exists prev'.
Qed.

(** X7.  A time stamp [hh:mm:ss,mmm] that comes after text without
    digits is written with a dot, the text before it stays as it is, and
    what follows the time stamp is converted as a text of its own. *)
Theorem srt_to_vtt_timestamp (pre a b rest : list ascii) :
  Forall (fun c => Char.is_digit c = false) pre ->
  is_clock a = true -> is_millis b = true ->
  srt_to_vtt (text (pre ++ a ++ ","%char :: b ++ rest))
    = "WEBVTT" +:+ nl +:+ nl +:+ text (pre ++ a ++ "."%char :: b)
      +:+ vtt_body (text rest).
Proof.
  intros Hpre Ha Hb. unfold srt_to_vtt, vtt_body, Re.sub. do 3 f_equal.
  rewrite <- text_app. f_equal. rewrite !chars_text.
  destruct (vtt_body_prefix None pre (a ++ ","%char :: b ++ rest) Hpre) as [prev' ->].
  rewrite <- app_assoc. f_equal.
  pose proof (timestamp_some prev' a b rest Ha Hb) as Hm.
  assert (length a = 8) as Hla
    by (unfold is_clock in Ha; do 9 (destruct a as [|? a]; try done)).
  assert (length b = 3) as Hlb
    by (unfold is_millis in Hb; do 4 (destruct b as [|? b]; try done)).
  destruct a as [|h a']; [done|]. cbn [app sub_from] in *. rewrite Hm.
  destruct (sub_from_skip timestamp_re
              (fun caps => default [] (caps !! 0) ++ chars "." ++ default [] (caps !! 1))
              (Some h) 11 (a' ++ ","%char :: b ++ rest)) as [prev'' ->].
  assert (drop 11 (a' ++ ","%char :: b ++ rest) = rest) as ->.
  { simpl in Hla. rewrite drop_app_ge by lia.
    replace (11 - length a') with 4 by lia. simpl.
    rewrite drop_app_ge by lia. rewrite Hlb. done. }
  cbn [lookup list_lookup default chars app].
  rewrite (sub_from_prev _ _ prev'' None) by apply timestamp_prev.
  reflexivity.
Qed.

Lemma srt_to_vtt_timestamp_witness :
  srt_to_vtt (text (chars "- " ++ chars "00:00:01" ++ ","%char :: chars "500"
                      ++ chars " --> 00:00:04,000"))
  = "WEBVTT" +:+ nl +:+ nl +:+ text (chars "- " ++ chars "00:00:01" ++ "."%char
                                       :: chars "500")
    +:+ vtt_body (text (chars " --> 00:00:04,000")).
Proof.
  apply (srt_to_vtt_timestamp (chars "- ") (chars "00:00:01") (chars "500")
           (chars " --> 00:00:04,000")).
  - repeat constructor.
  - reflexivity.
  - reflexivity.
Defined.

(** ** The year and the title of a file name *)

Lemma year_match prev (s : list ascii) n caps :
  match_at year_re prev s = Some (n, caps) ->
  exists y, caps = [y] /\ is_year y = true.
Proof.
  unfold match_at, year_re, lit, digit, chr.
  cbn [run seq_of map list_ascii_of_string].
  destruct s as [|c0 s]; [done|]. destruct (_ || _); [|done].
  destruct s as [|a s]; [done|]. destruct s as [|b s]; [by repeat case_match|].
  destruct s as [|c s]; [by repeat case_match|].
  destruct s as [|d s]; [by repeat case_match|].
  destruct s as [|e s]; [by repeat case_match|].
  unfold Char.eqb. cbn [app length].
  replace (S (S (S (S (S (length s))))) - S (length s)) with 4 by lia.
  cbn [take].
  destruct (Ascii.eqb "1" a) eqn:Ea, (Ascii.eqb "9" b) eqn:Eb,
    (Ascii.eqb "2" a) eqn:Ea', (Ascii.eqb "0" b) eqn:Eb',
    (Char.is_digit c) eqn:Ec, (Char.is_digit d) eqn:Ed;
    try done;
    repeat match goal with H : Ascii.eqb _ _ = true |- _ =>
      apply Ascii.eqb_eq in H; subst end;
    try discriminate;
    (destruct (_ || _); [|done]); intros [= <- <-]; eexists; (split; [reflexivity|]);
    unfold is_year; rewrite Ec, Ed; done.
Qed.

Lemma clean_name_year (junk : list string) (path : string) :
  (clean_name junk path).2 = ""
  \/ is_year (chars (clean_name junk path).2) = true.
Proof.
  unfold clean_name.
  destruct (re_search year_re _) as [m|] eqn:E; [|by left]. right. simpl.
  apply search_from_result in E as (prev' & s' & _ & E).
  apply year_match in E as (y & Hy & Hyear).
  unfold re_group, Re.group. rewrite Hy. simpl. by rewrite chars_text.
Qed.

(** X8.  The year [get_smart_title] returns, in the server and in the
    desktop back end, is either empty or four characters: 19 or 20 and
    two digits. *)
Theorem smart_title_year (path : string) :
  ((get_smart_title path).2 = ""
   \/ is_year (chars (get_smart_title path).2) = true)
  /\ ((Backend.get_smart_title path).2 = ""
      \/ is_year (chars (Backend.get_smart_title path).2) = true).
Proof.
  split.
  - unfold get_smart_title.
    pose proof (clean_name_year junk path) as H.
    destruct (clean_name junk path) as [n y]. done.
  - apply clean_name_year.
Qed.

(** *** What [re.sub] leaves of the subject *)

Lemma sub_from_Forall (P : ascii -> Prop) r (x : list ascii) prev k s :
  Forall P s -> Forall P x -> Forall P (sub_from r (fun _ => x) prev k s).
Proof.
  intros Hs Hx. revert prev k. induction Hs as [|c s Hc Hs IH]; intros prev k; [done|].
  simpl. destruct k as [|k]; [|apply IH].
  destruct (match_at r prev (c :: s)) as [[[|n] caps]|].
  - apply Forall_app. split; [done|]. constructor; [done|apply IH].
  - apply Forall_app. split; [done|apply IH].
  - constructor; [done|apply IH].
Qed.

Lemma re_sub_Forall (P : ascii -> Prop) r (x s : string) :
  Forall P (chars s) -> Forall P (chars x) -> Forall P (chars (re_sub r x s)).
Proof.
  intros Hs Hx. unfold re_sub, Re.sub. rewrite chars_text. by apply sub_from_Forall.
Qed.

Lemma sub_chr (p : ascii -> bool) (x : ascii) prev (s : list ascii) :
  sub_from (Chr p) (fun _ => [x]) prev 0 s = map (fun c => if p c then x else c) s.
Proof.
  revert prev. induction s as [|c s IH]; intros prev; [done|].
  cbn [sub_from map]. unfold match_at. cbn [run].
  destruct (p c); simpl.
  - replace (S (length s) - length s) with 1 by lia. simpl. by rewrite IH.
  - by rewrite IH.
Qed.

(** *** White space *)

Lemma lstrip_split (l : list ascii) :
  exists ws, l = ws ++ lstrip l /\ Forall (fun c => Char.is_space c = true) ws
             /\ from_option Char.is_space false (head (lstrip l)) = false.
Proof.
  induction l as [|c l (ws & Hl & Hws & Hhead)]; [by exists []|].
  simpl. destruct (Char.is_space c) eqn:Ec.
  - exists (c :: ws). split; [simpl; by rewrite <- Hl|]. split; [by constructor|done].
  - exists []. split; [done|]. split; [done|]. simpl. done.
Qed.

Lemma single_spaces_app (l1 l2 : list ascii) :
  single_spaces (l1 ++ l2) = true ->
  single_spaces l1 = true /\ single_spaces l2 = true.
Proof.
  induction l1 as [|c l1 IH]; [done|]. simpl.
  intros H. apply andb_true_iff in H as [Hc H]. destruct (IH H) as [H1 H2].
  split; [|done]. rewrite H1, andb_true_r.
  destruct (Char.is_space c); [|done]. simpl in *.
  destruct (Ascii.eqb c " "); [|done]. simpl in *.
  destruct l1 as [|d l1]; [done|]. done.
Qed.

Lemma strip_split (s : string) :
  exists ws1 ws2, chars s = ws1 ++ chars (strip s) ++ ws2
    /\ from_option Char.is_space false (head (chars (strip s))) = false
    /\ from_option Char.is_space false (last (chars (strip s))) = false.
Proof.
  unfold strip. rewrite chars_text.
  destruct (lstrip_split (chars s)) as (ws1 & H1 & _ & Hh1).
  destruct (lstrip_split (rev (lstrip (chars s)))) as (ws2 & H2 & _ & Hh2).
  set (y := lstrip (chars s)) in *. set (z := lstrip (rev y)) in *.
  assert (y = rev z ++ rev ws2) as Hy.
  { rewrite <- rev_app_distr, <- H2. by rewrite rev_involutive. }
  exists ws1, (rev ws2). split; [by rewrite <- Hy|]. split.
  - destruct (rev z) as [|c rz] eqn:E; [done|]. rewrite Hy in Hh1. done.
  - destruct z as [|c z']; [done|]. simpl in Hh2.
    cbn [rev]. rewrite last_snoc. done.
Qed.

Lemma span_exists (p : ascii -> bool) (s : list ascii) :
  exists ds rest, s = ds ++ rest /\ Forall (fun c => p c = true) ds /\ stops p rest.
Proof.
  induction s as [|c s (ds & rest & -> & Hds & Hrest)]; [by exists [], []|].
  destruct (p c) eqn:Ec.
  - exists (c :: ds), rest. split; [done|]. split; [by constructor|done].
  - exists [], (c :: ds ++ rest). split; [done|]. split; [done|]. exact Ec.
Qed.

Lemma spaces_match prev (c : ascii) (s : list ascii) :
  (Char.is_space c = false /\ match_at spaces_re prev (c :: s) = None)
  \/ (Char.is_space c = true
      /\ exists ds rest caps, s = ds ++ rest
           /\ stops Char.is_space rest
           /\ match_at spaces_re prev (c :: s) = Some (S (length ds), caps)).
Proof.
  unfold match_at, spaces_re. cbn [run].
  destruct (Char.is_space c) eqn:Ec; [right|by left]. split; [done|].
  destruct (span_exists Char.is_space s) as (ds & rest & -> & Hds & Hrest).
  exists ds, rest, []. split; [done|]. split; [done|].
  erewrite many_longest; [reflexivity|exact Hds|exact Hrest|].
  simpl. rewrite length_app. do 2 f_equal. lia.
Qed.

Lemma squeeze_spaces (n : nat) (s : list ascii) prev :
  length s <= n ->
  let out := sub_from spaces_re (fun _ => chars " ") prev 0 s in
  single_spaces out = true
  /\ (stops Char.is_space s -> from_option Char.is_space false (head out) = false).
Proof.
  revert s prev. induction n as [|n IH]; intros s prev Hn.
  - destruct s; [done|simpl in Hn; lia].
  - destruct s as [|c s]; [done|]. cbn [sub_from]. simpl in Hn.
    destruct (spaces_match prev c s)
      as [[Hc ->]|(Hc & ds & rest & caps & -> & Hrest & ->)].
    + destruct (IH s (Some c) ltac:(lia)) as [H1 _]. cbn zeta in *.
      split; [|done]. cbn [single_spaces]. by rewrite Hc, H1.
    + destruct (sub_from_skip spaces_re (fun _ => chars " ") (Some c)
                  (length ds) (ds ++ rest)) as [prev' ->].
      rewrite drop_app_length.
      rewrite length_app in Hn.
      destruct (IH rest prev' ltac:(lia)) as [H1 H2]. cbn zeta in *.
      split.
      * change (chars " ") with [" "%char] in *.
        cbn [app single_spaces head from_option]. rewrite H1, (H2 Hrest). done.
      * cbn [stops]. intros Hs. congruence.
Qed.

Lemma fold_junk_Forall (P : ascii -> Prop) (junk : list string) (name : string) :
  Forall P (chars name) ->
  Forall P (chars (fold_left (fun name j => re_sub (junk_re j) "" name) junk name)).
Proof.
  revert name. induction junk as [|j junk IH]; intros name Hn; [done|].
  simpl. apply IH. by apply re_sub_Forall.
Qed.

Lemma clean_name_tidy (junk : list string) (path : string) :
  tidy (clean_name junk path).1.
Proof.
  unfold clean_name.
  set (name0 := match re_search year_re _ with
                | Some y_match => _
                | None => _
                end).
  assert (exists y n, name0 = (y, n)) as (y & n & ->) by (destruct name0; eauto).
  cbn [fst].
  set (name1 := re_sub separator_re " " n).
  set (name2 := fold_left _ junk name1).
  set (name3 := re_sub spaces_re " " name2).
  assert (Forall (fun c => Char.one_of ".-_" c = false) (chars name3)) as Hsep.
  { apply re_sub_Forall; [|by repeat constructor].
    apply fold_junk_Forall. unfold name1, re_sub, Re.sub, separator_re.
    rewrite chars_text. change (chars " ") with [" "%char]. rewrite sub_chr.
    apply Forall_forall. intros c Hc. apply list_elem_of_fmap in Hc as (c' & -> & _).
    by destruct (Char.one_of ".-_" c') eqn:E. }
  assert (single_spaces (chars name3) = true) as Hsp.
  { unfold name3, re_sub, Re.sub. rewrite chars_text.
    by apply (squeeze_spaces (length (chars name2))). }
  destruct (strip_split name3) as (ws1 & ws2 & Hsplit & Hhead & Hlast).
  rewrite Hsplit in Hsep, Hsp.
  apply Forall_app in Hsep as [_ Hsep]. apply Forall_app in Hsep as [Hsep _].
  apply single_spaces_app in Hsp as [_ Hsp]. apply single_spaces_app in Hsp as [Hsp _].
  done.
Qed.

(** X9.  The title [get_smart_title] makes of a file name, in the server
    (the first candidate) and in the desktop back end, has none of the
    characters [.], [-] and [_], no white space at its ends, and no white
    space inside other than single spaces. *)
Theorem smart_title_tidy (path : string) :
  tidy (hd "" (get_smart_title path).1) /\ tidy (Backend.get_smart_title path).1.
Proof.
  split; [|apply clean_name_tidy].
  unfold get_smart_title. pose proof (clean_name_tidy junk path) as H.
  destruct (clean_name junk path) as [n y]. simpl in *. by case_match.
Qed.

(** ** The poster route *)

Lemma sub_chr_del (p : ascii -> bool) prev (s : list ascii) :
  sub_from (Chr p) (fun _ => []) prev 0 s = List.filter (fun c => negb (p c)) s.
Proof.
  revert prev. induction s as [|c s IH]; intros prev; [done|].
  cbn [sub_from List.filter]. unfold match_at. cbn [run].
  destruct (p c); simpl.
  - replace (S (length s) - length s) with 1 by lia. simpl. by rewrite IH.
  - by rewrite IH.
Qed.

Lemma safe_vid_filter (vid : string) :
  re_sub (Chr (fun c => negb (safe_char c))) "" vid
    = text (List.filter safe_char (chars vid)).
Proof.
  unfold re_sub, Re.sub. change (chars "") with (@nil ascii).
  rewrite sub_chr_del. f_equal. apply filter_ext. intros c.
  by rewrite negb_involutive.
Qed.

(** X10.  The poster route answers 200 only with the bytes of the file
    [poster_<v>.jpg] of the posters directory, where [v] is what is left
    of the requested id when every character other than a letter, a
    digit, [_] and [-] is removed: no [/] and no [.] of the request gets
    into the path. *)
Theorem poster_route_file (w : world) (vid : string) (st : state) :
  let v := text (List.filter safe_char (chars vid)) in
  let p := join (POSTERS_DIR w) ("poster_" +:+ v +:+ ".jpg") in
  Forall (fun c => safe_char c = true) (chars v)
  /\ contains "/" v = false /\ contains "." v = false
  /\ (status (poster_route w vid st).1 = 200%Z ->
      exists b, read_file w p = Some b
                /\ content (poster_route w vid st).1 = Bytes [b])
  /\ (path_exists w p = false -> (poster_route w vid st).1 = plain "" 404).
Proof.
  intros v p.
  assert (Forall (fun c => safe_char c = true) (chars v)) as Hsafe.
  { unfold v. rewrite chars_text. apply Forall_forall. intros c Hc.
    apply list_elem_of_In, filter_In in Hc as [_ Hc]. done. }
  split; [done|].
  assert (forall x, safe_char x = false -> contains x v = false) as Hnot.
  { intros x Hx. unfold contains. apply not_true_iff_false. intros H.
    apply existsb_exists in H as (c & Hc & E). apply Ascii.eqb_eq in E. subst c.
    rewrite Forall_forall in Hsafe. apply list_elem_of_In, Hsafe in Hc. congruence. }
  split; [by apply Hnot|]. split; [by apply Hnot|].
  unfold poster_route. rewrite safe_vid_filter. fold v. fold p. split.
  - destruct (path_exists w p && _); [|done].
    destruct (read_file w p) as [b|]; [|done]. intros _. by exists b.
  - by intros ->.
Qed.

(** ** Subtitle files next to a video *)

(** X11.  [find_local_subtitle] returns the first of the nine candidates
    that exists, in the order [.srt], [.en.srt], [.tr.srt], [.vtt], ...,
    [.tr.sub], and none when none of them exists; the server's function
    and the desktop back end's give the same answer. *)
Theorem find_local_subtitle_first (w : world) (video_path : string) :
  find_local_subtitle w video_path
    = find (path_exists w) (subtitle_candidates video_path)
  /\ Desktop.find_local_subtitle w video_path = find_local_subtitle w video_path
  /\ (forall r, find_local_subtitle w video_path = Some r ->
        path_exists w r = true
        /\ exists before after,
             subtitle_candidates video_path = before ++ r :: after
             /\ Forall (fun c => path_exists w c = false) before)
  /\ (find_local_subtitle w video_path = None <->
      Forall (fun c => path_exists w c = false) (subtitle_candidates video_path)).
Proof.
  assert (find_local_subtitle w video_path
          = find (path_exists w) (subtitle_candidates video_path)) as E.
  { reflexivity. }
  split; [exact E|]. split; [reflexivity|]. rewrite E. clear E.
  generalize (subtitle_candidates video_path). intros cands. split.
  - intros r. induction cands as [|c cands IH]; [done|]. simpl.
    destruct (path_exists w c) eqn:Ec.
    + intros [= <-]. split; [done|]. by exists [], cands.
    + intros H. destruct (IH H) as (Hr & before & after & -> & Hb).
      split; [done|]. exists (c :: before), after. split; [done|]. by constructor.
  - rewrite find_None_elem, Forall_forall. done.
Qed.

(** ** The metadata worker and the catalog *)





Lemma same_catalog_refl (st : state) : same_catalog st st.
Proof. by split. Qed.

Lemma same_catalog_trans (st1 st2 st3 : state) :
  same_catalog st1 st2 -> same_catalog st2 st3 -> same_catalog st1 st3.
Proof.
  intros [A1 A2 A3 A4 [A5 A5'] A6 A7] [B1 B2 B3 B4 [B5 B5'] B6 B7].
  split; try congruence.
  - split; congruence.
  - intros l. destruct (A6 l) as (? & ? & ? & ?), (B6 l) as (? & ? & ? & ?).
    repeat split; congruence.
  - intros l. destruct (A7 l) as (? & ? & ?), (B7 l) as (? & ? & ?).
    repeat split; congruence.
Qed.

Lemma same_catalog_set_queue (st : state) (q : list item_ref) :
  same_catalog st (set_queue st q).
Proof. by split. Qed.

Lemma same_catalog_set_item_info (st : state) (item : item_ref) (i : info) :
  title i = title (item_info st item) ->
  candidates i = candidates (item_info st item) ->
  same_catalog st (set_item_info st item i).
Proof.
  intros Ht Hc. destruct item as [k|k]; split; simpl; try done.
  - by rewrite length_insert.
  - intros l. unfold movie_at. destruct (decide (l = k)) as [->|Hne].
    + destruct (decide (k < length (movie_heap st))).
      * rewrite list_lookup_insert_eq by done. simpl in *. done.
      * by rewrite list_insert_ge by lia.
    + by rewrite list_lookup_insert_ne.
  - by rewrite length_insert.
  - intros l. unfold meta_at. destruct (decide (l = k)) as [->|Hne].
    + destruct (decide (k < length (meta_heap st))).
      * rewrite list_lookup_insert_eq by done. simpl in *. done.
      * by rewrite list_insert_ge by lia.
    + by rewrite list_lookup_insert_ne.
Qed.

Lemma same_catalog_process_item (w : world) (st : state) (item : item_ref) :
  same_catalog st (process_item w st item).2.
Proof.
  unfold process_item.
  destruct (negb _); [apply same_catalog_refl|].
  destruct (http_json _ _) as [| |res]; try apply same_catalog_refl.
  case_bool_decide; [|apply same_catalog_refl].
  assert (same_catalog st (set_item_info st item (enriched (item_info st item) res)))
    as H1 by (by apply same_catalog_set_item_info).
  destruct (Poster res) as [url|]; [|done].
  destruct (_ && _); [|done].
  unfold fetch_poster. cbn zeta.
  destruct (http_content _ _); [|done].
  destruct (fs_writable _ _); [|done]. cbn [fst snd].
  eapply same_catalog_trans; [exact H1|].
  by apply same_catalog_set_item_info.
Qed.

Lemma same_catalog_drain (items : list item_ref) (w : world) (st : state) :
  same_catalog st (drain items (w, st)).2.
Proof.
  revert w st. induction items as [|item rest IH]; intros w st; [apply same_catalog_refl|].
  cbn [drain fst snd].
  destruct (process_item w (set_queue st rest) item) as [w' st'] eqn:E.
  eapply same_catalog_trans; [|apply IH].
  eapply same_catalog_trans; [apply (same_catalog_set_queue st rest)|].
  change st' with (w', st').2. rewrite <- E. apply same_catalog_process_item.
Qed.

(** X13.  The server's worker leaves the catalog as it is: the movie
    list, the series table, the counters and the configuration are
    unchanged, no object is made or dropped, and every movie and every
    series' meta keeps its id, its path, its title and its candidates. *)
Theorem worker_keeps_catalog (w : world) (st : state) :
  same_catalog st (metadata_worker w st).2.
Proof. apply same_catalog_drain. Qed.

Lemma play_transcoded_witness :
  exists chunks,
    (play Ex2.avi_world 1 (Some "bytes=1-") Ex2.avi_state).1
      = {| status := 200; mimetype := "video/mp4";
           content_range := None; content := Bytes chunks |}
    /\ concat chunks = [x0a; x0b; x0c].
Proof.
  apply (play_transcoded Ex2.avi_world 1 (Some "bytes=1-") Ex2.avi_state
           (AMovie (movie_at (movie_heap Ex2.avi_state) 0))).
  - reflexivity.
  - reflexivity.
  - reflexivity.
  - apply (bool_decide_unpack _). vm_compute. exact I.
  - reflexivity.
Defined.

(** ** A poster from the provider to the poster route *)

Lemma uint_chars_safe (d : Decimal.uint) :
  Forall (fun c => safe_char c = true) (chars (NilEmpty.string_of_uint d)).
Proof. induction d; simpl; constructor; done. Qed.

Lemma str_of_Z_safe (n : Z) :
  Forall (fun c => safe_char c = true) (chars (str_of_Z n)).
Proof.
  unfold str_of_Z. destruct (Z.to_int n) as [d|d]; simpl.
  - destruct d; try apply uint_chars_safe. by repeat constructor.
  - constructor; [done|]. destruct d; try apply uint_chars_safe. by repeat constructor.
Qed.

Lemma filter_all {A} (p : A -> bool) (l : list A) :
  Forall (fun x => p x = true) l -> List.filter p l = l.
Proof. induction 1 as [|x l Hx _ IH]; [done|]. simpl. by rewrite Hx, IH. Qed.

(** X14.  When the provider answers for a movie and names a poster that
    can be downloaded and written, the worker gives the movie the
    provider's fields and the poster address [/get_poster/<id>], and the
    poster route then answers a request for that id with the image. *)
Theorem worker_poster_is_served (w : world) (st : state) (l : nat)
    (res : omdb) (url : string) (img : list byte) :
  let item := MovieRef l in
  let i := item_info st item in
  let pid := str_of_Z (m_id (movie_at (movie_heap st) l)) in
  let u := omdb_url (omdb_api_key (cfg st)) (title i) (default "" (year i)) in
  let p := join (POSTERS_DIR w) ("poster_" +:+ pid +:+ ".jpg") in
  l < length (movie_heap st) ->
  truthy (omdb_api_key (cfg st)) = true ->
  http_json w u = Answer res -> Response res = Some "True" ->
  Poster res = Some url -> truthy url = true -> url <> "N/A" ->
  http_content w url = Some img ->
  fs_writable w p = true ->
  startswith (fs_realpath w p) (fs_realpath w (POSTERS_DIR w)) = true ->
  let r := process_item w st item in
  item_info r.2 item = with_poster (enriched i res) ("/get_poster/" +:+ pid)
  /\ (poster_route r.1 pid r.2).1
     = {| status := 200; mimetype := "image/jpeg"; content_range := None;
          content := Bytes [img] |}.
Proof.
  intros item i pid u p Hl Hkey Hans Hres Hposter Hurl Hna Himg Hw Hreal r.
  assert (forall (j : info), item_info (set_item_info st item j) item = j) as Hset.
  { intros j. simpl. unfold movie_at. by rewrite list_lookup_insert_eq. }
  assert (forall (j : info), item_id_text (set_item_info st item j) item = pid) as Hid.
  { intros j. simpl. unfold pid, movie_at. rewrite list_lookup_insert_eq by done.
    simpl. by destruct (movie_heap st !! l). }
  assert (r = (save_cache
                 (write_poster (log_request (log_request w u) url) p img)
                 (set_item_info (set_item_info st item (enriched i res)) item
                    (with_poster (enriched i res) ("/get_poster/" +:+ pid))),
               set_item_info (set_item_info st item (enriched i res)) item
                 (with_poster (enriched i res) ("/get_poster/" +:+ pid)))) as ->.
  { unfold r, process_item. fold i u. rewrite Hkey. cbn [negb].
    change (http_json (log_request w u) u) with (http_json w u).
    rewrite Hans, bool_decide_eq_true_2 by done. rewrite Hposter, Hurl.
    assert (String.eqb url "N/A" = false) as -> by (by apply String.eqb_neq).
    cbn [negb andb]. unfold fetch_poster.
    change (http_content (log_request (log_request w u) url) url)
      with (http_content w url).
    rewrite Himg. rewrite Hid, Hset.
    change (fs_writable (log_request (log_request w u) url)) with (fs_writable w).
    change (POSTERS_DIR (log_request (log_request w u) url)) with (POSTERS_DIR w).
    fold p. rewrite Hw. reflexivity. }
  cbn [fst snd]. split.
  - simpl. unfold movie_at. rewrite list_lookup_insert_eq; [done|].
    by rewrite length_insert.
  - unfold poster_route. rewrite safe_vid_filter.
    assert (List.filter safe_char (chars pid) = chars pid) as ->
      by apply filter_all, str_of_Z_safe.
    rewrite text_chars.
    set (w' := save_cache _ _).
    assert (POSTERS_DIR w' = POSTERS_DIR w) as -> by (unfold w', save_cache; by case_match).
    fold pid p.
    assert (fs_realpath w' = fs_realpath w) as -> by (unfold w', save_cache; by case_match).
    assert (poster_files w' = Dict.set p img (poster_files w)) as Hfiles
      by (unfold w', save_cache; by case_match).
    unfold path_exists, read_file. rewrite Hfiles, dict_get_set, decide_True by done.
    by rewrite Hreal.
Qed.

Lemma worker_poster_is_served_witness :
  let r := process_item Ex2.poster_world Ex.inception_state (MovieRef 0) in
  item_info r.2 (MovieRef 0)
    = with_poster (enriched (item_info Ex.inception_state (MovieRef 0))
                     Ex.inception_answer)
        ("/get_poster/" +:+ str_of_Z (m_id (movie_at (movie_heap Ex.inception_state) 0)))
  /\ (poster_route r.1 (str_of_Z (m_id (movie_at (movie_heap Ex.inception_state) 0)))
        r.2).1
     = {| status := 200; mimetype := "image/jpeg"; content_range := None;
          content := Bytes [Ex2.image] |}.
Proof.
  apply (worker_poster_is_served Ex2.poster_world Ex.inception_state 0
           Ex.inception_answer "http://img.example/inception.jpg" Ex2.image).
  - simpl. lia.
  - reflexivity.
  - reflexivity.
  - reflexivity.
  - reflexivity.
  - reflexivity.
  - discriminate.
  - reflexivity.
  - reflexivity.
  - reflexivity.
Defined.

(** ** The configuration *)

Lemma with_defaults_get (loaded : json) (k : string) :
  Dict.get k (default DEFAULT_CONFIG (with_defaults loaded)) =
    match loaded with
    | JDict d =>
        match Dict.get k (reverse d) with
        | Some v => Some v
        | None => Dict.get k DEFAULT_CONFIG
        end
    | _ => Dict.get k DEFAULT_CONFIG
    end.
Proof. destruct loaded; try done. exact (dict_get_update _ _ _). Qed.

Lemma with_defaults_NoDup (loaded : json) :
  NoDup (Dict.keys (default DEFAULT_CONFIG (with_defaults loaded))).
Proof.
  assert (NoDup (Dict.keys DEFAULT_CONFIG)) as H
    by (apply (bool_decide_unpack _); vm_compute; exact I).
  destruct loaded; try done. exact (dict_update_NoDup _ _ H).
Qed.

Lemma init_is_load_config (fs : config_store) :
  Desktop.__init__ fs = Settings.load_config fs.
Proof.
  unfold Desktop.__init__, Desktop.load, Settings.load_config.
  by destruct (config_file fs).
Qed.

Lemma load_config_NoDup (fs : config_store) :
  NoDup (Dict.keys (Settings.load_config fs)).
Proof.
  unfold Settings.load_config.
  destruct (config_file fs) as [| |loaded]; try apply with_defaults_NoDup;
    apply (bool_decide_unpack _); vm_compute; exact I.
Qed.

Lemma load_config_has_defaults (fs : config_store) (k : string) :
  is_Some (Dict.get k DEFAULT_CONFIG) ->
  is_Some (Dict.get k (Settings.load_config fs)).
Proof.
  unfold Settings.load_config. intros Hk.
  destruct (config_file fs) as [| |loaded]; try done.
  rewrite with_defaults_get. destruct loaded; try done.
  by destruct (Dict.get k (reverse d)).
Qed.

(** X15.  Whatever the configuration file holds, or when there is none,
    the configuration that is loaded has every key of the defaults, each
    key once; a key the file's object has takes the file's value, every
    other default key its default.  A file that does not hold an object
    gives the defaults.  The server's [load_config] and the desktop's
    [Config()] load the same configuration. *)
Theorem load_config_defaults (fs : config_store) :
  NoDup (Dict.keys (Settings.load_config fs))
  /\ (forall k, is_Some (Dict.get k DEFAULT_CONFIG) ->
        is_Some (Dict.get k (Settings.load_config fs)))
  /\ (forall d k v, config_file fs = Holds (JDict d) ->
        Dict.get k (reverse d) = Some v ->
        Dict.get k (Settings.load_config fs) = Some v)
  /\ (forall d k, config_file fs = Holds (JDict d) ->
        Dict.get k (reverse d) = None ->
        Dict.get k (Settings.load_config fs) = Dict.get k DEFAULT_CONFIG)
  /\ ((forall d, config_file fs <> Holds (JDict d)) ->
      Settings.load_config fs = DEFAULT_CONFIG)
  /\ Desktop.__init__ fs = Settings.load_config fs.
Proof.
  assert (NoDup (Dict.keys DEFAULT_CONFIG)) as Hnd
    by (apply (bool_decide_unpack _); vm_compute; exact I).
  unfold Desktop.__init__, Desktop.load, Settings.load_config.
  destruct (config_file fs) as [| |loaded] eqn:E.
  - repeat split; try done.
  - repeat split; try done.
  - split; [apply with_defaults_NoDup|]. split.
    { intros k Hk. rewrite with_defaults_get. destruct loaded; try done.
      by destruct (Dict.get k (reverse d)). }
    split.
    { intros d k v [= ->] Hget. by rewrite with_defaults_get, Hget. }
    split.
    { intros d k [= ->] Hget. by rewrite with_defaults_get, Hget. }
    split; [|done].
    intros Hno. destruct loaded; try done. by specialize (Hno d).
Qed.

Lemma dict_get_update_keeps {K V} `{EqDecision K} (k : K) (d new : list (K * V)) :
  is_Some (Dict.get k d) -> is_Some (Dict.get k (Dict.update d new)).
Proof. intros H. rewrite dict_get_update. by destruct (Dict.get k (reverse new)). Qed.

(** X16.  What the settings dialog saves is there after a restart: once
    [Config.update] wrote the file, a new [Config()] gives, for every key,
    the value the updated configuration has, which is the value of the
    update for the keys it names and the former value for the others.
    The same holds for the server's [save_config] and [load_config]. *)
Theorem config_update_persists (fs0 fs : config_store) (data : list (string * json)) :
  config_writable fs = true ->
  NoDup (Dict.keys data) ->
  let c := Desktop.update (Desktop.__init__ fs0) fs data in
  (forall k, Dict.get k c.1 =
     match Dict.get k data with
     | Some v => Some v
     | None => Dict.get k (Desktop.__init__ fs0)
     end)
  /\ (forall k dflt, Desktop.get (Desktop.__init__ c.2) k dflt = Desktop.get c.1 k dflt)
  /\ (forall k, Dict.get k (Settings.load_config (Settings.save_config fs c.1))
                = Dict.get k c.1).
Proof.
  intros Hw Hnd c.
  assert (forall k, Dict.get k c.1 =
            match Dict.get k data with
            | Some v => Some v
            | None => Dict.get k (Desktop.__init__ fs0)
            end) as Hget.
  { intros k. unfold c, Desktop.update. cbn [fst].
    by rewrite dict_get_update, dict_get_reverse. }
  split; [exact Hget|].
  pose proof (load_config_NoDup fs0) as Hnd0.
  pose proof (load_config_has_defaults fs0) as Hkeys0.
  pose proof (init_is_load_config fs0) as Hinit0.
  assert (NoDup (Dict.keys c.1)) as Hndc.
  { unfold c, Desktop.update. cbn [fst]. apply dict_update_NoDup. by rewrite Hinit0. }
  assert (forall k, Dict.get k (Dict.update DEFAULT_CONFIG c.1) = Dict.get k c.1) as Hload.
  { intros k. rewrite dict_get_update, dict_get_reverse by done.
    destruct (Dict.get k c.1) eqn:E; [done|].
    destruct (Dict.get k DEFAULT_CONFIG) eqn:E'; [|done].
    assert (is_Some (Dict.get k c.1)) as [v Hv]; [|congruence].
    unfold c, Desktop.update. cbn [fst]. apply dict_get_update_keeps.
    rewrite Hinit0. apply Hkeys0. by eexists. }
  split.
  - intros k dflt. unfold Desktop.get.
    assert (Desktop.__init__ c.2 = Dict.update DEFAULT_CONFIG c.1) as ->.
    { unfold c, Desktop.update, Desktop.save, write_config. cbn [fst snd].
      rewrite Hw. reflexivity. }
    by rewrite Hload.
  - intros k. unfold Settings.save_config, write_config. rewrite Hw.
    unfold Settings.load_config. cbn [config_file with_defaults default].
    apply Hload.
Qed.

Lemma config_update_persists_witness :
  let fs := {| config_file := Missing; config_writable := true |} in
  let data := [("movie_dir", JStr "/movies"); ("omdb_api_key", JStr "key")] in
  let c := Desktop.update (Desktop.__init__ fs) fs data in
  (forall k, Dict.get k c.1 =
     match Dict.get k data with
     | Some v => Some v
     | None => Dict.get k (Desktop.__init__ fs)
     end)
  /\ (forall k dflt, Desktop.get (Desktop.__init__ c.2) k dflt = Desktop.get c.1 k dflt)
  /\ (forall k, Dict.get k (Settings.load_config (Settings.save_config fs c.1))
                = Dict.get k c.1).
Proof.
  apply (config_update_persists {| config_file := Missing; config_writable := true |}
           {| config_file := Missing; config_writable := true |}
           [("movie_dir", JStr "/movies"); ("omdb_api_key", JStr "key")]).
  - reflexivity.
  - apply (bool_decide_unpack _). vm_compute. exact I.
Defined.

(** ** Posters in the desktop back end *)

Lemma item_id_text_set (st : state) (item : item_ref) (i : info) :
  item_id_text (set_item_info st item i) item = item_id_text st item.
Proof.
  destruct item as [k|k]; simpl; unfold movie_at, meta_at.
  - destruct (decide (k < length (movie_heap st))).
    + rewrite list_lookup_insert_eq by done. simpl. by destruct (movie_heap st !! k).
    + by rewrite list_insert_ge by lia.
  - destruct (decide (k < length (meta_heap st))).
    + rewrite list_lookup_insert_eq by done. simpl. by destruct (meta_heap st !! k).
    + by rewrite list_insert_ge by lia.
Qed.

Lemma item_info_set_allocated (st : state) (item : item_ref) (i : info) :
  item_allocated st item -> item_info (set_item_info st item i) item = i.
Proof.
  destruct item as [k|k]; simpl; intros Hk; unfold movie_at, meta_at;
    by rewrite list_lookup_insert_eq.
Qed.

Lemma safe_id_sub (st : state) (item : item_ref) :
  re_sub (Chr (fun c => negb (safe_char c))) "_" (item_id_text st item)
    = safe_id st item.
Proof.
  unfold re_sub, Re.sub, safe_id. change (chars "_") with ["_"%char].
  rewrite sub_chr. f_equal. apply map_ext. intros c. by destruct (safe_char c).
Qed.

Lemma truthy_join (a b : string) : truthy b = true -> truthy (join a b) = true.
Proof.
  unfold join. intros Hb. destruct (startswith b "/"); [done|].
  assert (forall x, truthy (x +:+ b) = true) as H.
  { intros x. destruct x; [done|]. done. }
  destruct (_ || _); [apply H|]. destruct a; [done|done].
Qed.

(** X17.  In the desktop back end the name of a poster file is made of
    the item's id with every character other than a letter, a digit, [_]
    and [-] replaced by [_].  [get_poster_path] gives the empty string or
    a file that exists; after [_download_poster] fetched and wrote the
    image of an item, it gives the file that was written, which holds
    the image. *)
Theorem backend_poster_path (w : world) (st : state) (item : item_ref)
    (url : string) (img : list byte) :
  let lp := join (Backend.POSTERS_DIR w) ("poster_" +:+ safe_id st item +:+ ".jpg") in
  let r := Backend._download_poster w st item url in
  Forall (fun c => safe_char c = true) (chars (safe_id st item))
  /\ String.length (safe_id st item) = String.length (item_id_text st item)
  /\ (Desktop.get_poster_path w st item = ""
      \/ path_exists w (Desktop.get_poster_path w st item) = true)
  /\ (item_allocated st item ->
      http_content w url = Some img -> fs_writable w lp = true ->
      Desktop.get_poster_path r.1 r.2 item = lp
      /\ read_file r.1 lp = Some img).
Proof.
  intros lp r. split.
  { unfold safe_id. rewrite chars_text. apply Forall_forall. intros c Hc.
    apply list_elem_of_fmap in Hc as (c' & -> & _). by destruct (safe_char c') eqn:E. }
  split.
  { unfold safe_id. rewrite <- (text_chars (item_id_text st item)) at 2.
    generalize (chars (item_id_text st item)). intros l.
    induction l as [|c l IH]; [done|]. simpl. by rewrite IH. }
  split.
  { unfold Desktop.get_poster_path.
    destruct (truthy _ && path_exists w _) eqn:E.
    - right. by apply andb_true_iff in E as [_ ?].
    - destruct (path_exists w (join _ _)) eqn:E'; [by right|by left]. }
  intros Hal Himg Hw.
  assert (r = (write_poster (log_request w url) lp img,
               set_item_info st item (with_poster (item_info st item) lp))) as ->.
  { unfold r, Backend._download_poster.
    change (http_content (log_request w url) url) with (http_content w url).
    rewrite Himg, safe_id_sub.
    change (fs_writable (log_request w url)) with (fs_writable w).
    change (Backend.POSTERS_DIR (log_request w url)) with (Backend.POSTERS_DIR w).
    fold lp. by rewrite Hw. }
  cbn [fst snd].
  assert (Dict.get lp (poster_files (write_poster (log_request w url) lp img)) = Some img)
    as Hfile by (simpl; by rewrite dict_get_set, decide_True).
  split.
  - unfold Desktop.get_poster_path. rewrite item_info_set_allocated by done.
    cbn [with_poster poster default from_option id].
    assert (truthy lp = true) as -> by (by apply truthy_join).
    unfold path_exists. by rewrite Hfile.
  - unfold read_file. by rewrite Hfile.
Qed.

Lemma backend_poster_path_witness :
  let lp := join (Backend.POSTERS_DIR Ex2.poster_world)
              ("poster_" +:+ safe_id Ex.inception_state (MovieRef 0) +:+ ".jpg") in
  let r := Backend._download_poster Ex2.poster_world Ex.inception_state (MovieRef 0)
             "http://img.example/inception.jpg" in
  Desktop.get_poster_path r.1 r.2 (MovieRef 0) = lp
  /\ read_file r.1 lp = Some Ex2.image.
Proof.
  apply (proj2 (proj2 (proj2
           (backend_poster_path Ex2.poster_world Ex.inception_state (MovieRef 0)
              "http://img.example/inception.jpg" Ex2.image)))).
  - simpl. lia.
  - reflexivity.
  - reflexivity.
Defined.

(** ** Ids and counters *)

Lemma fold_max_ge (l : list Z) (a : Z) :
  (a <= fold_left Z.max l a)%Z /\ Forall (fun x => (x <= fold_left Z.max l a)%Z) l.
Proof.
  revert a. induction l as [|x l IH]; intros a; simpl; [split; [lia|done]|].
  destruct (IH (Z.max a x)) as [H1 H2]. split; [lia|]. constructor; [lia|done].
Qed.

Lemma fold_sid_gt (l : list episode) (s0 : Z) :
  let F := fold_left (fun sid ep => if (sid <=? e_id ep)%Z then (e_id ep + 1)%Z else sid) in
  (s0 <= F l s0)%Z /\ Forall (fun ep => (e_id ep < F l s0)%Z) l.
Proof.
  revert s0. induction l as [|ep l IH]; intros s0; simpl; [split; [lia|done]|].
  destruct (Z.leb_spec s0 (e_id ep)) as [H|H].
  - destruct (IH (e_id ep + 1)%Z) as [H1 H2]. simpl in *. split; [lia|].
    constructor; [lia|done].
  - destruct (IH s0) as [H1 H2]. simpl in *. split; [lia|]. constructor; [lia|done].
Qed.

Lemma max_id_below (ids : list Z) :
  Forall (fun n => (n < match ids with
                        | [] => 1
                        | n :: ns => fold_left Z.max ns n + 1
                        end)%Z) ids.
Proof.
  destruct ids as [|n ns]; [done|].
  destruct (fold_max_ge ns n) as [H1 H2].
  constructor; [lia|]. eapply Forall_impl; [exact H2|]. simpl. intros; lia.
Qed.

Lemma map_movie_at_seq (ms : list movie) :
  map (movie_at ms) (seq 0 (length ms)) = ms.
Proof.
  apply list_eq. intros i. rewrite list_lookup_fmap.
  destruct (decide (i < length ms)) as [Hi|Hi].
  - rewrite lookup_seq_lt by done. simpl. unfold movie_at.
    destruct (lookup_lt_is_Some_2 ms i Hi) as [m Hm]. by rewrite Hm.
  - rewrite lookup_seq_ge by lia. simpl. symmetry. apply lookup_ge_None. lia.
Qed.

(** X18.  When the program starts, the counters are above every id of
    the catalog read from the cache: the movie counter above the id of
    every movie, the episode counter above the id of every episode.  This
    holds for the server's start-up code and for [Scanner.__init__]. *)
Theorem counters_above_ids (w : world) (c : config) (st st0 : state) :
  startup w c = Some st ->
  ids_below st /\ ids_below (Desktop.init_counters st0).
Proof.
  intros Hst. split.
  - revert Hst. unfold startup. destruct (load_cache w) as [| | | | |top]; try done.
    destruct (match Dict.get "movies" top with
              | Some (JList l) => mapM movie_of l
              | Some _ => None
              | None => Some []
              end) as [movies|]; [|done]. cbn [mbind option_bind].
    destruct (match Dict.get "series" top with
              | Some (JDict d) => mapM (fun kv => pair kv.1 <$> series_of kv.2) d
              | Some _ => None
              | None => Some []
              end) as [series|]; [|done]. cbn [mbind option_bind].
    destruct (fold_left place_meta series ([], [])) as [metas sd].
    intros [= <-]. unfold ids_below, catalog_movies.
    cbn [movie_heap movies_data mid sid series_data]. rewrite map_movie_at_seq. split.
    + pose proof (max_id_below (map m_id movies)) as H.
      rewrite Forall_fmap in H. destruct movies as [|m ms]; [done|]. exact H.
    + apply fold_sid_gt.
  - unfold ids_below, catalog_movies, Desktop.init_counters.
    cbn [movie_heap movies_data mid sid series_data]. split.
    + pose proof (max_id_below (map (fun l => m_id (movie_at (movie_heap st0) l))
                                    (movies_data st0))) as H.
      rewrite Forall_fmap in H. rewrite Forall_fmap.
      exact H.
    + apply fold_sid_gt.
Qed.

Lemma counters_above_ids_witness :
  ids_below Ex2.restarted_state /\ ids_below (Desktop.init_counters Ex.scanned_state).
Proof.
  apply (counters_above_ids Ex.scanned_world (cfg Ex.scanned_state)
           Ex2.restarted_state Ex.scanned_state).
  vm_compute. reflexivity.
Defined.

(** *** The scan and the ids *)

Section WalkIds.
Variables (h0 : list movie) (q0 : list item_ref) (mid0 : Z).
Variables (existing by_name : list (string * nat)).
Hypothesis Hexisting : forall p l,
  Dict.get p existing = Some l ->
  l < length h0 /\ path_at h0 l = p /\ (m_id (movie_at h0 l) < mid0)%Z.
Hypothesis Hby_name : forall f l,
  Dict.get f by_name = Some l -> l < length h0 /\ (m_id (movie_at h0 l) < mid0)%Z.

Lemma walk_ids_step pre rf a :
  walk_inv h0 q0 pre a -> walk_ids mid0 a ->
  walk_ids mid0 (scan_movie_file existing by_name a rf).
Proof using Hexisting Hby_name.
  intros [Hlen Hsame _ _ Hnew _] [Hmid Hids].
  destruct rf as [root f]. unfold scan_movie_file.
  destruct (negb (is_video f)); [done|].
  destruct (found (re_search episode_re_nocase f)); [done|].
  assert (Forall (fun l => l < length (mw_heap a)) (mw_new a)) as Hlt
    by (eapply Forall_impl; [exact Hnew|]; by intros l [? _]).
  destruct (Dict.get (join root f) existing) as [l|] eqn:Hex.
  - (* found by its path *)
    destruct (Hexisting _ _ Hex) as (Hl & _ & Hid).
    split; cbn [mw_mid mw_heap mw_new mw_queue]; [done|].
    apply Forall_app. split; [done|]. constructor; [|done].
    destruct (Hsame l Hl) as [-> _]. lia.
  - destruct (Dict.get f by_name) as [l|] eqn:Hbn.
    + (* found by its name *)
      destruct (Hby_name _ _ Hbn) as (Hl & Hid).
      assert (forall l', m_id (movie_at (set_path (mw_heap a) l (join root f)) l')
                         = m_id (movie_at (mw_heap a) l')) as Hsp.
      { intros l'. destruct (movie_at_set_path (mw_heap a) l l' (join root f))
          as (? & ? & _). done. }
      split; cbn [mw_mid mw_heap mw_new mw_queue]; [done|].
      apply Forall_app. split.
      * eapply Forall_impl; [exact Hids|]. intros l' H. by rewrite Hsp.
      * constructor; [|done]. rewrite Hsp.
        destruct (Hsame l Hl) as [-> _]. lia.
    + (* a new movie *)
      destruct (get_smart_title (join root f)) as [c y].
      cbn [alloc]. split; cbn [mw_mid mw_heap mw_new mw_queue]; [lia|].
      apply Forall_app. split.
      * rewrite Forall_forall in Hids, Hlt. apply Forall_forall. intros l' Hl'.
        specialize (Hids l' Hl'). specialize (Hlt l' Hl').
        unfold movie_at in *. rewrite lookup_app_l by done. lia.
      * constructor; [|done]. unfold movie_at.
        rewrite lookup_app_r, Nat.sub_diag by done. simpl. lia.
Qed.

Lemma walk_ids_fold files :
  walk_ids mid0
    (fold_left (scan_movie_file existing by_name) files
       {| mw_heap := h0; mw_queue := q0; mw_new := []; mw_mid := mid0 |}).
Proof using Hexisting Hby_name.
  refine (proj2 (fold_left_inv
            (fun pre a => walk_inv h0 q0 pre a /\ walk_ids mid0 a) _ _ _ _ _)).
  - split.
    + split; simpl; try done.
      * intros l Hl. by left.
      * exists []. by rewrite app_nil_r.
    + split; simpl; [lia|done].
  - intros pre x a' [Ha' Hd]. split.
    + apply walk_inv_step.
      * intros p l Hget. by destruct (Hexisting _ _ Hget) as (? & ? & _).
      * intros f l Hget. by destruct (Hby_name _ _ Hget) as (? & _).
      * done.
    + by apply (walk_ids_step pre).
Qed.
End WalkIds.

Lemma walk_queued_step existing by_name rf a :
  Forall (fun l => l < length (mw_heap a)) (mw_new a) ->
  walk_queued a ->
  walk_queued (scan_movie_file existing by_name a rf).
Proof.
  intros Hlt Hqueued. destruct rf as [root f]. unfold scan_movie_file, walk_queued in *.
  destruct (negb (is_video f)); [done|].
  destruct (found (re_search episode_re_nocase f)); [done|].
  destruct (Dict.get (join root f) existing) as [l|] eqn:Hex.
  - cbn [mw_mid mw_heap mw_new mw_queue]. apply Forall_app. split.
    + eapply Forall_impl; [exact Hqueued|]. intros l' H Hr. specialize (H Hr).
      destruct (negb _); [apply elem_of_app; by left|done].
    + constructor; [|done]. intros ->. cbn [negb]. apply elem_of_app. right. left.
  - destruct (Dict.get f by_name) as [l|] eqn:Hbn.
    + assert (forall l', m_info (movie_at (set_path (mw_heap a) l (join root f)) l')
                         = m_info (movie_at (mw_heap a) l')) as Hsp.
      { intros l'. destruct (movie_at_set_path (mw_heap a) l l' (join root f))
          as (? & ? & _). done. }
      cbn [mw_mid mw_heap mw_new mw_queue]. apply Forall_app. split.
      * eapply Forall_impl; [exact Hqueued|]. intros l' H Hr.
        rewrite Hsp in Hr. specialize (H Hr).
        destruct (negb _); [apply elem_of_app; by left|done].
      * constructor; [|done]. intros ->. cbn [negb]. apply elem_of_app. right. left.
    + destruct (get_smart_title (join root f)) as [c y].
      cbn [alloc mw_mid mw_heap mw_new mw_queue]. apply Forall_app. split.
      * rewrite Forall_forall in Hqueued, Hlt. apply Forall_forall. intros l' Hl' Hr.
        specialize (Hlt l' Hl'). apply elem_of_app. left.
        apply (Hqueued l' Hl'). unfold movie_at in *.
        by rewrite lookup_app_l in Hr.
      * constructor; [|done]. intros _. apply elem_of_app. right. left.
Qed.

Section WalkQueued.
Variables (h0 : list movie) (q0 : list item_ref).
Variables (existing by_name : list (string * nat)).
Hypothesis Hexisting : forall p l,
  Dict.get p existing = Some l -> l < length h0 /\ path_at h0 l = p.
Hypothesis Hby_name : forall f l, Dict.get f by_name = Some l -> l < length h0.

Lemma walk_queued_fold files (mid0 : Z) :
  walk_queued
    (fold_left (scan_movie_file existing by_name) files
       {| mw_heap := h0; mw_queue := q0; mw_new := []; mw_mid := mid0 |}).
Proof using Hexisting Hby_name.
  refine (proj2 (fold_left_inv
            (fun pre a => walk_inv h0 q0 pre a /\ walk_queued a) _ _ _ _ _)).
  - split.
    + split; simpl; try done.
      * intros l Hl. by left.
      * exists []. by rewrite app_nil_r.
    + by unfold walk_queued.
  - intros pre x a' [Ha' Hd]. split.
    + by apply walk_inv_step.
    + apply walk_queued_step; [|done].
      destruct Ha' as [_ _ _ _ Hnew _].
      eapply Forall_impl; [exact Hnew|]. by intros l [? _].
Qed.
End WalkQueued.

(** X19.  A scan keeps the ids of the catalog below the counters, and
    the counters do not go back: when every movie of the catalog has an
    id below the movie counter and every episode an id below the episode
    counter, the same holds after [scan_videos]. *)
Theorem scan_keeps_ids_below (w : world) (st : state) :
  movies_allocated st -> ids_below st ->
  let st' := (scan_videos w st).1 in
  ids_below st' /\ (mid st <= mid st')%Z /\ (sid st <= sid st')%Z.
Proof.
  intros Hwf [Hmovies Hold_eps] st'.
  (* the movie walk *)
  assert (walk_ids (mid st)
    (fold_left
       (scan_movie_file
          (Dict.update [] (map (fun l => (m_path (movie_at (movie_heap st) l), l))
                               (movies_data st)))
          (Dict.update [] (map (fun l => (basename (m_path (movie_at (movie_heap st) l)), l))
                               (movies_data st))))
       (if truthy (movie_dir (cfg st)) && fs_exists w (movie_dir (cfg st))
        then walk_files w (movie_dir (cfg st)) else [])
       {| mw_heap := movie_heap st; mw_queue := metadata_queue st;
          mw_new := []; mw_mid := mid st |})) as [Hmid Hids].
  { assert (forall (key : string -> string) p l,
              Dict.get p (Dict.update []
                 (map (fun l => (key (m_path (movie_at (movie_heap st) l)), l))
                      (movies_data st))) = Some l ->
              l < length (movie_heap st) /\ key (path_at (movie_heap st) l) = p
              /\ (m_id (movie_at (movie_heap st) l) < mid st)%Z) as Hdict.
    { intros key p l Hget.
      destruct (existing_movies_spec st key p l Hwf Hget) as [Hl Hk].
      split; [done|]. split; [done|].
      apply (dict_of_list_get (fun l => key (m_path (movie_at (movie_heap st) l)))) in Hget
        as [Hin _].
      unfold catalog_movies in Hmovies. rewrite Forall_fmap, Forall_forall in Hmovies.
      by apply Hmovies. }
    apply (walk_ids_fold (movie_heap st) (metadata_queue st)).
    - intros p l Hget. by apply (Hdict (fun p => p)).
    - intros f l Hget. by destruct (Hdict basename f l Hget) as (? & _ & ?). }
  (* the series walk *)
  pose proof (series_inv_fold w (sid st)
    (if truthy (series_dir (cfg st)) && fs_exists w (series_dir (cfg st))
     then walk_files w (series_dir (cfg st)) else [])) as [Hsid Hkeys Hsids].
  unfold st', scan_videos. cbn [fst].
  rewrite (if_fold_left _ (scan_movie_file _ _)), (if_fold_left _ (scan_series_file w)).
  set (mw := fold_left (scan_movie_file _ _) _ _) in *.
  set (sw := fold_left (scan_series_file w) _ _) in *.
  pose proof (merge_inv_fold (series_data st) (meta_heap st) (mw_queue mw) (sw_new sw))
    as [_ _ Hfkeys Hfinal _].
  set (sg := fold_left (merge_series (series_data st)) _ _) in *.
  unfold ids_below, catalog_movies. cbn [movie_heap movies_data mid sid series_data].
  split; [split|split; done].
  - by rewrite Forall_fmap.
  - apply Forall_forall. intros ep Hep. unfold all_episodes in Hep.
    apply elem_of_concat in Hep as (eps & Heps & Hep).
    apply elem_of_concat in Heps as (lists & Hlists & Heps).
    apply list_elem_of_fmap in Hlists as (s & -> & Hs).
    unfold Dict.values in Hs. apply list_elem_of_fmap in Hs as ([name s'] & -> & Hin).
    cbn [snd] in *.
    assert ((name, s') ∈ series_data st \/ (name, s') ∈ sg_final sg) as [Hold|Hnew].
    { clear -Hin. revert Hin. unfold Dict.update.
      generalize (series_data st) as d. induction (sg_final sg) as [|[k v] new IH];
        intros d Hin; [by left|].
      cbn [fold_left] in Hin. destruct (IH _ Hin) as [H|H]; [|right; by right].
      cbn [fst snd] in H. apply dict_set_elem in H as [[= -> ->]|H]; [right; left|by left]. }
    + assert (ep ∈ all_episodes (series_data st)) as Hall.
      { unfold all_episodes. apply elem_of_concat. exists eps. split; [|done].
        apply elem_of_concat. exists (season_lists (s_seasons s')). split; [|done].
        apply list_elem_of_fmap. exists s'. split; [done|].
        unfold Dict.values. apply list_elem_of_fmap. by exists (name, s'). }
      rewrite Forall_forall in Hold_eps. specialize (Hold_eps ep Hall). lia.
    + pose proof (dict_get_NoDup name s' (sg_final sg) Hfkeys Hnew) as Hget.
      specialize (Hfinal name). rewrite Hget in Hfinal. cbn [fmap option_fmap option_map] in Hfinal.
      destruct (Dict.get name (reverse (sw_new sw))) as [seasons|] eqn:Hrev; [|done].
      injection Hfinal as Hss. rewrite Hss in Heps. cbn [season_lists] in Heps.
      apply dict_get_Some in Hrev. rewrite elem_of_reverse in Hrev.
      assert (ep ∈ episodes_of seasons) as Hepo.
      { unfold episodes_of. apply elem_of_concat. by exists eps. }
      specialize (Hsids _ _ _ Hrev Hepo). lia.
Qed.

Lemma scan_keeps_ids_below_witness :
  let st' := (scan_videos Ex.scanned_world Ex.scanned_state).1 in
  ids_below st' /\ (mid Ex.scanned_state <= mid st')%Z
  /\ (sid Ex.scanned_state <= sid st')%Z.
Proof.
  apply (scan_keeps_ids_below Ex.scanned_world Ex.scanned_state).
  - apply (bool_decide_unpack _). vm_compute. exact I.
  - split; vm_compute; repeat constructor.
Defined.

(** *** The scan and the queue *)

Lemma merge_queued_step old (a : series_merge) (entry : string * list (Z * list episode)) :
  merge_queued a -> merge_queued (merge_series old a entry).
Proof.
  intros Hq. destruct entry as [name seasons]. unfold merge_series, merge_queued in *.
  destruct (match Dict.get name old with Some s => s_meta s | None => None end)
    as [l0|]; cbn [alloc sg_heap sg_queue sg_final].
  - intros name' s l Hin Hm Hr.
    apply dict_set_elem in Hin as [[= -> ->]|Hin].
    + cbn [s_meta] in Hm. injection Hm as <-. rewrite Hr. cbn [negb].
      apply elem_of_app. right. left.
    + specialize (Hq _ _ _ Hin Hm Hr).
      destruct (negb _); [apply elem_of_app; by left|done].
  - intros name' s l Hin Hm Hr.
    apply dict_set_elem in Hin as [[= -> ->]|Hin].
    + cbn [s_meta] in Hm. injection Hm as <-. apply elem_of_app. right. left.
    + apply elem_of_app. left. apply (Hq _ _ _ Hin Hm).
      match type of Hr with context [meta_at (?h ++ [?m]) l] =>
        destruct (meta_at_app h m l) as [[_ E]|[[_ E]|(_ & _ & E)]] end.
      * by rewrite E in Hr.
      * destruct (decide (l < length (sg_heap a))) as [Hl|Hl].
        -- unfold meta_at in *. by rewrite lookup_app_l in Hr.
        -- unfold meta_at. by rewrite (proj2 (lookup_ge_None _ _)) by lia.
      * by rewrite E.
Qed.

Lemma merge_queued_fold old (h0 : list meta) (q0 : list item_ref)
    (found : list (string * list (Z * list episode))) :
  merge_queued (fold_left (merge_series old) found
                  {| sg_heap := h0; sg_queue := q0; sg_final := [] |}).
Proof.
  apply (fold_left_inv (fun _ => merge_queued)).
  - intros name s l Hin. by apply elem_of_nil in Hin.
  - intros _ x a Ha. by apply merge_queued_step.
Qed.

(** X20.  After a scan every movie of the catalog whose rating is missing
    or empty is on the metadata queue, and so is the meta of every series
    the scan discovered whose rating is missing or empty. *)
Theorem scan_queues_unrated (w : world) (st : state) :
  movies_allocated st ->
  let st' := (scan_videos w st).1 in
  (forall l, l ∈ movies_data st' -> unrated st' (MovieRef l) ->
     MovieRef l ∈ metadata_queue st')
  /\ (forall name s l,
        is_Some (Dict.get name (discovered_series w st)) ->
        Dict.get name (series_data st') = Some s -> s_meta s = Some l ->
        unrated st' (MetaRef l) -> MetaRef l ∈ metadata_queue st').
Proof.
  intros Hwf st'. unfold st', scan_videos, discovered_series, unrated. cbn [fst].
  rewrite (if_fold_left _ (scan_movie_file _ _)), !(if_fold_left _ (scan_series_file w)).
  set (mw := fold_left (scan_movie_file _ _) _ _).
  set (sw := fold_left (scan_series_file w) _ _).
  assert (walk_queued mw) as Hmq.
  { apply (walk_queued_fold (movie_heap st) (metadata_queue st)).
    - intros p l Hget. by apply (existing_movies_spec st (fun p => p)) in Hget.
    - intros f l Hget. by apply (existing_movies_spec st basename) in Hget as [? _]. }
  pose proof (merge_inv_fold (series_data st) (meta_heap st) (mw_queue mw) (sw_new sw))
    as [_ _ Hfkeys Hfinal (added & Hq & _)].
  pose proof (merge_queued_fold (series_data st) (meta_heap st) (mw_queue mw) (sw_new sw))
    as Hsq.
  pose proof (series_inv_fold w (sid st)
    (if truthy (series_dir (cfg st)) && fs_exists w (series_dir (cfg st))
     then walk_files w (series_dir (cfg st)) else [])) as [_ Hkeys _].
  fold sw in Hkeys.
  set (sg := fold_left (merge_series (series_data st)) _ _) in *.
  cbn [movies_data metadata_queue series_data item_info movie_heap meta_heap]. split.
  - intros l Hl Hr. rewrite Hq. apply elem_of_app. left.
    unfold walk_queued in Hmq. rewrite Forall_forall in Hmq. by apply Hmq.
  - intros name s l [seasons Hdisc] Hget Hm Hr.
    apply (Hsq name s l); [|done|done].
    rewrite dict_get_update, (dict_get_reverse _ _ Hfkeys) in Hget.
    specialize (Hfinal name). rewrite (dict_get_reverse _ _ Hkeys), Hdisc in Hfinal.
    destruct (Dict.get name (sg_final sg)) as [s'|] eqn:E; [|done].
    injection Hget as ->. by apply dict_get_Some.
Qed.

Lemma scan_queues_unrated_witness :
  let st' := (scan_videos Ex.scanned_world Ex.scanned_state).1 in
  (forall l, l ∈ movies_data st' -> unrated st' (MovieRef l) ->
     MovieRef l ∈ metadata_queue st')
  /\ (forall name s l,
        is_Some (Dict.get name (discovered_series Ex.scanned_world Ex.scanned_state)) ->
        Dict.get name (series_data st') = Some s -> s_meta s = Some l ->
        unrated st' (MetaRef l) -> MetaRef l ∈ metadata_queue st').
Proof.
  apply (scan_queues_unrated Ex.scanned_world Ex.scanned_state).
  apply (bool_decide_unpack _). vm_compute. exact I.
Defined.

(** ** A scan without a directory *)

Lemma dict_update_nil {K V} `{EqDecision K} (d : list (K * V)) : Dict.update d [] = d.
Proof. done. Qed.

(** X21.  When the movie directory is not configured or does not exist,
    the server's scan empties the movie list (no object and no counter is
    touched), while the desktop scanner's [_scan_movies] leaves the list
    as it is.  When the series directory is not configured or does not
    exist, both keep the series table. *)
Theorem scan_without_directory (w : world) (st : state) :
  (truthy (movie_dir (cfg st)) && fs_exists w (movie_dir (cfg st)) = false ->
   movies_data (scan_videos w st).1 = []
   /\ movie_heap (scan_videos w st).1 = movie_heap st
   /\ mid (scan_videos w st).1 = mid st
   /\ Backend._scan_movies w st = st)
  /\ (truthy (series_dir (cfg st)) && fs_exists w (series_dir (cfg st)) = false ->
      series_data (scan_videos w st).1 = series_data st
      /\ meta_heap (scan_videos w st).1 = meta_heap st
      /\ sid (scan_videos w st).1 = sid st
      /\ Backend._scan_series w st = st).
Proof.
  split.
  - intros H. unfold scan_videos, Backend._scan_movies. cbn [fst]. rewrite H.
    cbn [movies_data movie_heap mid mw_new mw_heap mw_mid].
    repeat split. apply andb_false_iff in H as [-> | ->]; [done|].
    by rewrite orb_true_r.
  - intros H. unfold scan_videos, Backend._scan_series. cbn [fst]. rewrite H.
    cbn [series_data meta_heap sid sw_new sw_sid fold_left sg_final sg_heap].
    repeat split. apply andb_false_iff in H as [-> | ->]; [done|].
    by rewrite orb_true_r.
Qed.

(** ** The error answers of the play route *)

(** X22.  [play] answers 404 [Not Found] for an id the catalog does not
    have; 403 [Forbidden] for an entry whose path is not accepted, whether
    the file exists or not; 404 [File Not Found] for an accepted path that
    does not exist; and 404 [Error] when the size of a file that is served
    itself cannot be read.  In each case no byte of a file is sent. *)
Theorem play_errors (w : world) (vid : Z) (h : option string) (st : state) :
  (find_target st vid = None -> (play w vid h st).1 = plain "Not Found" 404)
  /\ (forall t, find_target st vid = Some t ->
        _validate_path w st (entry_path t) = false ->
        (play w vid h st).1 = plain "Forbidden" 403)
  /\ (forall t, find_target st vid = Some t ->
        _validate_path w st (entry_path t) = true ->
        path_exists w (entry_path t) = false ->
        (play w vid h st).1 = plain "File Not Found" 404)
  /\ (forall t, find_target st vid = Some t ->
        _validate_path w st (entry_path t) = true ->
        path_exists w (entry_path t) = true ->
        served_from_file w (entry_path t) ->
        fs_getsize w (entry_path t) = None ->
        (play w vid h st).1 = plain "Error" 404).
Proof.
  split; [apply play_not_found|]. split; [intros t; apply play_forbidden|]. split.
  - intros t Ht Hv He. unfold play. by rewrite Ht, Hv, He.
  - intros t Ht Hv He Hs Hsize.
    rewrite (play_serve_range _ _ _ _ _ Ht Hv He Hs). unfold serve_range.
    by rewrite Hsize.
Qed.

(** ** Range headers that are not understood *)

Lemma range_search_none (s : list ascii) :
  Forall (fun c => Char.is_digit c = false) s -> re_search range_re (text s) = None.
Proof.
  intros Hs. unfold re_search, search. rewrite chars_text.
  rewrite <- (app_nil_r s). rewrite search_from_skip.
  - done.
  - intros a c b ->. apply range_no_match.
    apply Forall_app in Hs as [_ Hs]. by inversion Hs.
Qed.

(** X23.  A Range header without a digit, such as [bytes=] or [none], is
    answered like a request without the header. *)
Theorem play_range_ignored (w : world) (vid : Z) (st : state) (t : entry)
    (size : Z) (h : list ascii) :
  find_target st vid = Some t ->
  _validate_path w st (entry_path t) = true ->
  path_exists w (entry_path t) = true ->
  served_from_file w (entry_path t) ->
  fs_getsize w (entry_path t) = Some size ->
  Forall (fun c => Char.is_digit c = false) h ->
  play w vid (Some (text h)) st = play w vid None st.
Proof.
  intros Ht Hv He Hs Hsize Hnd. apply injective_projections; [|by rewrite !play_state].
  rewrite !(play_serve_range _ _ _ _ _ Ht Hv He Hs).
  unfold serve_range, parse_range. rewrite Hsize.
  destruct (truthy (text h)); [|done]. by rewrite range_search_none.
Qed.

Lemma play_range_ignored_witness :
  play Ex.one_movie_world 1 (Some (text (chars "bytes="))) Ex.one_movie_state
    = play Ex.one_movie_world 1 None Ex.one_movie_state.
Proof.
  apply (play_range_ignored Ex.one_movie_world 1 Ex.one_movie_state
           (AMovie (movie_at (movie_heap Ex.one_movie_state) 0)) 4 (chars "bytes=")).
  - reflexivity.
  - reflexivity.
  - reflexivity.
  - right. reflexivity.
  - reflexivity.
  - repeat constructor.
Defined.

(** X24.  A Range header whose start has more digits than [int] accepts
    is answered 500: the exception [int] raises is not caught. *)
Theorem play_range_overlong (w : world) (vid : Z) (st : state) (t : entry)
    (size : Z) (pre ds de post : list ascii) :
  find_target st vid = Some t ->
  _validate_path w st (entry_path t) = true ->
  path_exists w (entry_path t) = true ->
  served_from_file w (entry_path t) ->
  fs_getsize w (entry_path t) = Some size ->
  Forall (fun c => Char.is_digit c = false) pre ->
  digits ds -> Forall (fun c => Char.is_digit c = true) de ->
  stops Char.is_digit post ->
  0 < int_max_str_digits w < length ds ->
  (play w vid (Some (text (pre ++ ds ++ "-"%char :: de ++ post))) st).1
    = plain "Internal Server Error" 500.
Proof.
  intros Ht Hv He Hs Hsize Hpre Hds Hde Hpost Hlim.
  rewrite (play_serve_range _ _ _ _ _ Ht Hv He Hs).
  unfold serve_range, parse_range. rewrite Hsize.
  assert (truthy (text (pre ++ ds ++ "-"%char :: de ++ post)) = true) as ->.
  { destruct Hds as [Hne _].
    destruct pre as [|c pre]; [destruct ds as [|d ds]; done|done]. }
  rewrite (range_search pre ds de post Hpre Hds Hde Hpost).
  unfold Re.group. cbn [m_groups lookup list_lookup default from_option id Nat.sub].
  unfold int_of.
  destruct (Nat.ltb_spec 0 (int_max_str_digits w)); [|lia].
  destruct (Nat.ltb_spec (int_max_str_digits w) (length ds)); [|lia].
  done.
Qed.

Lemma play_range_overlong_witness :
  (play Ex2.strict_world 1
     (Some (text (chars "bytes=" ++ Ex2.ones ++ "-"%char :: [] ++ [])))
     Ex.one_movie_state).1
    = plain "Internal Server Error" 500.
Proof.
  apply (play_range_overlong Ex2.strict_world 1 Ex.one_movie_state
           (AMovie (movie_at (movie_heap Ex.one_movie_state) 0)) 4
           (chars "bytes=") Ex2.ones [] []).
  - reflexivity.
  - reflexivity.
  - reflexivity.
  - right. reflexivity.
  - reflexivity.
  - repeat constructor.
  - split; [done|]. apply (bool_decide_unpack _). vm_compute. exact I.
  - constructor.
  - exact I.
  - vm_compute. lia.
Defined.

(** ** The ids of the episodes of a scan *)

Lemma dict_set_bind {K V A} `{EqDecision K} (g : V -> list A) (dflt : V)
    (k : K) (v : V) (d : list (K * V)) (x : list A) :
  g dflt = [] ->
  g v ≡ₚ g (default dflt (Dict.get k d)) ++ x ->
  concat (map (fun kv => g kv.2) (Dict.set k v d))
    ≡ₚ concat (map (fun kv => g kv.2) d) ++ x.
Proof.
  intros Hd. induction d as [|[k0 v0] d IH]; cbn [Dict.get Dict.set]; intros Hv.
  - simpl in *. rewrite Hd in Hv. simpl in Hv. by rewrite app_nil_r.
  - destruct (decide (k = k0)) as [->|Hne]; cbn [map concat snd].
    + simpl in Hv. rewrite Hv. rewrite <- !app_assoc. apply Permutation_app_head.
      apply Permutation_app_comm.
    + rewrite (IH Hv). by rewrite app_assoc.
Qed.

Lemma append_episode_episodes sname s ep d :
  discovered_episodes (append_episode sname s ep d) ≡ₚ discovered_episodes d ++ [ep].
Proof.
  unfold discovered_episodes, append_episode.
  apply (dict_set_bind episodes_of []); [done|].
  assert (forall x, episodes_of x
                    = concat (map (fun kv : Z * list episode => id kv.2) x)) as E
    by reflexivity.
  rewrite !E. apply (dict_set_bind id []); [done|]. done.
Qed.

Lemma elem_of_discovered_episodes ep found :
  ep ∈ discovered_episodes found <->
  exists name seasons, (name, seasons) ∈ found /\ ep ∈ episodes_of seasons.
Proof.
  unfold discovered_episodes. rewrite elem_of_concat. split.
  - intros (l & Hl & Hep). apply list_elem_of_fmap in Hl as ([name seasons] & -> & Hin).
    by exists name, seasons.
  - intros (name & seasons & Hin & Hep). exists (episodes_of seasons). split; [|done].
    apply list_elem_of_fmap. by exists (name, seasons).
Qed.

Lemma series_ids_fold (w : world) (sid0 : Z) (files : list (string * string)) :
  let sw := fold_left (scan_series_file w) files {| sw_new := []; sw_sid := sid0 |} in
  series_inv sid0 sw /\ NoDup (map e_id (discovered_episodes (sw_new sw))).
Proof.
  apply (fold_left_inv
           (fun _ a => series_inv sid0 a
                       /\ NoDup (map e_id (discovered_episodes (sw_new a))))).
  - split; [|constructor]. split; simpl; [lia|constructor|].
    intros name seasons ep H. by apply elem_of_nil in H.
  - intros pre rf a [Hinv Hnd]. split.
    + destruct Hinv as [Hsid Hkeys Hids].
      destruct (scan_series_file_cases w a rf) as [->|(sname & s & ep & Hid & ->)];
        [done|].
      split; simpl.
      * lia.
      * unfold append_episode. by apply dict_set_NoDup.
      * intros name seasons ep' Hin Hep.
        destruct (append_episode_elem _ _ _ _ _ _ _ Hin Hep)
          as [->|(seasons0 & Hin0 & Hep0)]; [lia|].
        specialize (Hids _ _ _ Hin0 Hep0). lia.
    + destruct Hinv as [Hsid Hkeys Hids].
      destruct (scan_series_file_cases w a rf) as [->|(sname & s & ep & Hid & ->)];
        [done|].
      cbn [sw_new]. rewrite append_episode_episodes, map_app. cbn [map].
      apply NoDup_app. split; [done|]. split; [|apply NoDup_singleton].
      intros n Hn Hn'. apply list_elem_of_singleton in Hn'. subst n.
      apply list_elem_of_fmap in Hn as (ep' & Heq & Hep').
      apply elem_of_discovered_episodes in Hep' as (name & seasons & Hin & Hep').
      specialize (Hids _ _ _ Hin Hep'). lia.
Qed.

(** X25.  The episodes a scan discovers get ids that differ from one
    another, and, when the ids of the catalog's episodes were below the
    episode counter, from the id of every episode the catalog had. *)
Theorem scan_episode_ids_distinct (w : world) (st : state) :
  NoDup (map e_id (discovered_episodes (discovered_series w st)))
  /\ (Forall (fun ep => (e_id ep < sid st)%Z) (all_episodes (series_data st)) ->
      forall ep ep', ep ∈ discovered_episodes (discovered_series w st) ->
                     ep' ∈ all_episodes (series_data st) ->
                     e_id ep <> e_id ep').
Proof.
  unfold discovered_series. rewrite (if_fold_left _ (scan_series_file w)).
  destruct (series_ids_fold w (sid st)
    (if truthy (series_dir (cfg st)) && fs_exists w (series_dir (cfg st))
     then walk_files w (series_dir (cfg st)) else [])) as [[_ _ Hids] Hnd].
  cbn zeta in *. split; [done|].
  intros Hold ep ep' Hep Hep'.
  apply elem_of_discovered_episodes in Hep as (name & seasons & Hin & Hep).
  specialize (Hids _ _ _ Hin Hep). rewrite Forall_forall in Hold.
  specialize (Hold _ Hep'). lia.
Qed.

(** ** Paths below a root *)

Lemma is_prefix_app (p q s : list ascii) :
  is_prefix (p ++ q) s = true -> is_prefix p s = true.
Proof.
  revert s. induction p as [|a p IH]; intros s; [done|]. simpl.
  destruct s as [|b s]; [done|]. intros H. apply andb_true_iff in H as [-> H].
  by apply IH.
Qed.

Lemma strict_descendant_startswith (root p : string) :
  strict_descendant root p = true -> startswith p root = true.
Proof.
  unfold strict_descendant, startswith. intros H. apply andb_true_iff in H as [H _].
  destruct (endswith root "/"); [done|].
  rewrite chars_app in H. by apply is_prefix_app in H.
Qed.

(** X26.  [_validate_path] accepts every path that, resolved, lies below
    the resolved movie directory or below the resolved series directory:
    a file of the library is never refused. *)
Theorem validate_path_accepts_descendants (w : world) (st : state) (path : string) :
  (truthy (fs_realpath w (movie_dir (cfg st))) = true
   /\ strict_descendant (fs_realpath w (movie_dir (cfg st))) (fs_realpath w path) = true)
  \/ (truthy (fs_realpath w (series_dir (cfg st))) = true
      /\ strict_descendant (fs_realpath w (series_dir (cfg st))) (fs_realpath w path)
         = true) ->
  _validate_path w st path = true.
Proof.
  rewrite validate_path_prefix.
  intros [[-> H]|[-> H]]; apply strict_descendant_startswith in H; rewrite H.
  - done.
  - by rewrite orb_true_r.
Qed.

Lemma validate_path_accepts_descendants_witness :
  _validate_path Ex.one_movie_world Ex.one_movie_state "/movies/clip.mp4" = true.
Proof.
  apply (validate_path_accepts_descendants Ex.one_movie_world Ex.one_movie_state
           "/movies/clip.mp4").
  left. split; reflexivity.
Defined.

(** ** The requests of the worker *)

Lemma process_item_requests_bound (w : world) (st : state) (item : item_ref) :
  exists made, requests (process_item w st item).1 = requests w ++ made
               /\ length made <= 2.
Proof.
  destruct (truthy (omdb_api_key (cfg st))) eqn:Hkey.
  - destruct (process_item_requests w st item Hkey) as [->|(res & url & _ & _ & ->)].
    + eexists. split; [done|]. simpl. lia.
    + eexists. split; [done|]. simpl. lia.
  - exists []. split; [|simpl; lia].
    unfold process_item. rewrite Hkey. simpl. by rewrite app_nil_r.
Qed.

Lemma drain_requests (items : list item_ref) (w : world) (st : state) :
  exists made, requests (drain items (w, st)).1 = requests w ++ made
               /\ length made <= 2 * length items.
Proof.
  revert w st. induction items as [|item rest IH]; intros w st.
  - exists []. split; [|simpl; lia]. simpl. by rewrite app_nil_r.
  - cbn [drain fst snd].
    destruct (process_item_requests_bound w (set_queue st rest) item)
      as (made1 & H1 & Hl1).
    destruct (process_item w (set_queue st rest) item) as [w' st'] eqn:E.
    destruct (IH w' st') as (made2 & H2 & Hl2).
    exists (made1 ++ made2). rewrite H2. cbn [fst] in H1. rewrite H1.
    split; [by rewrite app_assoc|]. rewrite length_app. simpl. lia.
Qed.

(** X27.  The server's worker makes at most two requests for an item of
    the queue, one to the provider and one for the poster; it makes none
    but these, and the requests made before stay recorded. *)
Theorem worker_requests_bound (w : world) (st : state) :
  exists made,
    requests (metadata_worker w st).1 = requests w ++ made
    /\ length made <= 2 * length (metadata_queue st).
Proof. apply drain_requests. Qed.

(** ** The desktop scanner's metadata *)

Lemma download_poster_cases (w : world) (st : state) (item : item_ref) (url : string) :
  (Backend._download_poster w st item url).2 = st
  \/ exists lp, (Backend._download_poster w st item url).2
                = set_item_info st item (with_poster (item_info st item) lp).
Proof.
  unfold Backend._download_poster. cbn zeta.
  destruct (http_content _ _); [|by left].
  destruct (fs_writable _ _); [|by left]. right. by eexists.
Qed.

Lemma set_item_info_series (st : state) (item : item_ref) (i : info) :
  series_data (set_item_info st item i) = series_data st.
Proof. by destruct item. Qed.

Lemma set_meta_info_id (st : state) (l : nat) (i : info) :
  sm_id (meta_at (meta_heap (set_item_info st (MetaRef l) i)) l)
    = sm_id (meta_at (meta_heap st) l).
Proof. exact (item_id_text_set st (MetaRef l) i). Qed.

(** X28.  When the provider answers for the meta of a series, the desktop
    scanner writes the provider's rating into the meta and makes the
    series entry of that name refer to the meta and carry its rating and
    its poster; the seasons of the entry, and its plot, year and genre,
    stay as they were. *)
Theorem backend_fetch_adopts (w : world) (st : state) (l : nat) (res : omdb)
    (s : series) :
  let item := MetaRef l in
  let name := sm_id (meta_at (meta_heap st) l) in
  let i := item_info st item in
  let u := omdb_url (omdb_api_key (cfg st)) (title i) (default "" (year i)) in
  l < length (meta_heap st) ->
  http_json w u = Answer res -> Response res = Some "True" ->
  Dict.get name (series_data st) = Some s ->
  let st' := (Backend.fetch_item w st item).2 in
  rating (item_info st' item) = Some (default "N/A" (imdbRating res))
  /\ exists s',
       Dict.get name (series_data st') = Some s'
       /\ s_meta s' = Some l
       /\ s_rating s' = Some (default "N/A" (imdbRating res))
       /\ s_poster s' = Some (default "" (poster (item_info st' item)))
       /\ s_seasons s' = s_seasons s
       /\ (s_plot s', s_year s', s_genre s') = (s_plot s, s_year s, s_genre s).
Proof.
  intros item name i u Hl Hans Hres Hget st'.
  set (st1 := set_item_info st item (enriched i res)).
  assert (exists st2, st' = Backend.adopt_meta st2 item
            /\ series_data st2 = series_data st
            /\ length (meta_heap st2) = length (meta_heap st)
            /\ sm_id (meta_at (meta_heap st2) l) = name
            /\ rating (item_info st2 item) = Some (default "N/A" (imdbRating res)))
    as (st2 & -> & Hsd & Hlen & Hid & Hr).
  { assert (series_data st1 = series_data st
            /\ length (meta_heap st1) = length (meta_heap st)
            /\ sm_id (meta_at (meta_heap st1) l) = name
            /\ rating (item_info st1 item) = Some (default "N/A" (imdbRating res)))
      as (H1 & H2 & H3 & H4).
    { split; [apply set_item_info_series|]. split; [apply length_insert|].
      split; [apply set_meta_info_id|].
      unfold st1. by rewrite item_info_set_allocated. }
    unfold st', Backend.fetch_item. fold i u.
    change (http_json (log_request w u) u) with (http_json w u).
    rewrite Hans, bool_decide_eq_true_2 by done. fold st1.
    destruct (Poster res) as [url|]; [|by exists st1].
    destruct (truthy url && negb (String.eqb url "N/A")); [|by exists st1].
    destruct (Backend._download_poster (log_request w u) st1 item url)
      as [w2 st2] eqn:E.
    exists st2. split; [done|].
    destruct (download_poster_cases (log_request w u) st1 item url) as [H|[lp H]];
      rewrite E in H; cbn [snd] in H; subst st2; [done|].
    split; [by rewrite set_item_info_series|].
    split; [simpl; rewrite length_insert; exact H2|].
    split; [unfold item; by rewrite set_meta_info_id|].
    rewrite item_info_set_allocated by (simpl in *; lia). done. }
  unfold item in *. unfold Backend.adopt_meta. cbv beta iota zeta.
  rewrite Hid, Hsd, Hget.
  cbn [item_info set_series_data meta_heap series_data].
  split; [exact Hr|].
  eexists. split; [by rewrite dict_get_set, decide_True|].
  cbn [s_meta s_rating s_poster s_seasons s_plot s_year s_genre].
  simpl in Hr. rewrite Hr. done.
Qed.

Lemma backend_fetch_adopts_witness :
  let st' := (Backend.fetch_item Ex2.show_world Ex.scanned_state (MetaRef 0)).2 in
  rating (item_info st' (MetaRef 0)) = Some (default "N/A" (imdbRating Ex2.show_answer))
  /\ exists s',
       Dict.get (sm_id (meta_at (meta_heap Ex.scanned_state) 0)) (series_data st')
         = Some s'
       /\ s_meta s' = Some 0
       /\ s_rating s' = Some (default "N/A" (imdbRating Ex2.show_answer))
       /\ s_poster s' = Some (default "" (poster (item_info st' (MetaRef 0))))
       /\ s_seasons s' = s_seasons Ex2.show_entry
       /\ (s_plot s', s_year s', s_genre s')
          = (s_plot Ex2.show_entry, s_year Ex2.show_entry, s_genre Ex2.show_entry).
Proof.
  apply (backend_fetch_adopts Ex2.show_world Ex.scanned_state 0 Ex2.show_answer
           Ex2.show_entry).
  - vm_compute. lia.
  - vm_compute. reflexivity.
  - reflexivity.
  - vm_compute. reflexivity.
Defined.

(** ** The subtitle route *)

Lemma read_subtitle_first (w : world) (p c : string) (before after : list encoding) :
  encodings = before ++ after ->
  Forall (fun enc => fs_read_text w p enc true = None) before ->
  (match after with
   | enc :: _ => fs_read_text w p enc true = Some c
   | [] => False
   end) ->
  truthy c = true ->
  read_subtitle w p = Some c.
Proof.
  intros Henc Hbefore Hafter Hc. unfold read_subtitle. rewrite Henc.
  rewrite fold_left_app.
  assert (fold_left (fun content enc =>
                       match content with
                       | Some c => Some c
                       | None => fs_read_text w p enc true
                       end) before None = None) as ->.
  { clear Henc. induction Hbefore as [|enc before He _ IH]; [done|].
    simpl. by rewrite He. }
  destruct after as [|enc after]; [done|]. simpl. rewrite Hafter.
  assert (forall l, fold_left (fun content enc =>
                       match content with
                       | Some c => Some c
                       | None => fs_read_text w p enc true
                       end) l (Some c) = Some c) as ->
    by (intros l; induction l; done).
  simpl. by rewrite Hc.
Qed.

(** X29.  The subtitle route answers 404 with an empty body, or 200 with
    a non-empty text of type [text/vtt]: the text of the subtitle file
    found next to the video, as it is when the file's name ends in
    [.vtt] and converted by [srt_to_vtt] otherwise.  The text is the one
    the first of the encodings utf-8, cp1254, iso-8859-9 and latin-1 that
    decodes the file gives, when it is not empty. *)
Theorem sub_answers (w : world) (vid : Z) (st : state) :
  ((sub w vid st).1 = plain "" 404
   \/ exists t p c,
        find_target st vid = Some t
        /\ find_local_subtitle w (entry_path t) = Some p
        /\ read_subtitle w p = Some c /\ c <> ""
        /\ (sub w vid st).1
           = {| status := 200; mimetype := "text/vtt"; content_range := None;
                content := Text (if endswith p ".vtt" then c else srt_to_vtt c) |}
        /\ (if endswith p ".vtt" then c else srt_to_vtt c) <> "")
  /\ (forall p c before enc after,
        encodings = before ++ enc :: after ->
        Forall (fun e => fs_read_text w p e true = None) before ->
        fs_read_text w p enc true = Some c -> c <> "" ->
        read_subtitle w p = Some c).
Proof.
  split.
  - unfold sub. destruct (find_target st vid) as [t|]; [|by left].
    destruct (find_local_subtitle w (entry_path t)) as [p|] eqn:Hp; [|by left].
    destruct (read_subtitle w p) as [c|] eqn:Hc; [|by left]. cbn [truthy_opt].
    destruct (truthy c) eqn:Htc; [|by left]. right. exists t, p, c.
    assert (c <> "") as Hne by (intros ->; done).
    repeat split; try done.
    destruct (endswith p ".vtt"); [done|]. unfold srt_to_vtt. done.
  - intros p c before enc after Henc Hbefore Hread Hne.
    apply (read_subtitle_first w p c before (enc :: after)); try done.
    unfold truthy. by apply negb_true_iff, String.eqb_neq.
Qed.

(** ** The end of the scanner thread *)

Lemma set_item_info_flags (st : state) (item : item_ref) (i : info) :
  metadata_queue (set_item_info st item i) = metadata_queue st
  /\ is_scanning (set_item_info st item i) = is_scanning st
  /\ cfg (set_item_info st item i) = cfg st.
Proof. by destruct item. Qed.

Lemma fetch_item_flags (w : world) (st : state) (item : item_ref) :
  metadata_queue (Backend.fetch_item w st item).2 = metadata_queue st
  /\ is_scanning (Backend.fetch_item w st item).2 = is_scanning st
  /\ cfg (Backend.fetch_item w st item).2 = cfg st.
Proof.
  unfold Backend.fetch_item. cbn zeta.
  destruct (http_json _ _) as [| |res]; [done|done|].
  case_bool_decide; [|done].
  set (st1 := set_item_info st item _).
  pose proof (set_item_info_flags st item
                (enriched (item_info st item) res)) as H1. fold st1 in H1.
  assert (forall st2, metadata_queue st2 = metadata_queue st
                      /\ is_scanning st2 = is_scanning st /\ cfg st2 = cfg st ->
            metadata_queue (Backend.adopt_meta st2 item) = metadata_queue st
            /\ is_scanning (Backend.adopt_meta st2 item) = is_scanning st
            /\ cfg (Backend.adopt_meta st2 item) = cfg st) as Hadopt.
  { intros st2 H2. unfold Backend.adopt_meta. destruct item as [k|k]; [done|].
    by destruct (Dict.get _ (series_data st2)). }
  destruct (Poster res) as [url|]; [|by apply Hadopt].
  destruct (truthy url && negb (String.eqb url "N/A")); [|by apply Hadopt].
  destruct (Backend._download_poster _ st1 item url) as [w2 st2] eqn:E.
  cbn [snd]. apply Hadopt.
  destruct (download_poster_cases (log_request w
              (omdb_url (omdb_api_key (cfg st)) (title (item_info st item))
                 (default "" (year (item_info st item))))) st1 item url)
    as [Hd|[lp Hd]];
    rewrite E in Hd; cbn [snd] in Hd; subst st2; [done|].
  destruct (set_item_info_flags st1 item (with_poster (item_info st1 item) lp))
    as (-> & -> & ->). done.
Qed.

Lemma backend_drain_flags (items : list item_ref) (w : world) (st : state) :
  metadata_queue (Backend.drain items (w, st)).2
    = match items with [] => metadata_queue st | _ => [] end
  /\ is_scanning (Backend.drain items (w, st)).2 = is_scanning st
  /\ cfg (Backend.drain items (w, st)).2 = cfg st.
Proof.
  revert w st. induction items as [|item rest IH]; intros w st; [done|].
  cbn [Backend.drain fst snd].
  destruct (Backend.fetch_item w (set_queue st rest) item) as [w' st'] eqn:E.
  destruct (fetch_item_flags w (set_queue st rest) item) as (Hq & Hs & Hc).
  rewrite E in Hq, Hs, Hc. cbn [snd] in *.
  destruct (IH w' st') as (-> & -> & ->).
  split; [by destruct rest|]. done.
Qed.

(** X30.  When the scanner thread of the desktop front end has run, the
    scanning flag is off and the configuration is the one it started
    with; with a provider key the metadata queue is empty, every item
    having been taken whatever the provider answered. *)
Theorem backend_run_ends (w : world) (st : state) :
  is_scanning (Backend.run w st).2 = false
  /\ cfg (Backend.run w st).2 = cfg st
  /\ (truthy (omdb_api_key (cfg st)) = true ->
      metadata_queue (Backend.run w st).2 = []).
Proof.
  unfold Backend.run. cbn zeta.
  set (st1 := Backend._scan_series w (Backend._scan_movies w (Backend.set_scanning st true))).
  assert (cfg st1 = cfg st) as Hcfg.
  { unfold st1, Backend._scan_series, Backend._scan_movies.
    repeat (case_match; cbn [cfg Backend.set_scanning Backend.set_movies]); done. }
  unfold Backend._fetch_metadata. cbn [Backend.set_scanning cfg]. rewrite Hcfg.
  destruct (truthy (omdb_api_key (cfg st))); cbn [negb].
  - destruct (backend_drain_flags
                (metadata_queue (Backend.set_scanning st1 false))
                (Backend.save w st1) (Backend.set_scanning st1 false))
      as (Hq & Hs & Hc).
    rewrite Hs, Hc.
    split; [reflexivity|]. split; [exact Hcfg|]. intros _. rewrite Hq.
    by destruct (metadata_queue (Backend.set_scanning st1 false)) eqn:E.
  - cbn [snd]. split; [reflexivity|]. split; [exact Hcfg|]. done.
Qed.
